(** * tmux-focus-zoom: the layout codec and the zoom transform

    A shallow embedding of the layout engine of tmux-focus-zoom
    (ParseLayout / BuildLayout / calculateChecksum, ApplyZoomToLayout,
    applyNestedZoom, ApplyZoom and the degraded path behind it, with the
    commands of tmux.go they run), with the properties the specification
    states about it and further properties of the code.

    Conventions of the embedding:
    - a Go [int] is a [Z] kept inside the signed 64-bit range; every
      arithmetic operation goes through [GoInt.wrap];
    - a Go [string] is a sequence of bytes, [list ascii];
    - a function that returns [(value, error)] returns a [result];
    - the two mutually recursive parsers recurse on an explicit fuel,
      and [ParseLayout] is shown never to exhaust the fuel it hands out;
    - the zoom functions mutate a freshly copied tree in place; they are
      written as functions from trees to trees, and module [Heap] models
      the pointer structure where a statement depends on aliasing. *)

From Stdlib Require Import ZArith List Ascii String Bool Lia Arith Sorted Permutation.
Import ListNotations.

Local Open Scope Z_scope.

(** ** Go machine integers *)

Module GoInt.

Definition min_int : Z := - 2 ^ 63.
Definition max_int : Z := 2 ^ 63 - 1.

Definition in_range (z : Z) : bool := (min_int <=? z) && (z <=? max_int).

(** Two's complement wrap-around of a mathematical result into [int]. *)
Definition wrap (z : Z) : Z := (z + 2 ^ 63) mod 2 ^ 64 - 2 ^ 63.

Definition add (a b : Z) : Z := wrap (a + b).
Definition sub (a b : Z) : Z := wrap (a - b).
Definition mul (a b : Z) : Z := wrap (a * b).
(** Go's [/] truncates toward zero. *)
Definition div (a b : Z) : Z := wrap (Z.quot a b).

(** [len(xs)] as an [int]. *)
Definition len {A} (xs : list A) : Z := Z.of_nat (List.length xs).

End GoInt.

(** ** Go strings *)

Definition gostring := list ascii.

(** A string literal. *)
Definition str (s : string) : gostring := list_ascii_of_string s.

Definition byte_val (c : ascii) : Z := Z.of_N (N_of_ascii c).

(** [strings.Index(s, c)] for a one-byte needle; [None] stands for -1. *)
Fixpoint strings_Index (c : ascii) (s : gostring) : option nat :=
  match s with
  | [] => None
  | d :: s' => if Ascii.eqb d c then Some O
               else option_map S (strings_Index c s')
  end.

(** The scanning loops [for i, c := range s { if stop c { endIdx = i; break } }]
    with [endIdx] preset to [len(s)].  The stop characters are ASCII, and an
    ASCII byte never occurs inside a multi-byte rune, so the loop over runes
    stops at the first stop byte. *)
Fixpoint scan_until (stop : ascii -> bool) (s : gostring) : nat :=
  match s with
  | [] => O
  | d :: s' => if stop d then O else S (scan_until stop s')
  end.

Definition is_digit (c : ascii) : bool :=
  (48 <=? byte_val c) && (byte_val c <=? 57).

(** The digit loop of [strconv]: [n = n*10 + (ch - '0')], failing on the
    first byte that is not a decimal digit.  The accumulator is a
    mathematical integer here; the range check is in [Atoi]. *)
Fixpoint digits_value (acc : Z) (s : gostring) : option Z :=
  match s with
  | [] => Some acc
  | d :: s' => if is_digit d then digits_value (acc * 10 + (byte_val d - 48)) s'
               else None
  end.

(** [strconv.Atoi]: an optional sign, at least one decimal digit, nothing
    else, and a value that fits [int]; [None] is the returned error. *)
Definition Atoi (s : gostring) : option Z :=
  let neg := match s with c :: _ => Ascii.eqb c "-"%char | [] => false end in
  let ds := match s with
            | c :: r => if Ascii.eqb c "-"%char || Ascii.eqb c "+"%char then r else s
            | [] => s
            end in
  match ds with
  | [] => None
  | _ => match digits_value 0 ds with
         | None => None
         | Some n => let z := if neg then - n else n in
                     if GoInt.in_range z then Some z else None
         end
  end.

(** Digits of [fmt]'s integer verbs, lowercase. *)
Definition digit_char (d : Z) : ascii :=
  if d <? 10 then ascii_of_N (Z.to_N (48 + d))
  else ascii_of_N (Z.to_N (97 + (d - 10))).

(** The digits of a non-negative [n] in [base], most significant first,
    at least one digit.  [fuel] bounds the number of digits. *)
Fixpoint format_uint_aux (fuel : nat) (base n : Z) (acc : gostring) : gostring :=
  let acc' := digit_char (n mod base) :: acc in
  match fuel with
  | O => acc'
  | S fuel' => if n <? base then acc' else format_uint_aux fuel' base (n / base) acc'
  end.

Definition format_uint (base n : Z) : gostring :=
  format_uint_aux (Z.to_nat (Z.log2 n)) base n [].

(** [fmt.Sprintf("%d", z)]. *)
Definition itoa (z : Z) : gostring :=
  if z <? 0 then "-"%char :: format_uint 10 (- z) else format_uint 10 z.

(** Left padding with ['0'] up to [width] bytes. *)
Definition pad_zero (width : nat) (s : gostring) : gostring :=
  repeat "0"%char (width - List.length s) ++ s.

(** [fmt.Sprintf("%04x", v)] for an unsigned [v]. *)
Definition fmt_04x (v : Z) : gostring := pad_zero 4 (format_uint 16 v).

(** [strings.Join(parts, sep)]. *)
Fixpoint strings_Join (parts : list gostring) (sep : gostring) : gostring :=
  match parts with
  | [] => []
  | [p] => p
  | p :: ps => p ++ sep ++ strings_Join ps sep
  end.

(** ** Results of fallible and fuelled computations *)

(** [Ok] is a normal return, [Err] the returned Go [error] (or, for the
    zoom functions, a run-time panic), [OutOfFuel] the exhaustion of the
    recursion budget of the embedding; it has no counterpart in Go and is
    proved unreachable at the fuel the entry points use. *)
Inductive result (E A : Type) : Type :=
| Ok (a : A)
| Err (e : E)
| OutOfFuel.
Arguments Ok {E A} a.
Arguments Err {E A} e.
Arguments OutOfFuel {E A}.

Definition bind {E A B} (r : result E A) (k : A -> result E B) : result E B :=
  match r with
  | Ok a => k a
  | Err e => Err e
  | OutOfFuel => OutOfFuel
  end.

Notation "x <- r ;; k" := (bind r (fun x => k))
  (at level 61, r at next level, right associativity).
Notation "' pat <- r ;; k" := (bind r (fun x => match x with pat => k end))
  (at level 61, pat pattern, r at next level, right associativity).

(** [v, err := Atoi(..); if err != nil { return .., e }]. *)
Definition orErr {E A} (e : E) (o : option A) : result E A :=
  match o with
  | Some a => Ok a
  | None => Err e
  end.

(** The default percentage of window size the focused pane should
    occupy. *)
Definition DefaultZoomPercent : Z := 65.

(** ** The layout tree *)

Inductive SplitType : Type :=
| SplitNone        (* leaf pane (no split) *)
| SplitHorizontal  (* children side by side, written with braces *)
| SplitVertical.   (* children top to bottom, written with brackets *)

Definition SplitType_eqb (a b : SplitType) : bool :=
  match a, b with
  | SplitNone, SplitNone
  | SplitHorizontal, SplitHorizontal
  | SplitVertical, SplitVertical => true
  | _, _ => false
  end.

(** [type LayoutNode struct].  [PaneID] is -1 if the node is not a leaf
    pane.  The field [SplitType] is spelled [splitType] here, since the
    type of that name is already taken. *)
#[local] Unset Elimination Schemes.
Inductive LayoutNode : Type :=
  mkLayoutNode {
    Width : Z;
    Height : Z;
    X : Z;
    Y : Z;
    PaneID : Z;
    splitType : SplitType;
    Children : list LayoutNode
  }.
#[local] Set Elimination Schemes.

(** The invariant of the data model: a leaf has no children, and a node
    that is not a leaf pane carries the pane id -1. *)
Fixpoint well_formed (node : LayoutNode) : bool :=
  match node with
  | mkLayoutNode _ _ _ _ id st cs =>
    match st with
    | SplitNone => match cs with [] => true | _ => false end
    | _ => id =? -1
    end && forallb well_formed cs
  end.

(** Every integer field of the tree is a value of Go's [int]. *)
Fixpoint ints_in_range (node : LayoutNode) : bool :=
  match node with
  | mkLayoutNode w h x y id _ cs =>
    GoInt.in_range w && GoInt.in_range h && GoInt.in_range x && GoInt.in_range y
    && GoInt.in_range id && forallb ints_in_range cs
  end.

(** ** ParseLayout *)

(** The errors of the parser, one per [fmt.Errorf] of the source. *)
Inductive ParseError : Type :=
| NoChecksumSeparator   (* invalid layout: no checksum separator *)
| NoXInDimensions       (* invalid node: no 'x' in dimensions *)
| InvalidWidth
| NoCommaAfterHeight
| InvalidHeight
| NoCommaAfterX
| InvalidX
| InvalidY
| InvalidPaneID
| UnexpectedCharacter (c : ascii).

Definition is_y_stop (c : ascii) : bool :=
  Ascii.eqb c ","%char || Ascii.eqb c "{"%char || Ascii.eqb c "["%char
  || Ascii.eqb c "}"%char || Ascii.eqb c "]"%char.

Definition is_id_stop (c : ascii) : bool :=
  Ascii.eqb c ","%char || Ascii.eqb c "}"%char || Ascii.eqb c "]"%char.

(** [if len(s) > 0 && s[0] == ',' { s = s[1:] }] *)
Definition skip_comma (s : gostring) : gostring :=
  match s with
  | d :: s1 => if Ascii.eqb d ","%char then s1 else s
  | [] => s
  end.

(** [parseNode] parses a single node and returns it with the remaining
    unparsed string; [parseChildren] parses a comma-separated list of
    child nodes up to [endChar].  The [for] loop of [parseChildren] is the
    recursion of [parseChildren] on the remaining string: one iteration,
    then the rest of the loop, the children being appended in order. *)
Fixpoint parseNode (fuel : nat) (s : gostring)
  : result ParseError (LayoutNode * gostring) :=
  match fuel with
  | O => OutOfFuel
  | S fuel' =>
    (* Parse WxH *)
    xIdx <- orErr NoXInDimensions (strings_Index "x"%char s) ;;
    width <- orErr InvalidWidth (Atoi (firstn xIdx s)) ;;
    let s := skipn (xIdx + 1) s in
    (* Find end of height (next comma) *)
    commaIdx <- orErr NoCommaAfterHeight (strings_Index ","%char s) ;;
    height <- orErr InvalidHeight (Atoi (firstn commaIdx s)) ;;
    let s := skipn (commaIdx + 1) s in
    (* Parse x position *)
    commaIdx <- orErr NoCommaAfterX (strings_Index ","%char s) ;;
    x <- orErr InvalidX (Atoi (firstn commaIdx s)) ;;
    let s := skipn (commaIdx + 1) s in
    (* Parse y position - ends at comma, {, [, }, ] or end *)
    let endIdx := scan_until is_y_stop s in
    y <- orErr InvalidY (Atoi (firstn endIdx s)) ;;
    let s := skipn endIdx s in
    let node st id cs := mkLayoutNode width height x y id st cs in
    (* Check what follows *)
    match s with
    | [] => Ok (node SplitNone (-1) [], [])
    | c :: s1 =>
      if Ascii.eqb c "{"%char then
        '(children, rest) <- parseChildren fuel' s1 "}"%char ;;
        Ok (node SplitHorizontal (-1) children, rest)
      else if Ascii.eqb c "["%char then
        '(children, rest) <- parseChildren fuel' s1 "]"%char ;;
        Ok (node SplitVertical (-1) children, rest)
      else if Ascii.eqb c ","%char then
        let endIdx := scan_until is_id_stop s1 in
        paneID <- orErr InvalidPaneID (Atoi (firstn endIdx s1)) ;;
        Ok (node SplitNone paneID [], skipn endIdx s1)
      else if Ascii.eqb c "}"%char || Ascii.eqb c "]"%char then
        Ok (node SplitNone (-1) [], s)
      else Err (UnexpectedCharacter c)
    end
  end

with parseChildren (fuel : nat) (s : gostring) (endChar : ascii)
  : result ParseError (list LayoutNode * gostring) :=
  match fuel with
  | O => OutOfFuel
  | S fuel' =>
    match s with
    | [] => Ok ([], [])
    | c :: s1 =>
      if Ascii.eqb c endChar then
        (* Skip the closing bracket *)
        Ok ([], s1)
      else
        '(child, rest) <- parseNode fuel' s ;;
        (* Skip comma between children *)
        let s := skip_comma rest in
        '(children, s) <- parseChildren fuel' s endChar ;;
        Ok (child :: children, s)
    end
  end.

(** The recursion budget [ParseLayout] hands to [parseNode]. *)
Definition parse_fuel (s : gostring) : nat := 2 * List.length s + 1.

(** [ParseLayout] parses a tmux layout string into a tree structure.
    Format: checksum,WxH,x,y{children} or checksum,WxH,x,y[children] or
    checksum,WxH,x,y,paneID. *)
Definition ParseLayout (layout : gostring) : result ParseError LayoutNode :=
  (* Skip the checksum (first part before comma) *)
  idx <- orErr NoChecksumSeparator (strings_Index ","%char layout) ;;
  let rest := skipn (idx + 1) layout in
  '(node, _) <- parseNode (parse_fuel rest) rest ;;
  Ok node.

(** ** BuildLayout *)

(** [buildNodeString] builds the layout string for a node (without
    checksum).  The [default] arm of the source's switch is for a
    [SplitType] outside its three constants, which this type has not. *)
Fixpoint buildNodeString (node : LayoutNode) : gostring :=
  match node with
  | mkLayoutNode width height x y paneID st children =>
    let base := itoa width ++ str "x" ++ itoa height ++ str ","
                ++ itoa x ++ str "," ++ itoa y in
    match st with
    | SplitNone => base ++ str "," ++ itoa paneID
    | SplitHorizontal =>
      base ++ str "{" ++ strings_Join (map buildNodeString children) (str ",") ++ str "}"
    | SplitVertical =>
      base ++ str "[" ++ strings_Join (map buildNodeString children) (str ",") ++ str "]"
    end
  end.

Definition u16 (z : Z) : Z := z mod 2 ^ 16.

(** One round of the loop of [calculateChecksum] on a [uint16]:
    [csum = (csum >> 1) + ((csum & 1) << 15); csum += uint16(s[i])]. *)
Definition csum_step (csum : Z) (b : ascii) : Z :=
  let csum := u16 (Z.shiftr csum 1 + u16 (Z.shiftl (Z.land csum 1) 15)) in
  u16 (csum + byte_val b).

Definition csum_of (s : gostring) : Z := fold_left csum_step s 0.

(** [calculateChecksum] calculates the tmux layout checksum. *)
Definition calculateChecksum (s : gostring) : gostring := fmt_04x (csum_of s).

(** [BuildLayout] builds a tmux layout string from a tree structure. *)
Definition BuildLayout (node : LayoutNode) : gostring :=
  let body := buildNodeString node in
  let checksum := calculateChecksum body in
  checksum ++ str "," ++ body.

(** *** The checksum as the specification words it

    A 16-bit accumulator starts at 0; for each byte of the body it is
    rotated right by one bit, the bit shifted out of the low end
    re-entering at the high end, and the byte's unsigned value is added
    with 16-bit wrap-around. *)

Definition bit (a i : Z) : Z := Z.b2z (Z.testbit a i).

(** Bit [i] of the rotated word is bit [i + 1] of the word, and bit 15 is
    its bit 0. *)
Definition rotate_right_16 (a : Z) : Z :=
  fold_right (fun i acc => bit a ((i + 1) mod 16) * 2 ^ i + acc) 0
             (map Z.of_nat (seq 0 16)).

Definition spec_checksum (s : gostring) : Z :=
  fold_left (fun acc b => (rotate_right_16 acc + byte_val b) mod 2 ^ 16) s 0.

(** The value of a numeral in a base up to 16, lowercase digits. *)
Definition digit_val (c : ascii) : Z :=
  if is_digit c then byte_val c - 48 else byte_val c - 87.

Definition radix_value (base : Z) (s : gostring) : Z :=
  fold_left (fun acc c => acc * base + digit_val c) s 0.

Definition is_lower_hex (c : ascii) : bool :=
  is_digit c || ((97 <=? byte_val c) && (byte_val c <=? 102)).

(** ** Auxiliary functions over the tree *)

(** [containsPane] checks if a node or its descendants contain the given
    pane ID. *)
Fixpoint containsPane (node : LayoutNode) (paneID : Z) : bool :=
  match node with
  | mkLayoutNode _ _ _ _ id _ children =>
    if id =? paneID then true
    else existsb (fun child => containsPane child paneID) children
  end.

(** [countPanes] returns the number of panes in a layout tree. *)
Fixpoint countPanes (node : LayoutNode) : Z :=
  match node with
  | mkLayoutNode _ _ _ _ _ st children =>
    match st with
    | SplitNone => 1
    | _ => fold_left (fun count child => GoInt.add count (countPanes child)) children 0
    end
  end.

(** [copyLayoutNode] creates a deep copy of a layout node. *)
Fixpoint copyLayoutNode (node : LayoutNode) : LayoutNode :=
  match node with
  | mkLayoutNode width height x y paneID st children =>
    mkLayoutNode width height x y paneID st (map copyLayoutNode children)
  end.

(** ** The zoom transform *)

(** The run-time panics the zoom functions can raise: an index outside a
    slice, and, in the pointer model of module [Heap], the dereference of
    a nil pointer. *)
Inductive Panic : Type := IndexOutOfRange | NilDereference.

(** The two zoom functions of the source, [applyHorizontalZoom] and
    [applyVerticalZoom], are the same text up to the axis they work on:
    [Width], [X] and [updateChildWidths] in one, [Height], [Y] and
    [updateChildHeights] in the other.  They are written once, over the
    axis. *)
Inductive Axis : Type := AxisWidth | AxisHeight.

Definition size_of (ax : Axis) (node : LayoutNode) : Z :=
  match ax with AxisWidth => Width node | AxisHeight => Height node end.

Definition pos_of (ax : Axis) (node : LayoutNode) : Z :=
  match ax with AxisWidth => X node | AxisHeight => Y node end.

Definition set_size (ax : Axis) (node : LayoutNode) (v : Z) : LayoutNode :=
  match node with
  | mkLayoutNode w h x y id st cs =>
    match ax with
    | AxisWidth => mkLayoutNode v h x y id st cs
    | AxisHeight => mkLayoutNode w v x y id st cs
    end
  end.

Definition set_pos (ax : Axis) (node : LayoutNode) (v : Z) : LayoutNode :=
  match node with
  | mkLayoutNode w h x y id st cs =>
    match ax with
    | AxisWidth => mkLayoutNode w h v y id st cs
    | AxisHeight => mkLayoutNode w h x v id st cs
    end
  end.

Definition set_children (node : LayoutNode) (cs : list LayoutNode) : LayoutNode :=
  match node with
  | mkLayoutNode w h x y id st _ => mkLayoutNode w h x y id st cs
  end.

(** The split type through which a size is handed down unchanged: a
    width through a vertical split, a height through a horizontal one. *)
Definition cross_split (ax : Axis) : SplitType :=
  match ax with AxisWidth => SplitVertical | AxisHeight => SplitHorizontal end.

(** The split type whose children are laid out along the axis. *)
Definition along_split (ax : Axis) : SplitType :=
  match ax with AxisWidth => SplitHorizontal | AxisHeight => SplitVertical end.

(** [updateChildWidths] / [updateChildHeights]: set the size of the node
    and, where the node is split across the axis, of all its children,
    recursively; the children of a split along the axis keep their own
    sizes. *)
Fixpoint updateChildSizes (ax : Axis) (node : LayoutNode) (v : Z) : LayoutNode :=
  match node with
  | mkLayoutNode w h x y id st cs =>
    let cs' := if SplitType_eqb st (cross_split ax)
               then map (fun child => updateChildSizes ax child v) cs
               else cs in
    set_size ax (mkLayoutNode w h x y id st cs') v
  end.

Definition updateChildWidths : LayoutNode -> Z -> LayoutNode := updateChildSizes AxisWidth.
Definition updateChildHeights : LayoutNode -> Z -> LayoutNode := updateChildSizes AxisHeight.

(** [for i, child := range children { if i != activeIdx { other += child.size } }] *)
Fixpoint sum_other (ax : Axis) (i activeIdx : Z) (children : list LayoutNode) (other : Z) : Z :=
  match children with
  | [] => other
  | child :: cs =>
    sum_other ax (i + 1) activeIdx cs
      (if i =? activeIdx then other else GoInt.add other (size_of ax child))
  end.

(** The distribution loop: the new size of every child, in order. *)
Fixpoint new_sizes (ax : Axis) (i activeIdx : Z) (target other remaining n : Z)
         (children : list LayoutNode) : list Z :=
  match children with
  | [] => []
  | child :: cs =>
    (if i =? activeIdx then target
     else if 0 <? other then
       (* Proportional share *)
       GoInt.div (GoInt.mul (size_of ax child) remaining) other
     else
       (* Fallback: equal distribution *)
       GoInt.div remaining (GoInt.sub n 1))
    :: new_sizes ax (i + 1) activeIdx target other remaining n cs
  end.

(** [used += newSizes[i]] over the loop. *)
Definition sum_sizes (sizes : list Z) : Z := fold_left GoInt.add sizes 0.

(** [xs[idx] += d]; an index outside the slice panics. *)
Fixpoint add_at_nat (xs : list Z) (k : nat) (d : Z) : list Z :=
  match xs, k with
  | [], _ => []
  | x :: xs', O => GoInt.add x d :: xs'
  | x :: xs', S k' => x :: add_at_nat xs' k' d
  end.

Definition add_at (xs : list Z) (idx d : Z) : result Panic (list Z) :=
  if (0 <=? idx) && (idx <? GoInt.len xs)
  then Ok (add_at_nat xs (Z.to_nat idx) d)
  else Err IndexOutOfRange.

(** The last loop: every child takes its new size and the running
    position, hands the size down, and the position moves past the child
    and one border cell. *)
Fixpoint place_children (ax : Axis) (children : list LayoutNode) (sizes : list Z)
         (current : Z) : list LayoutNode :=
  match children, sizes with
  | child :: cs, v :: vs =>
    updateChildSizes ax (set_pos ax (set_size ax child v) current) v
    :: place_children ax cs vs (GoInt.add current (GoInt.add v 1))
  | _, _ => []
  end.

(** [applyHorizontalZoom] / [applyVerticalZoom]: the active child gets
    [zoomPercent] of the size, the others shrink proportionally. *)
Definition applyAxisZoom (ax : Axis) (node : LayoutNode) (activeIdx zoomPercent : Z)
  : result Panic LayoutNode :=
  let children := Children node in
  if GoInt.len children <=? 1 then Ok node
  else
    (* Calculate total available size (without borders) *)
    let borders := GoInt.sub (GoInt.len children) 1 in
    let available := GoInt.sub (size_of ax node) borders in
    (* Target size for active child *)
    let target := GoInt.div (GoInt.mul available zoomPercent) 100 in
    (* Total size of other children (for proportional distribution) *)
    let other := sum_other ax 0 activeIdx children 0 in
    (* Remaining size for other children *)
    let remaining := GoInt.sub available target in
    (* Distribute sizes *)
    let newSizes := new_sizes ax 0 activeIdx target other remaining
                              (GoInt.len children) children in
    let used := sum_sizes newSizes in
    (* Adjust for rounding errors - add remainder to active child *)
    newSizes <- (if negb (used =? available)
                 then add_at newSizes activeIdx (GoInt.sub available used)
                 else Ok newSizes) ;;
    (* Apply new sizes and update positions *)
    Ok (set_children node (place_children ax children newSizes (pos_of ax node))).

Definition applyHorizontalZoom : LayoutNode -> Z -> Z -> result Panic LayoutNode :=
  applyAxisZoom AxisWidth.
Definition applyVerticalZoom : LayoutNode -> Z -> Z -> result Panic LayoutNode :=
  applyAxisZoom AxisHeight.

(** [idx := -1; for i, c := range children { if containsPane(c, id) { idx = i; break } }] *)
Fixpoint find_active (i : Z) (children : list LayoutNode) (paneID : Z) : Z :=
  match children with
  | [] => -1
  | child :: cs => if containsPane child paneID then i
                   else find_active (i + 1) cs paneID
  end.

(** The dispatch on the split type shared by [ApplyZoomToLayout] and
    [applyNestedZoom]; a node of type [SplitNone] is left alone. *)
Definition zoom_by_split (node : LayoutNode) (activeIdx zoomPercent : Z)
  : result Panic LayoutNode :=
  match splitType node with
  | SplitHorizontal => applyHorizontalZoom node activeIdx zoomPercent
  | SplitVertical => applyVerticalZoom node activeIdx zoomPercent
  | SplitNone => Ok node
  end.

(** [ApplyZoomToLayout] modifies a layout tree so the pane with
    [activePaneID] gets [zoomPercent] of the available space, while
    others shrink proportionally.  Returns a new layout tree. *)
Definition ApplyZoomToLayout (node : LayoutNode) (activePaneID zoomPercent : Z)
  : result Panic LayoutNode :=
  (* Deep copy the tree *)
  let result := copyLayoutNode node in
  (* Find which child contains the active pane *)
  let activeChildIdx := find_active 0 (Children result) activePaneID in
  if activeChildIdx =? -1 then
    (* Active pane not found in children - return unchanged *)
    Ok result
  else
    (* Apply zoom based on split type *)
    zoom_by_split result activeChildIdx zoomPercent.

(** The body of the loop of [applyNestedZoom] on the first element that
    passes [test]: it is replaced by what [f] makes of it, and the loop
    returns. *)
Fixpoint on_first {E A} (test : A -> bool) (f : A -> result E A) (l : list A)
  : result E (list A) :=
  match l with
  | [] => Ok []
  | a :: l' =>
    if test a then a' <- f a ;; Ok (a' :: l')
    else l'' <- on_first test f l' ;; Ok (a :: l'')
  end.

(** [applyNestedZoom] recursively applies zoom to nested splits
    containing the active pane.  The recursion is on the child as the
    zoom left it, hence the fuel. *)
Fixpoint applyNestedZoom_rec (fuel : nat) (node : LayoutNode) (activePaneID zoomPercent : Z)
  : result Panic LayoutNode :=
  match fuel with
  | O => OutOfFuel
  | S fuel' =>
    children <- on_first
      (fun child => containsPane child activePaneID)
      (fun child =>
         (* If this child has children (is a split), apply zoom to it *)
         if 1 <? GoInt.len (Children child) then
           (* Find which grandchild contains the active pane *)
           let activeGrandchildIdx := find_active 0 (Children child) activePaneID in
           if 0 <=? activeGrandchildIdx then
             child <- zoom_by_split child activeGrandchildIdx zoomPercent ;;
             (* Recursively apply to deeper levels *)
             applyNestedZoom_rec fuel' child activePaneID zoomPercent
           else Ok child
         else Ok child)
      (Children node) ;;
    Ok (set_children node children)
  end.

Fixpoint depth (node : LayoutNode) : nat :=
  match node with
  | mkLayoutNode _ _ _ _ _ _ cs => S (fold_right (fun c d => Nat.max (depth c) d) O cs)
  end.

Definition applyNestedZoom (node : LayoutNode) (activePaneID zoomPercent : Z)
  : result Panic LayoutNode :=
  applyNestedZoom_rec (depth node) node activePaneID zoomPercent.

(** The zoom transform as [ApplyZoom] runs it: the zoom at the root, then
    the zoom of the nested splits on the way to the active pane. *)
Definition zoomTransform (node : LayoutNode) (activePaneID zoomPercent : Z)
  : result Panic LayoutNode :=
  zoomed <- ApplyZoomToLayout node activePaneID zoomPercent ;;
  applyNestedZoom zoomed activePaneID zoomPercent.

(** ** Pane ids of the leaves *)

Fixpoint leaf_ids (node : LayoutNode) : list Z :=
  match node with
  | mkLayoutNode _ _ _ _ id st cs =>
    match st with
    | SplitNone => [id]
    | _ => flat_map leaf_ids cs
    end
  end.

(** ** The tree in memory *)

(** In Go a [*LayoutNode] is a pointer, the children of a node are a
    slice of pointers, and the zoom functions write through them.
    [ApplyZoomToLayout] is modelled here on a heap of nodes to state what
    it does to the tree it is given.  A pointer is an index into the
    heap; an index outside the heap stands for [nil]; allocation appends
    a cell. *)
Module Heap.

Definition ptr := nat.

Record cell : Type := mkCell {
  cWidth : Z;
  cHeight : Z;
  cX : Z;
  cY : Z;
  cPaneID : Z;
  cSplit : SplitType;
  cChildren : list ptr
}.

Definition heap := list cell.

Definition load (h : heap) (p : ptr) : option cell := nth_error h p.

(** [*p], a panic on [nil]. *)
Definition deref (h : heap) (p : ptr) : result Panic cell :=
  orErr NilDereference (load h p).

(** [&LayoutNode{...}] *)
Definition alloc (h : heap) (c : cell) : heap * ptr := (h ++ [c], List.length h).

(** [*p = c] for an allocated [p]. *)
Fixpoint store (h : heap) (p : ptr) (c : cell) : heap :=
  match h, p with
  | [], _ => []
  | _ :: h', O => c :: h'
  | a :: h', S p' => a :: store h' p' c
  end.

Definition with_children (c : cell) (ps : list ptr) : cell :=
  mkCell (cWidth c) (cHeight c) (cX c) (cY c) (cPaneID c) (cSplit c) ps.

Definition size_of (ax : Axis) (c : cell) : Z :=
  match ax with AxisWidth => cWidth c | AxisHeight => cHeight c end.

Definition pos_of (ax : Axis) (c : cell) : Z :=
  match ax with AxisWidth => cX c | AxisHeight => cY c end.

Definition set_size (ax : Axis) (c : cell) (v : Z) : cell :=
  match ax with
  | AxisWidth => mkCell v (cHeight c) (cX c) (cY c) (cPaneID c) (cSplit c) (cChildren c)
  | AxisHeight => mkCell (cWidth c) v (cX c) (cY c) (cPaneID c) (cSplit c) (cChildren c)
  end.

Definition set_pos (ax : Axis) (c : cell) (v : Z) : cell :=
  match ax with
  | AxisWidth => mkCell (cWidth c) (cHeight c) v (cY c) (cPaneID c) (cSplit c) (cChildren c)
  | AxisHeight => mkCell (cWidth c) (cHeight c) (cX c) v (cPaneID c) (cSplit c) (cChildren c)
  end.

(** [copyLayoutNode]: [nil] for [nil]; otherwise a new node with the
    fields of the old one, and the copies of its children appended to
    its [Children] one by one. *)
Fixpoint copyLayoutNode (fuel : nat) (h : heap) (p : ptr) : result Panic (heap * ptr) :=
  match fuel with
  | O => OutOfFuel
  | S fuel' =>
    match load h p with
    | None => Ok (h, p)
    | Some node =>
      let '(h, copy_root) := alloc h (with_children node []) in
      '(h, copies) <-
        (fix loop (children : list ptr) (h : heap) : result Panic (heap * list ptr) :=
           match children with
           | [] => Ok (h, [])
           | child :: rest =>
             '(h, copy) <- copyLayoutNode fuel' h child ;;
             '(h, copies) <- loop rest h ;;
             Ok (h, copy :: copies)
           end) (cChildren node) h ;;
      Ok (store h copy_root (with_children node copies), copy_root)
    end
  end.

Fixpoint containsPane (fuel : nat) (h : heap) (p : ptr) (paneID : Z) : result Panic bool :=
  match fuel with
  | O => OutOfFuel
  | S fuel' =>
    node <- deref h p ;;
    if cPaneID node =? paneID then Ok true
    else
      (fix loop (children : list ptr) : result Panic bool :=
         match children with
         | [] => Ok false
         | child :: rest =>
           found <- containsPane fuel' h child paneID ;;
           if found then Ok true else loop rest
         end) (cChildren node)
  end.

Fixpoint find_active (fuel : nat) (h : heap) (i : Z) (children : list ptr) (paneID : Z)
  : result Panic Z :=
  match children with
  | [] => Ok (-1)
  | child :: rest =>
    found <- containsPane fuel h child paneID ;;
    if found then Ok i else find_active fuel h (i + 1) rest paneID
  end.

Fixpoint updateChildSizes (fuel : nat) (ax : Axis) (h : heap) (p : ptr) (v : Z)
  : result Panic heap :=
  match fuel with
  | O => OutOfFuel
  | S fuel' =>
    node <- deref h p ;;
    let h := store h p (set_size ax node v) in
    if SplitType_eqb (cSplit node) (cross_split ax) then
      (fix loop (children : list ptr) (h : heap) : result Panic heap :=
         match children with
         | [] => Ok h
         | child :: rest =>
           h <- updateChildSizes fuel' ax h child v ;;
           loop rest h
         end) (cChildren node) h
    else Ok h
  end.

(** The sizes of the children, as the loops read them. *)
Fixpoint load_sizes (ax : Axis) (h : heap) (children : list ptr) : result Panic (list Z) :=
  match children with
  | [] => Ok []
  | child :: rest =>
    c <- deref h child ;;
    sizes <- load_sizes ax h rest ;;
    Ok (size_of ax c :: sizes)
  end.

Fixpoint sum_other (i activeIdx : Z) (sizes : list Z) (other : Z) : Z :=
  match sizes with
  | [] => other
  | v :: vs =>
    sum_other (i + 1) activeIdx vs (if i =? activeIdx then other else GoInt.add other v)
  end.

Fixpoint new_sizes (i activeIdx target other remaining n : Z) (sizes : list Z) : list Z :=
  match sizes with
  | [] => []
  | v :: vs =>
    (if i =? activeIdx then target
     else if 0 <? other then GoInt.div (GoInt.mul v remaining) other
     else GoInt.div remaining (GoInt.sub n 1))
    :: new_sizes (i + 1) activeIdx target other remaining n vs
  end.

Fixpoint place_children (fuel : nat) (ax : Axis) (h : heap) (children : list ptr)
         (sizes : list Z) (current : Z) : result Panic heap :=
  match children, sizes with
  | child :: cs, v :: vs =>
    c <- deref h child ;;
    let h := store h child (set_pos ax (set_size ax c v) current) in
    h <- updateChildSizes fuel ax h child v ;;
    place_children fuel ax h cs vs (GoInt.add current (GoInt.add v 1))
  | _, _ => Ok h
  end.

Definition applyAxisZoom (fuel : nat) (ax : Axis) (h : heap) (p : ptr)
           (activeIdx zoomPercent : Z) : result Panic heap :=
  node <- deref h p ;;
  let children := cChildren node in
  if GoInt.len children <=? 1 then Ok h
  else
    let borders := GoInt.sub (GoInt.len children) 1 in
    let available := GoInt.sub (size_of ax node) borders in
    let target := GoInt.div (GoInt.mul available zoomPercent) 100 in
    sizes <- load_sizes ax h children ;;
    let other := sum_other 0 activeIdx sizes 0 in
    let remaining := GoInt.sub available target in
    let newSizes := new_sizes 0 activeIdx target other remaining
                              (GoInt.len children) sizes in
    let used := sum_sizes newSizes in
    newSizes <- (if negb (used =? available)
                 then add_at newSizes activeIdx (GoInt.sub available used)
                 else Ok newSizes) ;;
    place_children fuel ax h children newSizes (pos_of ax node).

(** [ApplyZoomToLayout] on the heap: the pointer it returns and the
    heap it leaves. *)
Definition ApplyZoomToLayout (fuel : nat) (h : heap) (p : ptr)
           (activePaneID zoomPercent : Z) : result Panic (heap * ptr) :=
  '(h, root) <- copyLayoutNode fuel h p ;;
  node <- deref h root ;;
  activeChildIdx <- find_active fuel h 0 (cChildren node) activePaneID ;;
  if activeChildIdx =? -1 then Ok (h, root)
  else
    match cSplit node with
    | SplitHorizontal =>
      h <- applyAxisZoom fuel AxisWidth h root activeChildIdx zoomPercent ;;
      Ok (h, root)
    | SplitVertical =>
      h <- applyAxisZoom fuel AxisHeight h root activeChildIdx zoomPercent ;;
      Ok (h, root)
    | SplitNone => Ok (h, root)
    end.

(** The tree [t] is laid out at [p], at pointers that satisfy [P]. *)
Fixpoint repr_on (P : ptr -> Prop) (h : heap) (t : LayoutNode) (p : ptr) {struct t} : Prop :=
  match t with
  | mkLayoutNode w ht x y id st cs =>
    P p /\
    exists ps, load h p = Some (mkCell w ht x y id st ps) /\
      (fix all (cs : list LayoutNode) (ps : list ptr) {struct cs} : Prop :=
         match cs, ps with
         | [], [] => True
         | c :: cs', q :: ps' => repr_on P h c q /\ all cs' ps'
         | _, _ => False
         end) cs ps
  end.

Definition repr : heap -> LayoutNode -> ptr -> Prop := repr_on (fun _ => True).

(** Writes the tree into the heap, children after their parent, and
    returns the heap and the pointer to the root. *)
Fixpoint write (h : heap) (t : LayoutNode) : heap * ptr :=
  match t with
  | mkLayoutNode w ht x y id st cs =>
    let '(h, p) := alloc h (mkCell w ht x y id st []) in
    let '(h, ps) :=
      (fix loop (cs : list LayoutNode) (h : heap) : heap * list ptr :=
         match cs with
         | [] => (h, [])
         | c :: cs' =>
           let '(h, q) := write h c in
           let '(h, qs) := loop cs' h in
           (h, q :: qs)
         end) cs h in
    (store h p (mkCell w ht x y id st ps), p)
  end.

(** Reads the tree at [p] back from the heap. *)
Fixpoint read (fuel : nat) (h : heap) (p : ptr) : option LayoutNode :=
  match fuel with
  | O => None
  | S fuel' =>
    match load h p with
    | None => None
    | Some c =>
      match (fix loop (ps : list ptr) : option (list LayoutNode) :=
               match ps with
               | [] => Some []
               | q :: ps' =>
                 match read fuel' h q, loop ps' with
                 | Some t, Some ts => Some (t :: ts)
                 | _, _ => None
                 end
               end) (cChildren c) with
      | Some cs =>
        Some (mkLayoutNode (cWidth c) (cHeight c) (cX c) (cY c) (cPaneID c) (cSplit c) cs)
      | None => None
      end
    end
  end.

End Heap.

(** ** ApplyZoom and the host *)

(** [type State struct] of state.go. *)
Record State : Type := mkState {
  Enabled : bool;
  Session : gostring;
  Window : gostring;
  Snapshot : gostring
}.

Fixpoint gostring_eqb (a b : gostring) : bool :=
  match a, b with
  | [], [] => true
  | c :: a', d :: b' => Ascii.eqb c d && gostring_eqb a' b'
  | _, _ => false
  end.

(** What the process does to the world outside it: the two ways tmux.go
    runs tmux ([TmuxCmd] returns the trimmed standard output,
    [TmuxCmdNoOutput] returns only the error), the two writes to the
    state file, and a line in the debug log. *)
Inductive Effect : Type :=
| RunTmux (args : list gostring)
| RunTmuxNoOutput (args : list gostring)
| WriteStateFile (s : State)
| RemoveStateFile
| DebugLine.

Inductive GoError : Type :=
| ExecError (e : Effect)         (* the command or the file operation failed *)
| SyntaxError (s : gostring)     (* strconv.Atoi *)
| LayoutError (e : ParseError).  (* ParseLayout *)

(** A Go result [(value, error)]. *)
Inductive outcome (A : Type) : Type :=
| Val (a : A)
| Fail (e : GoError).
Arguments Val {A} a.
Arguments Fail {A} e.

Section Host.

(** The world outside the process and its answer to an effect: the
    output (empty where there is none) or a failure, and the world
    after it. *)
Variable World : Type.
Variable perform : World -> Effect -> option gostring * World.

(** Computations that act on the world; the effects performed are
    recorded in order. *)
Definition M (A : Type) : Type :=
  World * list Effect -> result Panic A * (World * list Effect).

Definition retM {A} (a : A) : M A := fun st => (Ok a, st).

Definition bindM {A B} (m : M A) (k : A -> M B) : M B :=
  fun st =>
    match m st with
    | (Ok a, st') => k a st'
    | (Err e, st') => (Err e, st')
    | (OutOfFuel, st') => (OutOfFuel, st')
    end.

(** [v, err := f(); if err != nil { return err }; ...] *)
Definition orReturn {A} (m : M (outcome A)) (k : A -> M (option GoError))
  : M (option GoError) :=
  bindM m (fun r => match r with
                    | Val a => k a
                    | Fail e => retM (Some e)
                    end).

Definition effect (e : Effect) : M (option gostring) :=
  fun st => let '(w, trace) := st in
            let '(r, w') := perform w e in
            (Ok r, (w', trace ++ [e])).

Definition liftZoom {A} (r : result Panic A) : M A := fun st => (r, st).

(** tmux.go *)

Definition TmuxCmd (args : list gostring) : M (outcome gostring) :=
  bindM (effect (RunTmux args))
        (fun r => retM (match r with
                        | Some out => Val out
                        | None => Fail (ExecError (RunTmux args))
                        end)).

Definition TmuxCmdNoOutput (args : list gostring) : M (option GoError) :=
  bindM (effect (RunTmuxNoOutput args))
        (fun r => retM (match r with
                        | Some _ => None
                        | None => Some (ExecError (RunTmuxNoOutput args))
                        end)).

Definition display_p (format : string) : list gostring :=
  [str "display-message"; str "-p"; str format].

Definition GetCurrentSession : M (outcome gostring) := TmuxCmd (display_p "#{session_name}").
Definition GetCurrentWindow : M (outcome gostring) := TmuxCmd (display_p "#{window_index}").
Definition GetCurrentPane : M (outcome gostring) := TmuxCmd (display_p "#{pane_id}").
Definition GetWindowLayout : M (outcome gostring) := TmuxCmd (display_p "#{window_layout}").

Definition atoi_outcome (s : gostring) : outcome Z :=
  match Atoi s with
  | Some z => Val z
  | None => Fail (SyntaxError s)
  end.

Definition GetActivePaneID : M (outcome Z) :=
  bindM GetCurrentPane
        (fun r => retM (match r with
                        | Fail e => Fail e
                        | Val paneID =>
                          (* pane_id is in format "%42", strip the % prefix *)
                          let paneID := match paneID with
                                        | c :: rest => if Ascii.eqb c "%"%char then rest else paneID
                                        | [] => paneID
                                        end in
                          atoi_outcome paneID
                        end)).

Definition GetPaneCount : M (outcome Z) :=
  bindM (TmuxCmd (display_p "#{window_panes}"))
        (fun r => retM (match r with
                        | Fail e => Fail e
                        | Val out => atoi_outcome out
                        end)).

Definition SelectLayout (layout : gostring) : M (option GoError) :=
  TmuxCmdNoOutput [str "select-layout"; layout].

Definition DisplayMessage (msg : gostring) : M (option GoError) :=
  TmuxCmdNoOutput [str "display-message"; msg].

Definition GetZoomPercent : M Z :=
  bindM (TmuxCmd [str "show-option"; str "-gqv"; str "@focus-zoom-percent"])
        (fun r => retM (match r with
                        | Fail _ => DefaultZoomPercent
                        | Val [] => DefaultZoomPercent
                        | Val out =>
                          match Atoi out with
                          | None => DefaultZoomPercent
                          | Some percent =>
                            if (percent <? 10) || (95 <? percent) then DefaultZoomPercent
                            else percent
                          end
                        end)).

(** state.go and the debug log *)

Definition SaveState (state : State) : M (option GoError) :=
  bindM (effect (WriteStateFile state))
        (fun r => retM (match r with
                        | Some _ => None
                        | None => Some (ExecError (WriteStateFile state))
                        end)).

Definition ClearState : M (option GoError) :=
  bindM (effect RemoveStateFile)
        (fun r => retM (match r with
                        | Some _ => None
                        | None => Some (ExecError RemoveStateFile)
                        end)).

Definition debugf : M unit := bindM (effect DebugLine) (fun _ => retM tt).

(** [CaptureSnapshot] takes a snapshot of the current layout. *)
Definition CaptureSnapshot : M (outcome State) :=
  bindM GetCurrentSession (fun r1 =>
    match r1 with
    | Fail e => retM (Fail e)
    | Val session =>
      bindM GetCurrentWindow (fun r2 =>
        match r2 with
        | Fail e => retM (Fail e)
        | Val window =>
          bindM GetWindowLayout (fun r3 =>
            match r3 with
            | Fail e => retM (Fail e)
            | Val layout => retM (Val (mkState true session window layout))
            end)
        end)
    end).

(** [RestoreSnapshot] restores the saved layout. *)
Definition RestoreSnapshot (state : State) : M (option GoError) :=
  match Snapshot state with
  | [] => retM None
  | _ => SelectLayout (Snapshot state)
  end.

(** The degraded path, [applyZoomFallback] with [GetPanes],
    [applyProportionalZoom] and the resize commands below it, is not
    described here: it is any computation on the world. *)
Variable applyZoomFallback : State -> Z -> M (option GoError).

(** [layoutTree, err := ParseLayout(..)] *)
Definition parseLayout (layout : gostring) : M (outcome LayoutNode) :=
  fun st =>
    match ParseLayout layout with
    | Ok t => (Ok (Val t), st)
    | Err e => (Ok (Fail (LayoutError e)), st)
    | OutOfFuel => (OutOfFuel, st)
    end.

(** The end of [ApplyZoom], from the tree that is zoomed. *)
Definition zoom_and_select (state : State) (layoutTree : LayoutNode) (activePaneID : Z)
  : M (option GoError) :=
  (* Get configured zoom percentage *)
  bindM GetZoomPercent (fun zoomPercent =>
  (* Apply zoom to the layout tree, then to the nested splits *)
  bindM (liftZoom (zoomTransform layoutTree activePaneID zoomPercent)) (fun zoomedTree =>
  (* Build and apply the new layout *)
  let newLayout := BuildLayout zoomedTree in
  bindM debugf (fun _ =>
  bindM (SelectLayout newLayout) (fun err =>
    match err with
    | Some e =>
      bindM debugf (fun _ =>
      (* Fall back to restoring snapshot *)
      bindM (RestoreSnapshot state) (fun _ => retM (Some e)))
    | None => retM None
    end)))).

(** [ApplyZoom] restores snapshot and enlarges the focused pane
    proportionally.  The write [state.Snapshot = newState.Snapshot]
    through the pointer it is given is kept local: none of its callers
    reads the state after the call. *)
Definition ApplyZoom (state : State) : M (option GoError) :=
  (* Check pane count - skip if only 1 pane *)
  orReturn GetPaneCount (fun paneCount =>
  if paneCount <=? 1 then retM None
  else
    (* Check if we're in the same session/window as the snapshot *)
    orReturn GetCurrentSession (fun session =>
    orReturn GetCurrentWindow (fun window =>
    (* Different window - don't apply zoom *)
    if negb (gostring_eqb session (Session state))
       || negb (gostring_eqb window (Window state))
    then retM None
    else
      (* Get active pane ID before restoring snapshot *)
      orReturn GetActivePaneID (fun activePaneID =>
      bindM debugf (fun _ =>
      (* Parse the snapshot layout *)
      bindM (parseLayout (Snapshot state)) (fun parsed =>
      match parsed with
      | Fail _ =>
        bindM debugf (fun _ =>
        (* Fall back to old approach *)
        bindM (RestoreSnapshot state) (fun err =>
          match err with
          | Some e =>
            bindM ClearState (fun _ =>
            bindM (DisplayMessage (str "Focus zoom: disabled (layout changed)")) (fun _ =>
            retM (Some e)))
          | None => applyZoomFallback state activePaneID
          end))
      | Val layoutTree =>
        (* Check if pane count has changed (pane was closed or opened) *)
        let snapshotPaneCount := countPanes layoutTree in
        if negb (snapshotPaneCount =? paneCount) then
          bindM debugf (fun _ =>
          (* Capture fresh snapshot with current layout *)
          bindM CaptureSnapshot (fun r =>
            match r with
            | Fail e => bindM debugf (fun _ => retM (Some e))
            | Val newState =>
              (* Save the updated state *)
              bindM (SaveState newState) (fun err =>
                match err with
                | Some e => bindM debugf (fun _ => retM (Some e))
                | None =>
                  (* Update our working state and re-parse *)
                  let state := mkState (Enabled state) (Session state) (Window state)
                                       (Snapshot newState) in
                  bindM (parseLayout (Snapshot state)) (fun parsed =>
                  match parsed with
                  | Fail e => bindM debugf (fun _ => retM (Some e))
                  | Val layoutTree => zoom_and_select state layoutTree activePaneID
                  end)
                end)
            end))
        else zoom_and_select state layoutTree activePaneID
      end)))))).

(** An effect that does not change the layout or the state file: a
    [display-message -p] query. *)
Definition is_query (e : Effect) : bool :=
  match e with
  | RunTmux (cmd :: flag :: _) =>
    gostring_eqb cmd (str "display-message") && gostring_eqb flag (str "-p")
  | _ => false
  end.

End Host.

(** A host that answers the pane count, the session name and the window
    index with fixed texts, every other command with an empty output, and
    has no state of its own. *)
Definition fixed_host (panes session window : string) (w : unit) (e : Effect)
  : option gostring * unit :=
  match e with
  | RunTmux [_; _; format] =>
    if gostring_eqb format (str "#{window_panes}") then (Some (str panes), w)
    else if gostring_eqb format (str "#{session_name}") then (Some (str session), w)
    else if gostring_eqb format (str "#{window_index}") then (Some (str window), w)
    else (Some [], w)
  | _ => (Some [], w)
  end.

(** ** Bracket matching *)

(** Every split-open bracket of the text is closed by its own closing
    bracket, properly nested: the expected closers are kept on a stack. *)
Fixpoint brackets_matched_from (stack : list ascii) (s : gostring) : bool :=
  match s with
  | [] => match stack with [] => true | _ => false end
  | c :: s' =>
    if Ascii.eqb c "{"%char then brackets_matched_from ("}"%char :: stack) s'
    else if Ascii.eqb c "["%char then brackets_matched_from ("]"%char :: stack) s'
    else if Ascii.eqb c "}"%char || Ascii.eqb c "]"%char then
      match stack with
      | e :: stack' => Ascii.eqb c e && brackets_matched_from stack' s'
      | [] => false
      end
    else brackets_matched_from stack s'
  end.

Definition brackets_matched (s : gostring) : bool := brackets_matched_from [] s.

(** ** The size invariant of the data model *)

Definition sum_Z (l : list Z) : Z := fold_right Z.add 0 l.

(** For a split node the sizes of the children along the split axis and
    one border cell per gap make up the size of the node. *)
Definition conserved_here (node : LayoutNode) : bool :=
  match splitType node with
  | SplitNone => true
  | SplitHorizontal =>
    sum_Z (map Width (Children node)) + (GoInt.len (Children node) - 1) =? Width node
  | SplitVertical =>
    sum_Z (map Height (Children node)) + (GoInt.len (Children node) - 1) =? Height node
  end.

(** The same at every depth. *)
Fixpoint conserved (node : LayoutNode) : bool :=
  match node with
  | mkLayoutNode w h x y id st cs =>
    conserved_here (mkLayoutNode w h x y id st cs) && forallb conserved cs
  end.

(** ** Layouts used in the statements below *)

Definition leaf (w h x y id : Z) : LayoutNode := mkLayoutNode w h x y id SplitNone [].
Definition hsplit (w h x y : Z) (cs : list LayoutNode) : LayoutNode :=
  mkLayoutNode w h x y (-1) SplitHorizontal cs.
Definition vsplit (w h x y : Z) (cs : list LayoutNode) : LayoutNode :=
  mkLayoutNode w h x y (-1) SplitVertical cs.

(** The window of the test suite: three columns, the first split in two
    rows. *)
Definition layout_three_columns : gostring :=
  str "b2d9,255x61,0,0{84x61,0,0[84x30,0,0,26,84x30,0,31,41],85x61,85,0,36,84x61,171,0,42}".

Definition tree_three_columns : LayoutNode :=
  hsplit 255 61 0 0
    [ vsplit 84 61 0 0 [ leaf 84 30 0 0 26; leaf 84 30 0 31 41 ];
      leaf 85 61 85 0 36;
      leaf 84 61 171 0 42 ].

(** Two columns; the lower row of the first column is itself split in
    two columns. *)
Definition layout_nested_columns : gostring :=
  str "0000,201x61,0,0{100x61,0,0[100x30,0,0,1,100x30,0,31{50x30,0,31,2,49x30,51,31,3}],100x61,101,0,4}".

Definition tree_nested_columns : LayoutNode :=
  hsplit 201 61 0 0
    [ vsplit 100 61 0 0
        [ leaf 100 30 0 0 1;
          hsplit 100 30 0 31 [ leaf 50 30 0 31 2; leaf 49 30 51 31 3 ] ];
      leaf 100 61 101 0 4 ].

(** Three columns, the middle one much wider than the others. *)
Definition layout_wide_middle : gostring :=
  str "0000,200x50,0,0{20x50,0,0,1,158x50,21,0,2,20x50,180,0,3}".

Definition tree_wide_middle : LayoutNode :=
  hsplit 200 50 0 0 [ leaf 20 50 0 0 1; leaf 158 50 21 0 2; leaf 20 50 180 0 3 ].

(** A children list that is never closed. *)
Definition layout_unclosed : gostring := str "c0de,10x10,0,0{5x10,0,0,1".

Definition tree_unclosed : LayoutNode := hsplit 10 10 0 0 [ leaf 5 10 0 0 1 ].

(** A pane whose numerals carry a sign and leading zeros, and a pane
    whose text goes on after it. *)
Definition layout_padded_numerals : gostring := str "c0de,+010x0010,-0,00,07".

Definition layout_trailing_text : gostring := str "9ea4,10x10,0,0,7,8x8,0,0,9".

(* ================================================================== *)
(** * Notions used in the statements and in the proofs *)

(** ** Induction over layout trees *)

Section LayoutNode_induction.
Variable P : LayoutNode -> Prop.
Hypothesis step : forall w h x y id st cs,
    Forall P cs -> P (mkLayoutNode w h x y id st cs).

Fixpoint LayoutNode_ind' (t : LayoutNode) : P t :=
  match t with
  | mkLayoutNode w h x y id st cs =>
    step w h x y id st cs
         ((fix all (l : list LayoutNode) : Forall P l :=
             match l with
             | [] => Forall_nil P
             | c :: l' => Forall_cons c (LayoutNode_ind' c) (all l')
             end) cs)
  end.
End LayoutNode_induction.

(** The tree without its geometry: pane ids, split types and the shape
    are kept, sizes and positions are erased. *)
Fixpoint shape (t : LayoutNode) : LayoutNode :=
  match t with
  | mkLayoutNode _ _ _ _ id st cs => mkLayoutNode 0 0 0 0 id st (map shape cs)
  end.

(** The text of a layout after its checksum field: what follows the
    first comma, which is what [ParseLayout] reads. *)
Definition layout_body (layout : gostring) : option gostring :=
  option_map (fun idx => skipn (idx + 1) layout) (strings_Index ","%char layout).

(** The geometry of a node itself. *)
Definition frame (t : LayoutNode) : Z * Z * Z * Z := (Width t, Height t, X t, Y t).

Definition frame_size (ax : Axis) (f : Z * Z * Z * Z) : Z :=
  match f, ax with
  | (w, _, _, _), AxisWidth => w
  | (_, h, _, _), AxisHeight => h
  end.

(** ** Numerals and fields of the layout text *)

(** The characters of a decimal numeral: digits and the minus sign. *)
Definition is_num_char (c : ascii) : bool := is_digit c || Ascii.eqb c "-"%char.

(** [r] is empty or starts with a byte at which the scan stops. *)
Definition starts_with (stop : ascii -> bool) (r : gostring) : Prop :=
  match r with
  | [] => True
  | d :: _ => stop d = true
  end.

(** The field [f] holds no byte [c]. *)
Definition free_of (c : ascii) (f : gostring) : Prop :=
  Forall (fun d => Ascii.eqb d c = false) f.

(** The field [f] holds no stop byte. *)
Definition stop_free (stop : ascii -> bool) (f : gostring) : Prop :=
  Forall (fun d => stop d = false) f.

(** The trees the parser can return are well formed, with every integer
    field in the range of [int]. *)
Definition canon (t : LayoutNode) : Prop :=
  well_formed t = true /\ ints_in_range t = true.

(** The text of a node, as the four numerals of its header and what
    follows them. *)
Definition node_tail (t : LayoutNode) (rest : gostring) : gostring :=
  match splitType t with
  | SplitNone => ","%char :: itoa (PaneID t) ++ rest
  | SplitHorizontal =>
    "{"%char :: strings_Join (map buildNodeString (Children t)) (str ",") ++ "}"%char :: rest
  | SplitVertical =>
    "["%char :: strings_Join (map buildNodeString (Children t)) (str ",") ++ "]"%char :: rest
  end.

(** What [parseNode] does after the four numerals of the header. *)
Definition after_header (fuel : nat) (w h x y : Z) (tl : gostring)
  : result ParseError (LayoutNode * gostring) :=
  let node st id cs := mkLayoutNode w h x y id st cs in
  match tl with
  | [] => Ok (node SplitNone (-1) [], [])
  | c :: s1 =>
    if Ascii.eqb c "{"%char then
      '(children, rest) <- parseChildren fuel s1 "}"%char ;;
      Ok (node SplitHorizontal (-1) children, rest)
    else if Ascii.eqb c "["%char then
      '(children, rest) <- parseChildren fuel s1 "]"%char ;;
      Ok (node SplitVertical (-1) children, rest)
    else if Ascii.eqb c ","%char then
      let endIdx := scan_until is_id_stop s1 in
      paneID <- orErr InvalidPaneID (Atoi (firstn endIdx s1)) ;;
      Ok (node SplitNone paneID [], skipn endIdx s1)
    else if Ascii.eqb c "}"%char || Ascii.eqb c "]"%char then
      Ok (node SplitNone (-1) [], tl)
    else Err (UnexpectedCharacter c)
  end.

(** ** Shares of the distribution loop *)

(** The size the distribution loop gives to a child other than the
    active one. *)
Definition go_share (ax : Axis) (other remaining n : Z) (c : LayoutNode) : Z :=
  if 0 <? other then GoInt.div (GoInt.mul (size_of ax c) remaining) other
  else GoInt.div remaining (GoInt.sub n 1).

(** The share of a sibling without the machine arithmetic. *)
Definition math_share (ax : Axis) (W remaining n : Z) (c : LayoutNode) : Z :=
  if 0 <? W then size_of ax c * remaining / W else remaining / (n - 1).

(* ================================================================== *)
(** * Notions used in the further properties *)

(** The other axis. *)
Definition cross_axis (ax : Axis) : Axis :=
  match ax with AxisWidth => AxisHeight | AxisHeight => AxisWidth end.

(** The tree without its sizes and offsets along one axis: what is left
    is the structure and the geometry along the other axis. *)
Fixpoint erase_axis (ax : Axis) (t : LayoutNode) : LayoutNode :=
  match t with
  | mkLayoutNode w h x y id st cs =>
    match ax with
    | AxisWidth => mkLayoutNode 0 h 0 y id st (map (erase_axis ax) cs)
    | AxisHeight => mkLayoutNode w 0 x 0 id st (map (erase_axis ax) cs)
    end
  end.

(** The tree without its sizes: the structure and the offsets. *)
Fixpoint erase_sizes (t : LayoutNode) : LayoutNode :=
  match t with
  | mkLayoutNode _ _ x y id st cs => mkLayoutNode 0 0 x y id st (map erase_sizes cs)
  end.

(** The children lie side by side along the axis from [current] on: each
    starts where the one before it ends, one border cell apart, in Go's
    arithmetic. *)
Fixpoint contiguous (ax : Axis) (current : Z) (children : list LayoutNode) : Prop :=
  match children with
  | [] => True
  | child :: cs =>
    pos_of ax child = current
    /\ contiguous ax (GoInt.add current (GoInt.add (size_of ax child) 1)) cs
  end.

(** Window-sized geometry: every width and height of the tree between 0
    and 2^31. *)
Fixpoint sizes_bounded (t : LayoutNode) : bool :=
  match t with
  | mkLayoutNode w h _ _ _ _ cs =>
    (0 <=? w) && (w <=? 2 ^ 31) && (0 <=? h) && (h <=? 2 ^ 31)
    && forallb sizes_bounded cs
  end.

(** A layout of at most two levels of splits: the root is split along
    the axis, and each of its children is a pane or a split across the
    axis whose children are panes. *)
Definition is_pane (t : LayoutNode) : bool :=
  SplitType_eqb (splitType t) SplitNone.

Definition two_level (ax : Axis) (t : LayoutNode) : bool :=
  SplitType_eqb (splitType t) (along_split ax)
  && forallb (fun c => is_pane c
                       || (SplitType_eqb (splitType c) (cross_split ax)
                           && forallb is_pane (Children c)))
             (Children t).

(* ================================================================== *)
(** * The degraded path: resizing panes *)

(** ** tmux.go: the pane list and the window size *)

(** [strings.Split(s, sep)] for a one-byte separator: the pieces between
    the separators, one piece more than there are separators. *)
Fixpoint strings_Split (s : gostring) (sep : ascii) : list gostring :=
  match s with
  | [] => [[]]
  | c :: s' =>
    if Ascii.eqb c sep then [] :: strings_Split s' sep
    else match strings_Split s' sep with
         | part :: parts => (c :: part) :: parts
         | [] => [[c]]
         end
  end.

(** The digit loop of [strconv.ParseUint] in base 10 at 64 bits: it stops
    with a syntax error at the first byte that is not a digit, and with a
    range error at the first digit that takes the value beyond 2^64 - 1,
    whatever follows it. *)
Inductive uint_result : Type :=
| UintOk (n : Z)
| UintSyntax
| UintRange.

Fixpoint ParseUint_loop (n : Z) (s : gostring) : uint_result :=
  match s with
  | [] => UintOk n
  | d :: s' =>
    if is_digit d then
      let n1 := n * 10 + (byte_val d - 48) in
      if 2 ^ 64 <=? n1 then UintRange else ParseUint_loop n1 s'
    else UintSyntax
  end.

(** The integer [strconv.Atoi] returns, beside its error where there is
    one: the value of the numeral, 0 after a syntax error, and the
    nearest bound of [int] after a range error.  [GetPanes] and
    [cmdToggle] drop the error and go on with this integer. *)
Definition Atoi_value (s : gostring) : Z :=
  let neg := match s with c :: _ => Ascii.eqb c "-"%char | [] => false end in
  let ds := match s with
            | c :: r => if Ascii.eqb c "-"%char || Ascii.eqb c "+"%char then r else s
            | [] => s
            end in
  match ds with
  | [] => 0
  | _ => match ParseUint_loop 0 ds with
         | UintSyntax => 0
         | UintRange => if neg then GoInt.min_int else GoInt.max_int
         | UintOk n =>
           if neg then (if 2 ^ 63 <? n then GoInt.min_int else - n)
           else (if 2 ^ 63 <=? n then GoInt.max_int else n)
         end
  end.

Definition newline : ascii := ascii_of_N 10.

(** [type PaneInfo struct] *)
Module PaneInfo.
Record t : Type := mk {
  ID : gostring;
  Index : Z;
  Width : Z;
  Height : Z;
  Left : Z;
  Top : Z;
  Active : bool
}.
End PaneInfo.

(** The body of the loop of [GetPanes] on one line of the output: an
    empty line and a line that does not have seven fields are passed
    over; the errors of [strconv.Atoi] are dropped. *)
Definition pane_of_line (line : gostring) : option PaneInfo.t :=
  match line with
  | [] => None
  | _ =>
    match strings_Split line ":"%char with
    | [p0; p1; p2; p3; p4; p5; p6] =>
      Some (PaneInfo.mk p0 (Atoi_value p1) (Atoi_value p2) (Atoi_value p3)
                        (Atoi_value p4) (Atoi_value p5) (gostring_eqb p6 (str "1")))
    | _ => None
    end
  end.

Fixpoint panes_of_lines (lines : list gostring) : list PaneInfo.t :=
  match lines with
  | [] => []
  | line :: rest =>
    match pane_of_line line with
    | Some p => p :: panes_of_lines rest
    | None => panes_of_lines rest
    end
  end.

(** The format [GetPanes] asks tmux for: id:index:width:height:left:top:active *)
Definition list_panes_args : list gostring :=
  [ str "list-panes"; str "-F";
    str "#{pane_id}:#{pane_index}:#{pane_width}:#{pane_height}:#{pane_left}:#{pane_top}:#{pane_active}" ].

(** ** The columns and the rows *)

(** [type column struct { left, width; panes }] and
    [type row struct { top, height; panes }] are one record here, the
    position and the size being those along the axis; [findColumns] and
    [findRowsInColumn], which differ in the fields they read and in
    nothing else, are written once over the axis, as are the two resize
    functions. *)
Record band : Type := mkBand {
  b_pos : Z;
  b_size : Z;
  b_panes : list PaneInfo.t
}.

Definition pane_pos (ax : Axis) (p : PaneInfo.t) : Z :=
  match ax with AxisWidth => PaneInfo.Left p | AxisHeight => PaneInfo.Top p end.

Definition pane_size (ax : Axis) (p : PaneInfo.t) : Z :=
  match ax with AxisWidth => PaneInfo.Width p | AxisHeight => PaneInfo.Height p end.

(** The body of the first loop: where the map has an entry at the
    position of the pane, the pane is appended to it and the size raised
    to that of the pane if that is larger; where it has none, a new entry
    is made.  The map is the list of its entries, by order of entry. *)
Fixpoint map_add (ax : Axis) (m : list band) (p : PaneInfo.t) : list band :=
  match m with
  | [] => [mkBand (pane_pos ax p) (pane_size ax p) [p]]
  | b :: m' =>
    if b_pos b =? pane_pos ax p then
      mkBand (b_pos b)
             (if b_size b <? pane_size ax p then pane_size ax p else b_size b)
             (b_panes b ++ [p]) :: m'
    else b :: map_add ax m' p
  end.

(** [sort.Slice(cols, func(i, j) { return cols[i].left < cols[j].left })].
    The positions of the entries of a map are distinct, so there is one
    sorted order, in whatever order the map is iterated and whichever
    sorting algorithm runs; it is computed by insertion. *)
Fixpoint insert_band (b : band) (l : list band) : list band :=
  match l with
  | [] => [b]
  | c :: l' => if b_pos b <? b_pos c then b :: l else c :: insert_band b l'
  end.

Definition sort_bands (l : list band) : list band := fold_right insert_band [] l.

Definition find_bands (ax : Axis) (panes : list PaneInfo.t) : list band :=
  sort_bands (fold_left (map_add ax) panes []).

(** [findColumns] groups panes by their left position (column). *)
Definition findColumns : list PaneInfo.t -> list band := find_bands AxisWidth.

(** [findRowsInColumn] groups panes within a single column by their top
    position. *)
Definition findRowsInColumn : list PaneInfo.t -> list band := find_bands AxisHeight.

(** [idx := -1; for i, b := range bands { if b.pos == key { idx = i; found = &bands[i]; break } }] *)
Fixpoint find_band (key : Z) (i : Z) (bands : list band) : Z * option band :=
  match bands with
  | [] => (-1, None)
  | b :: rest => if b_pos b =? key then (i, Some b) else find_band key (i + 1) rest
  end.

(** [l[i]]; an index outside the slice panics. *)
Definition index_at {A} (l : list A) (i : Z) : result Panic A :=
  if (0 <=? i) && (i <? GoInt.len l) then
    match nth_error l (Z.to_nat i) with
    | Some a => Ok a
    | None => Err IndexOutOfRange
    end
  else Err IndexOutOfRange.

(** The effects that resize a pane. *)
Definition axis_flag (ax : Axis) : gostring :=
  match ax with AxisWidth => str "-x" | AxisHeight => str "-y" end.

Definition resize_command (ax : Axis) (paneID : gostring) (size : Z) : Effect :=
  RunTmuxNoOutput [str "resize-pane"; str "-t"; paneID; axis_flag ax; itoa size].

Definition is_resize (e : Effect) : bool :=
  match e with
  | RunTmuxNoOutput (cmd :: _) => gostring_eqb cmd (str "resize-pane")
  | _ => false
  end.

Section Fallback.

Variable World : Type.
Variable perform : World -> Effect -> option gostring * World.

Local Notation M := (M World).
Local Notation retM := (retM World).
Local Notation bindM := (bindM World).
Local Notation orReturn := (orReturn World).
Local Notation liftZoom := (liftZoom World).
Local Notation TmuxCmd := (TmuxCmd World perform).
Local Notation TmuxCmdNoOutput := (TmuxCmdNoOutput World perform).
Local Notation GetZoomPercent := (GetZoomPercent World perform).
Local Notation debugf := (debugf World perform).

(** [GetWindowSize] returns window width and height. *)
Definition GetWindowSize : M (outcome (Z * Z)) :=
  bindM (TmuxCmd (display_p "#{window_width}")) (fun r1 =>
    match r1 with
    | Fail e => retM (Fail e)
    | Val w =>
      bindM (TmuxCmd (display_p "#{window_height}")) (fun r2 =>
        retM (match r2 with
              | Fail e => Fail e
              | Val h =>
                match atoi_outcome w with
                | Fail e => Fail e
                | Val width =>
                  match atoi_outcome h with
                  | Fail e => Fail e
                  | Val height => Val (width, height)
                  end
                end
              end))
    end).

(** [GetPanes] returns info about all panes in current window. *)
Definition GetPanes : M (outcome (list PaneInfo.t)) :=
  bindM (TmuxCmd list_panes_args)
        (fun r => retM (match r with
                        | Fail e => Fail e
                        | Val out => Val (panes_of_lines (strings_Split out newline))
                        end)).

(** [ResizePaneWidth] / [ResizePaneHeight]: resize a pane along one axis
    only. *)
Definition ResizePaneAlong (ax : Axis) (paneID : gostring) (size : Z) : M (option GoError) :=
  bindM debugf (fun _ =>
  TmuxCmdNoOutput [str "resize-pane"; str "-t"; paneID; axis_flag ax; itoa size]).

Definition ResizePaneWidth : gostring -> Z -> M (option GoError) := ResizePaneAlong AxisWidth.
Definition ResizePaneHeight : gostring -> Z -> M (option GoError) := ResizePaneAlong AxisHeight.

(** [for _, x := range l { body }] *)
Fixpoint for_each {A} (l : list A) (body : A -> M unit) : M unit :=
  match l with
  | [] => retM tt
  | a :: l' => bindM (body a) (fun _ => for_each l' body)
  end.

(** [resizeColumnsProportionally] / [resizeRowsProportionally]: grow the
    active column or row; tmux handles shrinking the others.  The slice
    of all panes and the size of the window, which the functions are
    given and do not read, are left out. *)
Definition resizeBandsProportionally (ax : Axis) (bands : list band)
           (activeIdx target : Z) : M unit :=
  bindM debugf (fun _ =>
  bindM debugf (fun _ =>
  if GoInt.len bands <=? 1 then
    (* Only 1 column, skipping *)
    debugf
  else
    (* Only resize the active band - tmux will redistribute space from neighbors *)
    bindM (liftZoom (index_at bands activeIdx)) (fun active =>
    match b_panes active with
    | p :: _ =>
      bindM debugf (fun _ =>
      bindM (ResizePaneAlong ax (PaneInfo.ID p) target) (fun _ => retM tt))
    | [] => retM tt
    end))).

Definition resizeColumnsProportionally : list band -> Z -> Z -> M unit :=
  resizeBandsProportionally AxisWidth.
Definition resizeRowsProportionally : list band -> Z -> Z -> M unit :=
  resizeBandsProportionally AxisHeight.

(** [applyProportionalZoom] resizes all panes so focused gets
    zoomPercent, others shrink proportionally. *)
Definition applyProportionalZoom (panes : list PaneInfo.t) (active : PaneInfo.t)
           (winWidth winHeight zoomPercent : Z) : M unit :=
  bindM debugf (fun _ =>
  bindM debugf (fun _ =>
  bindM debugf (fun _ =>
  (* Find unique columns (by left position) and their widths *)
  let columns := findColumns panes in
  bindM debugf (fun _ =>
  bindM (for_each columns (fun _ => debugf)) (fun _ =>
  (* Calculate target width for focused pane's column *)
  let targetWidth := GoInt.div (GoInt.mul winWidth zoomPercent) 100 in
  bindM debugf (fun _ =>
  (* Find which column the active pane is in *)
  let '(activeColIdx, activeColumn) := find_band (PaneInfo.Left active) 0 columns in
  bindM debugf (fun _ =>
  (* Resize columns proportionally (always do this if multiple columns) *)
  bindM (if (1 <? GoInt.len columns) && (0 <=? activeColIdx)
         then resizeColumnsProportionally columns activeColIdx targetWidth
         else retM tt) (fun _ =>
  (* Only do row resizing if there are multiple panes in the active column *)
  match activeColumn with
  | Some column =>
    if 1 <? GoInt.len (b_panes column) then
      (* Find rows ONLY within the active column *)
      let rows := findRowsInColumn (b_panes column) in
      (* Find which row the active pane is in *)
      let activeRowIdx := fst (find_band (PaneInfo.Top active) 0 rows) in
      (* Get the column's total height *)
      let colHeight :=
          fold_left (fun h p => GoInt.add h (PaneInfo.Height p)) (b_panes column) 0 in
      (* Add borders between rows *)
      let colHeight := GoInt.add colHeight (GoInt.sub (GoInt.len rows) 1) in
      let targetHeight := GoInt.div (GoInt.mul colHeight zoomPercent) 100 in
      if (1 <? GoInt.len rows) && (0 <=? activeRowIdx)
      then resizeRowsProportionally rows activeRowIdx targetHeight
      else retM tt
    else retM tt
  | None => retM tt
  end)))))))).

(** [applyZoomFallback] uses the old resize-pane approach as a
    fallback. *)
Definition applyZoomFallback (state : State) (activePaneID : Z) : M (option GoError) :=
  bindM debugf (fun _ =>
  orReturn GetPanes (fun panes =>
  orReturn GetWindowSize (fun size =>
  let '(winWidth, winHeight) := size in
  (* Find active pane *)
  match find PaneInfo.Active panes with
  | None => retM None
  | Some activePane =>
    (* Apply old proportional zoom logic *)
    bindM GetZoomPercent (fun zoomPercent =>
    bindM (applyProportionalZoom panes activePane winWidth winHeight zoomPercent) (fun _ =>
    retM None))
  end))).

End Fallback.

(** ** What the columns and the rows are *)

(** The bands group the panes by position along the axis: they come in
    strictly increasing order of position; every pane is in the band at
    its position; and each band holds all the panes at its position, in
    the order of the pane list, is not empty, and has the size of its
    largest pane. *)
Definition groups_by (ax : Axis) (panes : list PaneInfo.t) (bands : list band) : Prop :=
  StronglySorted (fun a b => b_pos a < b_pos b) bands
  /\ (forall p, In p panes -> exists b, In b bands /\ b_pos b = pane_pos ax p)
  /\ Forall (fun b =>
               b_panes b = filter (fun p => pane_pos ax p =? b_pos b) panes
               /\ b_panes b <> []
               /\ Forall (fun p => pane_size ax p <= b_size b) (b_panes b)
               /\ Exists (fun p => pane_size ax p = b_size b) (b_panes b))
            bands.

(** ** The lines of [list-panes] *)

(** A line as tmux writes it for the format of [GetPanes]:
    id:index:width:height:left:top:active. *)
Definition pane_line (p : PaneInfo.t) : gostring :=
  strings_Join
    [ PaneInfo.ID p; itoa (PaneInfo.Index p); itoa (PaneInfo.Width p);
      itoa (PaneInfo.Height p); itoa (PaneInfo.Left p); itoa (PaneInfo.Top p);
      if PaneInfo.Active p then str "1" else str "0" ]
    (str ":").

(** The id holds no colon and no line break, and the integers are values
    of Go's [int]. *)
Definition pane_printable (p : PaneInfo.t) : bool :=
  forallb (fun d => negb (Ascii.eqb d ":"%char) && negb (Ascii.eqb d newline)) (PaneInfo.ID p)
  && GoInt.in_range (PaneInfo.Index p)
  && GoInt.in_range (PaneInfo.Width p) && GoInt.in_range (PaneInfo.Height p)
  && GoInt.in_range (PaneInfo.Left p) && GoInt.in_range (PaneInfo.Top p).


(** ** What the degraded path does to the window *)

(** The effects of the degraded path: [applyProportionalZoom] writes to
    the debug log and resizes panes; [applyZoomFallback] also runs
    commands whose output it reads. *)
Definition debug_or_resize (e : Effect) : Prop :=
  e = DebugLine \/ is_resize e = true.

Definition quiet_or_resize (e : Effect) : Prop :=
  (exists args, e = RunTmux args) \/ debug_or_resize e.

(** The computation returns normally from every state of the world,
    every effect it performs is [allowed], and its result and the
    [resize-pane] commands among its effects, in order, satisfy [P]. *)
Definition yields {World A} (allowed : Effect -> Prop) (m : M World A)
           (P : A -> list Effect -> Prop) : Prop :=
  forall w trace,
    exists a w' es,
      m (w, trace) = (Ok a, (w', trace ++ es))
      /\ Forall allowed es
      /\ P a (filter is_resize es).

(** There is a pane at another position along the axis than [active]. *)
Definition several (ax : Axis) (panes : list PaneInfo.t) (active : PaneInfo.t) : bool :=
  existsb (fun q => negb (pane_pos ax q =? pane_pos ax active)) panes.

(** A host without a state of its own, which answers by a table. *)
Definition table_host (answer : Effect -> option gostring) (w : unit) (e : Effect)
  : option gostring * unit := (answer e, w).

(** The computation returns normally from every state of the world: it
    does not panic, and it does not exhaust a recursion budget. *)
Definition returns {World A} (m : M World A) : Prop :=
  forall w trace, exists a w' es, m (w, trace) = (Ok a, (w', trace ++ es)).

(** ** Panes used in the statements below *)

(** The window of the test suite as [list-panes] shows it: two panes in
    the first column, then two columns of one pane. *)
Definition makeTestPanes : list PaneInfo.t :=
  [ PaneInfo.mk (str "%1") 1 84 30 0 0 false;
    PaneInfo.mk (str "%2") 2 84 30 0 31 false;
    PaneInfo.mk (str "%3") 3 85 61 85 0 false;
    PaneInfo.mk (str "%4") 4 84 61 171 0 false ].

(** ** Brackets *)

Definition is_bracket (c : ascii) : bool :=
  Ascii.eqb c "{"%char || Ascii.eqb c "["%char || Ascii.eqb c "}"%char || Ascii.eqb c "]"%char.


(* ================================================================== *)
(** * Properties *)

(** ** The result monad *)

Lemma bind_Ok_inv {E A B} (r : result E A) (k : A -> result E B) (b : B) :
  bind r k = Ok b -> exists a, r = Ok a /\ k a = Ok b.
Proof. destruct r; simpl; intros H; try discriminate. eauto. Qed.

Lemma orErr_Ok_inv {E A} (e : E) (o : option A) (a : A) :
  orErr e o = Ok a -> o = Some a.
Proof. destruct o; simpl; congruence. Qed.

Lemma orErr_not_fuel {E A} (e : E) (o : option A) : orErr e o <> OutOfFuel.
Proof. destruct o; discriminate. Qed.

(** Peels the successful prefix of a computation in the result monad. *)
Ltac inv_bind H :=
  repeat match type of H with
  | bind (orErr _ _) _ = Ok _ =>
      let a := fresh "v" in let H1 := fresh "Hv" in
      apply bind_Ok_inv in H; destruct H as (a & H1 & H);
      apply orErr_Ok_inv in H1
  | bind _ _ = Ok _ =>
      let a := fresh "v" in let H1 := fresh "Hv" in
      apply bind_Ok_inv in H; destruct H as (a & H1 & H);
      match type of a with
      | (_ * _)%type => destruct a
      | _ => idtac
      end
  end.

(** ** Strings *)

Lemma strings_Index_lt c s i : strings_Index c s = Some i -> (i < List.length s)%nat.
Proof.
  revert i; induction s as [|d s IH]; simpl; intros i H; [discriminate|].
  destruct (Ascii.eqb d c).
  - injection H as <-. lia.
  - destruct (strings_Index c s) as [j|]; simpl in H; [|discriminate].
    injection H as <-. specialize (IH j eq_refl). lia.
Qed.

Lemma scan_until_le stop s : (scan_until stop s <= List.length s)%nat.
Proof. induction s as [|d s IH]; simpl; [lia|]. destruct (stop d); lia. Qed.

Lemma skip_comma_le s : (List.length (skip_comma s) <= List.length s)%nat.
Proof. destruct s as [|d s1]; simpl; [lia|]. destruct (Ascii.eqb d ","); simpl; lia. Qed.

(** ** The examples of the test suite *)

Example countPanes_single_pane :
  match ParseLayout (str "1234,100x50,0,0,1") with
  | Ok t => countPanes t
  | _ => -1
  end = 1.
Proof. vm_compute. reflexivity. Qed.

Example countPanes_two_panes :
  match ParseLayout (str "1234,199x53,0,0{99x53,0,0,1,99x53,100,0,2}") with
  | Ok t => countPanes t
  | _ => -1
  end = 2.
Proof. vm_compute. reflexivity. Qed.

Example countPanes_four_panes : countPanes tree_three_columns = 4.
Proof. vm_compute. reflexivity. Qed.

Example BuildLayout_three_columns : BuildLayout tree_three_columns = layout_three_columns.
Proof. vm_compute. reflexivity. Qed.

Example Atoi_examples :
  (Atoi (str "+012"), Atoi (str "-"), Atoi (str "1_0"),
   Atoi (str "9223372036854775808"), Atoi (str "-9223372036854775808"))
  = (Some 12, None, None, None, Some (-9223372036854775808)).
Proof. vm_compute. reflexivity. Qed.

(** ** Termination of the parser (C10) *)

(** A successful [parseNode] consumes at least one byte; a successful
    [parseChildren] never lengthens its input. *)
Lemma parse_progress fuel :
  (forall s node rest, parseNode fuel s = Ok (node, rest) ->
                       (List.length rest < List.length s)%nat)
  /\ (forall s e cs rest, parseChildren fuel s e = Ok (cs, rest) ->
                          (List.length rest <= List.length s)%nat).
Proof.
  induction fuel as [|fuel [IHn IHc]]; split; try (simpl; intros; discriminate).
  - intros s node rest H. simpl in H. inv_bind H.
    repeat match goal with
           | Hi : strings_Index _ _ = Some _ |- _ => apply strings_Index_lt in Hi
           end.
    rewrite !length_skipn in *.
    set (s3 := skipn (scan_until is_y_stop _) _) in *.
    assert (Hs3 : (List.length s3 + 3 <= List.length s)%nat).
    { unfold s3. rewrite !length_skipn. lia. }
    clearbody s3.
    destruct s3 as [|c s1].
    + injection H as _ <-. simpl. lia.
    + simpl in Hs3.
      destruct (Ascii.eqb c "{").
      { inv_bind H. injection H as _ <-.
        match goal with Hp : parseChildren _ _ _ = Ok _ |- _ => apply IHc in Hp end. lia. }
      destruct (Ascii.eqb c "[").
      { inv_bind H. injection H as _ <-.
        match goal with Hp : parseChildren _ _ _ = Ok _ |- _ => apply IHc in Hp end. lia. }
      destruct (Ascii.eqb c ",").
      { inv_bind H. injection H as _ <-. rewrite length_skipn. lia. }
      destruct (Ascii.eqb c "}" || Ascii.eqb c "]"); [|discriminate].
      injection H as _ <-. simpl. lia.
  - intros s e cs rest H. simpl in H.
    destruct s as [|c s1]; [injection H as _ <-; simpl; lia|].
    destruct (Ascii.eqb c e); [injection H as _ <-; simpl; lia|].
    inv_bind H. injection H as _ <-.
    match goal with Hp : parseNode _ _ = Ok (_, ?r0) |- _ => apply IHn in Hp; rename r0 into r end.
    match goal with Hp : parseChildren _ _ _ = Ok _ |- _ => apply IHc in Hp end.
    pose proof (skip_comma_le r). simpl in *. lia.
Qed.

(** The budget is enough: with [2 * len + 1] units [parseNode] returns,
    with [2 * len + 2] units [parseChildren] does. *)
Lemma parse_no_fuel_exhaustion fuel :
  (forall s, (2 * List.length s + 1 <= fuel)%nat -> parseNode fuel s <> OutOfFuel)
  /\ (forall s e, (2 * List.length s + 2 <= fuel)%nat -> parseChildren fuel s e <> OutOfFuel).
Proof.
  induction fuel as [|fuel [IHn IHc]]; split; try (intros; lia).
  - intros s Hf. simpl.
    destruct (strings_Index "x" s) as [xi|] eqn:Hx; simpl; [|discriminate].
    destruct (Atoi (firstn xi s)); simpl; [|discriminate].
    destruct (strings_Index "," (skipn (xi + 1) s)) as [c1|] eqn:H1; simpl; [|discriminate].
    destruct (Atoi (firstn c1 _)); simpl; [|discriminate].
    destruct (strings_Index "," (skipn (c1 + 1) _)) as [c2|] eqn:H2; simpl; [|discriminate].
    destruct (Atoi (firstn c2 _)); simpl; [|discriminate].
    destruct (Atoi (firstn (scan_until _ _) _)); simpl; [|discriminate].
    apply strings_Index_lt in Hx, H1, H2. rewrite !length_skipn in *.
    set (s3 := skipn (scan_until is_y_stop _) _) in *.
    assert (Hs3 : (List.length s3 + 3 <= List.length s)%nat).
    { unfold s3. rewrite !length_skipn. lia. }
    clearbody s3.
    destruct s3 as [|c s1]; [discriminate|]. simpl in Hs3.
    assert (Hc : forall e, parseChildren fuel s1 e <> OutOfFuel) by (intros e; apply IHc; lia).
    destruct (Ascii.eqb c "{").
    { specialize (Hc "}"%char). destruct (parseChildren fuel s1 "}") as [[cs r]| |]; simpl; congruence. }
    destruct (Ascii.eqb c "[").
    { specialize (Hc "]"%char). destruct (parseChildren fuel s1 "]") as [[cs r]| |]; simpl; congruence. }
    destruct (Ascii.eqb c ",").
    { destruct (Atoi _); simpl; discriminate. }
    destruct (Ascii.eqb c "}" || Ascii.eqb c "]"); discriminate.
  - intros s e Hf. simpl.
    destruct s as [|c s1]; [discriminate|].
    destruct (Ascii.eqb c e); [discriminate|].
    assert (Hn : parseNode fuel (c :: s1) <> OutOfFuel) by (apply IHn; lia).
    destruct (parseNode fuel (c :: s1)) as [[child r]| |] eqn:Hp; simpl; try congruence.
    apply (proj1 (parse_progress fuel)) in Hp.
    pose proof (skip_comma_le r) as Hr.
    assert (Hc : parseChildren fuel (skip_comma r) e <> OutOfFuel) by (apply IHc; simpl in *; lia).
    destruct (parseChildren fuel (skip_comma r) e) as [[cs r'']| |]; simpl; congruence.
Qed.

(** More fuel does not change an answer. *)
Lemma parse_fuel_mono fuel :
  (forall s r fuel', parseNode fuel s = r -> r <> OutOfFuel -> (fuel <= fuel')%nat ->
                     parseNode fuel' s = r)
  /\ (forall s e r fuel', parseChildren fuel s e = r -> r <> OutOfFuel -> (fuel <= fuel')%nat ->
                          parseChildren fuel' s e = r).
Proof.
  induction fuel as [|fuel [IHn IHc]]; split;
    try (simpl; intros; subst; congruence).
  - intros s r [|fuel'] H Hr Hle; [lia|]. assert (Hle' : (fuel <= fuel')%nat) by lia.
    simpl in *.
    destruct (orErr NoXInDimensions _) as [xi| |]; simpl in *; try assumption.
    destruct (orErr InvalidWidth _) as [wd| |]; simpl in *; try assumption.
    destruct (orErr NoCommaAfterHeight _) as [c1| |]; simpl in *; try assumption.
    destruct (orErr InvalidHeight _) as [ht| |]; simpl in *; try assumption.
    destruct (orErr NoCommaAfterX _) as [c2| |]; simpl in *; try assumption.
    destruct (orErr InvalidX _) as [xv| |]; simpl in *; try assumption.
    destruct (orErr InvalidY _) as [yv| |]; simpl in *; try assumption.
    destruct (skipn (scan_until is_y_stop _) _) as [|c s1]; [assumption|].
    destruct (Ascii.eqb c "{").
    { destruct (parseChildren fuel s1 "}") as [[cs r0]| |] eqn:Hp;
        [ rewrite (IHc _ _ _ fuel' Hp) by (congruence || lia)
        | rewrite (IHc _ _ _ fuel' Hp) by (congruence || lia)
        | simpl in H; congruence ]; assumption. }
    destruct (Ascii.eqb c "[").
    { destruct (parseChildren fuel s1 "]") as [[cs r0]| |] eqn:Hp;
        [ rewrite (IHc _ _ _ fuel' Hp) by (congruence || lia)
        | rewrite (IHc _ _ _ fuel' Hp) by (congruence || lia)
        | simpl in H; congruence ]; assumption. }
    assumption.
  - intros s e r [|fuel'] H Hr Hle; [lia|]. assert (Hle' : (fuel <= fuel')%nat) by lia.
    simpl in *.
    destruct s as [|c s1]; [assumption|].
    destruct (Ascii.eqb c e); [assumption|].
    destruct (parseNode fuel (c :: s1)) as [[child r0]| |] eqn:Hp;
      [ rewrite (IHn _ _ fuel' Hp) by (congruence || lia)
      | rewrite (IHn _ _ fuel' Hp) by (congruence || lia); assumption
      | simpl in H; congruence ].
    simpl in *.
    destruct (parseChildren fuel _ e) as [[cs r1]| |] eqn:Hq;
      [ rewrite (IHc _ _ _ fuel' Hq) by (congruence || lia)
      | rewrite (IHc _ _ _ fuel' Hq) by (congruence || lia)
      | simpl in H; congruence ]; assumption.
Qed.

Lemma parseNode_fuel_irrelevant s fuel :
  (parse_fuel s <= fuel)%nat ->
  parseNode fuel s = parseNode (parse_fuel s) s /\ parseNode fuel s <> OutOfFuel.
Proof.
  intros Hle.
  assert (H0 : parseNode (parse_fuel s) s <> OutOfFuel).
  { apply (proj1 (parse_no_fuel_exhaustion _)). unfold parse_fuel. lia. }
  assert (H1 : parseNode fuel s = parseNode (parse_fuel s) s).
  { apply (proj1 (parse_fuel_mono (parse_fuel s))) with (r := parseNode (parse_fuel s) s); auto. }
  split; [exact H1 | rewrite H1; exact H0].
Qed.

(** Whatever budget produced an answer, [parse_fuel] produces the same. *)
Lemma parseNode_at_parse_fuel fuel s r :
  parseNode fuel s = Ok r -> parseNode (parse_fuel s) s = Ok r.
Proof.
  intros H.
  destruct (parseNode_fuel_irrelevant s (Nat.max fuel (parse_fuel s))) as [E _]; [lia|].
  rewrite <- E.
  apply (proj1 (parse_fuel_mono fuel)) with (r := Ok r); auto; [discriminate | lia].
Qed.

(** C10. [ParseLayout] returns on every input, with a tree or with an
    error; a larger recursion budget than the one it uses gives the same
    answer, so the budget is no restriction; and every successful
    [parseNode], hence every completed iteration of the loop of
    [parseChildren], leaves strictly less input than it was given (an
    iteration that does not complete returns the error of [parseNode]). *)
Theorem ParseLayout_terminates :
  (forall layout,
      (exists node, ParseLayout layout = Ok node) \/ (exists e, ParseLayout layout = Err e))
  /\ (forall s fuel, (parse_fuel s <= fuel)%nat ->
                     parseNode fuel s = parseNode (parse_fuel s) s
                     /\ parseNode fuel s <> OutOfFuel)
  /\ (forall fuel s child rest,
         parseNode fuel s = Ok (child, rest) ->
         (List.length rest < List.length s)%nat)
  /\ (forall fuel c s1 endChar e,
         Ascii.eqb c endChar = false ->
         parseNode fuel (c :: s1) = Err e ->
         parseChildren (S fuel) (c :: s1) endChar = Err e).
Proof.
  split; [|split; [|split]].
  - intros layout. unfold ParseLayout.
    destruct (strings_Index "," layout) as [idx|]; simpl; [|right; eauto].
    destruct (parseNode_fuel_irrelevant (skipn (idx + 1) layout) (parse_fuel (skipn (idx + 1) layout)))
      as [_ H]; [lia|].
    destruct (parseNode _ _) as [[node rest]|e|]; simpl; [left|right|congruence]; eauto.
  - intros s fuel. apply parseNode_fuel_irrelevant.
  - intros fuel. apply (proj1 (parse_progress fuel)).
  - intros fuel c s1 endChar e Hc H. simpl. rewrite Hc, H. reflexivity.
Qed.

(** ** Decimal text of integers *)

Lemma digit_cases d : 0 <= d < 10 ->
  d = 0 \/ d = 1 \/ d = 2 \/ d = 3 \/ d = 4 \/ d = 5 \/ d = 6 \/ d = 7 \/ d = 8 \/ d = 9.
Proof. lia. Qed.

Lemma digit_char_dec d : 0 <= d < 10 ->
  is_digit (digit_char d) = true /\ byte_val (digit_char d) - 48 = d.
Proof.
  intros H. destruct (digit_cases d H) as [->|[->|[->|[->|[->|[->|[->|[->|[->| ->]]]]]]]]];
    split; reflexivity.
Qed.

Lemma is_digit_byte c : is_digit c = true -> 48 <= byte_val c <= 57.
Proof. unfold is_digit. rewrite andb_true_iff, !Z.leb_le. tauto. Qed.

Lemma num_char_not c d :
  is_num_char c = true -> is_num_char d = false -> Ascii.eqb c d = false.
Proof.
  intros Hc Hd. destruct (Ascii.eqb_spec c d) as [->|]; [congruence | reflexivity].
Qed.

Lemma num_char_not_y_stop c : is_num_char c = true -> is_y_stop c = false.
Proof.
  intros H. unfold is_y_stop.
  rewrite !(num_char_not c _ H) by reflexivity. reflexivity.
Qed.

Lemma num_char_not_id_stop c : is_num_char c = true -> is_id_stop c = false.
Proof.
  intros H. unfold is_id_stop.
  rewrite !(num_char_not c _ H) by reflexivity. reflexivity.
Qed.

Lemma format_uint_aux_value fuel : forall n acc,
  0 <= n < 2 ^ (Z.of_nat fuel + 1) ->
  digits_value 0 (format_uint_aux fuel 10 n acc) = digits_value n acc.
Proof.
  induction fuel as [|fuel IH]; intros n acc Hn.
  - simpl in *. assert (Hd : 0 <= n mod 10 < 10) by (apply Z.mod_pos_bound; lia).
    destruct (digit_char_dec _ Hd) as [E1 E2]. rewrite E1, E2.
    rewrite Z.mod_small by lia. reflexivity.
  - cbn [format_uint_aux].
    assert (Hd : 0 <= n mod 10 < 10) by (apply Z.mod_pos_bound; lia).
    destruct (digit_char_dec _ Hd) as [E1 E2].
    destruct (Z.ltb_spec n 10).
    + simpl. rewrite E1, E2. rewrite Z.mod_small by lia. reflexivity.
    + rewrite IH.
      * simpl. rewrite E1, E2. f_equal.
        pose proof (Z.div_mod n 10). lia.
      * replace (Z.of_nat (S fuel) + 1) with (Z.succ (Z.of_nat fuel + 1)) in Hn by lia.
        rewrite Z.pow_succ_r in Hn by lia.
        split; [apply Z.div_pos; lia|].
        apply Z.div_lt_upper_bound; lia.
Qed.

Lemma format_uint_aux_chars fuel : forall n acc,
  0 <= n -> Forall (fun c => is_num_char c = true) acc ->
  Forall (fun c => is_num_char c = true) (format_uint_aux fuel 10 n acc).
Proof.
  induction fuel as [|fuel IH]; intros n acc Hn Hacc;
    assert (Hd : 0 <= n mod 10 < 10) by (apply Z.mod_pos_bound; lia);
    destruct (digit_char_dec _ Hd) as [E1 _];
    assert (Hc : is_num_char (digit_char (n mod 10)) = true)
      by (unfold is_num_char; rewrite E1; reflexivity).
  - simpl. constructor; assumption.
  - cbn [format_uint_aux]. destruct (n <? 10).
    + constructor; assumption.
    + apply IH; [apply Z.div_pos; lia | constructor; assumption].
Qed.

Lemma format_uint_aux_digit_head fuel : forall base n acc,
  exists d r, format_uint_aux fuel base n acc = digit_char d :: r
              /\ (d = n mod base \/ exists m, d = m mod base).
Proof.
  induction fuel as [|fuel IH]; intros base n acc.
  - simpl. eauto.
  - cbn [format_uint_aux]. destruct (n <? base); [eauto|].
    destruct (IH base (n / base) (digit_char (n mod base) :: acc)) as (d & r & E & Hd).
    exists d, r. split; [exact E|]. right. destruct Hd as [->|[m ->]]; eauto.
Qed.

Lemma log2_fuel_bound n : 0 <= n -> 0 <= n < 2 ^ (Z.of_nat (Z.to_nat (Z.log2 n)) + 1).
Proof.
  intros Hn. rewrite Z2Nat.id by apply Z.log2_nonneg.
  destruct (Z.eq_dec n 0) as [->|]; [simpl; lia|].
  pose proof (Z.log2_spec n ltac:(lia)). replace (Z.log2 n + 1) with (Z.succ (Z.log2 n)) by lia. lia.
Qed.

Lemma format_uint_value n : 0 <= n -> digits_value 0 (format_uint 10 n) = Some n.
Proof.
  intros Hn. unfold format_uint. rewrite format_uint_aux_value by (apply log2_fuel_bound; lia).
  reflexivity.
Qed.

Lemma format_uint_head_digit n : 0 <= n ->
  exists c r, format_uint 10 n = c :: r /\ is_digit c = true.
Proof.
  intros Hn. unfold format_uint.
  destruct (format_uint_aux_digit_head (Z.to_nat (Z.log2 n)) 10 n []) as (d & r & E & Hd).
  exists (digit_char d), r. split; [exact E|].
  apply digit_char_dec. destruct Hd as [->|[m ->]]; apply Z.mod_pos_bound; lia.
Qed.

Lemma is_digit_not_sign c : is_digit c = true ->
  Ascii.eqb c "-"%char = false /\ Ascii.eqb c "+"%char = false.
Proof.
  intros H. apply is_digit_byte in H.
  split; [destruct (Ascii.eqb_spec c "-"%char) as [->|] | destruct (Ascii.eqb_spec c "+"%char) as [->|]];
    try reflexivity; vm_compute in H; destruct H; congruence.
Qed.

(** [Atoi] reads back what [%d] printed. *)
Lemma Atoi_itoa z : GoInt.in_range z = true -> Atoi (itoa z) = Some z.
Proof.
  intros Hr. unfold itoa. destruct (Z.ltb_spec z 0).
  - unfold Atoi. cbn [Ascii.eqb orb]. simpl.
    destruct (format_uint_head_digit (- z) ltac:(lia)) as (c & r & E & Hc).
    rewrite E. rewrite <- E. rewrite format_uint_value by lia.
    rewrite Z.opp_involutive, Hr. reflexivity.
  - destruct (format_uint_head_digit z ltac:(lia)) as (c & r & E & Hc).
    unfold Atoi. rewrite E.
    destruct (is_digit_not_sign c Hc) as [-> ->]. cbn [orb].
    rewrite <- E. rewrite format_uint_value by lia. rewrite Hr. reflexivity.
Qed.

Lemma itoa_chars z : Forall (fun c => is_num_char c = true) (itoa z).
Proof.
  unfold itoa, format_uint. destruct (Z.ltb_spec z 0).
  - constructor; [reflexivity|]. apply format_uint_aux_chars; [lia | constructor].
  - apply format_uint_aux_chars; [lia | constructor].
Qed.

Lemma itoa_head z : exists c r, itoa z = c :: r /\ is_num_char c = true.
Proof.
  pose proof (itoa_chars z) as H.
  unfold itoa in *. destruct (z <? 0).
  - eexists _, _. split; [reflexivity | reflexivity].
  - destruct (format_uint_aux_digit_head (Z.to_nat (Z.log2 z)) 10 z []) as (d & r & E & _).
    unfold format_uint in *. rewrite E in *. inversion H; subst. eauto.
Qed.

Lemma Atoi_in_range s z : Atoi s = Some z -> GoInt.in_range z = true.
Proof.
  unfold Atoi.
  destruct (match s with [] => s | c :: r => if (Ascii.eqb c "-" || Ascii.eqb c "+")%bool then r else s end);
    [discriminate|].
  destruct (digits_value 0 _); [|discriminate].
  destruct (GoInt.in_range _) eqn:E; [|discriminate].
  intros H. injection H as <-. exact E.
Qed.

(** ** Scanning past a numeral *)

Lemma strings_Index_app c p r :
  Forall (fun d => Ascii.eqb d c = false) p ->
  strings_Index c (p ++ c :: r) = Some (List.length p).
Proof.
  induction 1 as [|d p Hd _ IH]; simpl.
  - rewrite Ascii.eqb_refl. reflexivity.
  - rewrite Hd, IH. reflexivity.
Qed.

Lemma scan_until_app stop p r :
  Forall (fun d => stop d = false) p -> starts_with stop r ->
  scan_until stop (p ++ r) = List.length p.
Proof.
  induction 1 as [|d p Hd _ IH]; simpl; intros Hr.
  - destruct r as [|d r]; simpl in *; [reflexivity | rewrite Hr; reflexivity].
  - rewrite Hd, IH by assumption. reflexivity.
Qed.

Lemma firstn_length_app {A} (p r : list A) : firstn (List.length p) (p ++ r) = p.
Proof. induction p; simpl; congruence. Qed.

Lemma skipn_length_app {A} (p r : list A) : skipn (List.length p) (p ++ r) = r.
Proof. induction p; simpl; congruence. Qed.

Lemma skipn_length_app1 {A} (p : list A) c r : skipn (List.length p + 1) (p ++ c :: r) = r.
Proof. induction p; simpl; congruence. Qed.

Lemma num_chars_no (c : ascii) p :
  is_num_char c = false ->
  Forall (fun d => is_num_char d = true) p -> Forall (fun d => Ascii.eqb d c = false) p.
Proof.
  intros Hc H. eapply Forall_impl; [|exact H]. intros d Hd. apply num_char_not; assumption.
Qed.

Lemma num_chars_no_stop (stop : ascii -> bool) p :
  (forall d, is_num_char d = true -> stop d = false) ->
  Forall (fun d => is_num_char d = true) p -> Forall (fun d => stop d = false) p.
Proof. intros Hs H. eapply Forall_impl; [|exact H]. exact Hs. Qed.

(** ** Round trip of the codec (C2) *)

Lemma canon_children w h x y id st cs :
  canon (mkLayoutNode w h x y id st cs) -> Forall canon cs.
Proof.
  unfold canon. cbn [well_formed ints_in_range]. rewrite !andb_true_iff, !forallb_forall.
  intros ((_ & H1) & (_ & H2)). apply Forall_forall. intros c Hc. auto.
Qed.

Lemma canon_fields w h x y id st cs :
  canon (mkLayoutNode w h x y id st cs) ->
  GoInt.in_range w = true /\ GoInt.in_range h = true /\
  GoInt.in_range x = true /\ GoInt.in_range y = true /\
  GoInt.in_range id = true /\
  (st = SplitNone -> cs = []) /\ (st <> SplitNone -> id = -1).
Proof.
  unfold canon. cbn [well_formed ints_in_range]. rewrite !andb_true_iff.
  intros ((H1 & _) & (((((? & ?) & ?) & ?) & ?) & _)).
  repeat split; try assumption.
  - intros ->. destruct cs; [reflexivity | discriminate].
  - intros Hst. destruct st; [congruence | |]; apply Z.eqb_eq; assumption.
Qed.

Lemma canon_intro w h x y id st cs :
  GoInt.in_range w = true -> GoInt.in_range h = true ->
  GoInt.in_range x = true -> GoInt.in_range y = true ->
  GoInt.in_range id = true ->
  (st = SplitNone -> cs = []) -> (st <> SplitNone -> id = -1) ->
  Forall canon cs ->
  canon (mkLayoutNode w h x y id st cs).
Proof.
  intros Hw Hh Hx Hy Hid Hl Hs Hcs. unfold canon. cbn [well_formed ints_in_range].
  rewrite Hw, Hh, Hx, Hy, Hid. cbn [andb].
  rewrite Forall_forall in Hcs.
  split.
  - apply andb_true_iff; split.
    + destruct st; [rewrite Hl; reflexivity | |]; apply Z.eqb_eq, Hs; congruence.
    + apply forallb_forall. intros c Hc. apply Hcs, Hc.
  - apply forallb_forall. intros c Hc. apply Hcs, Hc.
Qed.

Lemma parse_canon fuel :
  (forall s node rest, parseNode fuel s = Ok (node, rest) -> canon node)
  /\ (forall s e cs rest, parseChildren fuel s e = Ok (cs, rest) -> Forall canon cs).
Proof.
  induction fuel as [|fuel [IHn IHc]]; split; try (simpl; intros; discriminate).
  - intros s node rest H. simpl in H. inv_bind H.
    repeat match goal with
           | Hi : Atoi _ = Some _ |- _ => apply Atoi_in_range in Hi
           end.
    destruct (skipn (scan_until is_y_stop _) _) as [|c s1].
    { injection H as <- _. apply canon_intro; auto; congruence. }
    destruct (Ascii.eqb c "{").
    { inv_bind H. injection H as <- _.
      apply canon_intro; auto; try congruence. eapply IHc; eassumption. }
    destruct (Ascii.eqb c "[").
    { inv_bind H. injection H as <- _.
      apply canon_intro; auto; try congruence. eapply IHc; eassumption. }
    destruct (Ascii.eqb c ",").
    { inv_bind H. injection H as <- _.
      match goal with
      | Hi : Atoi _ = Some _ |- _ => apply Atoi_in_range in Hi
      end.
      apply canon_intro; auto; congruence. }
    destruct (Ascii.eqb c "}" || Ascii.eqb c "]"); [|discriminate].
    injection H as <- _. apply canon_intro; auto; congruence.
  - intros s e cs rest H. simpl in H.
    destruct s as [|c s1]; [injection H as <- _; constructor|].
    destruct (Ascii.eqb c e); [injection H as <- _; constructor|].
    inv_bind H. injection H as <- _.
    constructor; [eapply IHn | eapply IHc]; eassumption.
Qed.

Lemma buildNodeString_app t rest :
  buildNodeString t ++ rest
  = itoa (Width t) ++ "x"%char :: itoa (Height t) ++ ","%char :: itoa (X t)
    ++ ","%char :: itoa (Y t) ++ node_tail t rest.
Proof.
  destruct t as [w h x y id st cs]. unfold node_tail. cbn [buildNodeString Width Height X Y PaneID splitType Children].
  destruct st; unfold str; cbn [list_ascii_of_string];
    repeat (rewrite <- ?app_assoc; cbn [app]); reflexivity.
Qed.

Lemma buildNodeString_head t : exists c r, buildNodeString t = c :: r /\ is_num_char c = true.
Proof.
  pose proof (buildNodeString_app t []) as E. rewrite app_nil_r in E. rewrite E.
  destruct (itoa_head (Width t)) as (c & r & -> & Hc). simpl. eauto.
Qed.

(** The header of a node: [parseNode] reads the four numerals and is
    left with the tail. *)
Lemma parseNode_header fuel w h x y tl :
  GoInt.in_range w = true -> GoInt.in_range h = true ->
  GoInt.in_range x = true -> GoInt.in_range y = true ->
  starts_with is_y_stop tl ->
  parseNode (S fuel) (itoa w ++ "x"%char :: itoa h ++ ","%char :: itoa x ++ ","%char :: itoa y ++ tl)
  = after_header fuel w h x y tl.
Proof.
  intros Hw Hh Hx Hy Htl. cbn [parseNode].
  rewrite strings_Index_app by (apply num_chars_no; [reflexivity | apply itoa_chars]).
  cbn [orErr bind]. rewrite firstn_length_app, (Atoi_itoa w Hw). cbn [orErr bind].
  rewrite skipn_length_app1.
  rewrite strings_Index_app by (apply num_chars_no; [reflexivity | apply itoa_chars]).
  cbn [orErr bind]. rewrite firstn_length_app, (Atoi_itoa h Hh). cbn [orErr bind].
  rewrite skipn_length_app1.
  rewrite strings_Index_app by (apply num_chars_no; [reflexivity | apply itoa_chars]).
  cbn [orErr bind]. rewrite firstn_length_app, (Atoi_itoa x Hx). cbn [orErr bind].
  rewrite skipn_length_app1.
  rewrite scan_until_app;
    [| apply num_chars_no_stop; [apply num_char_not_y_stop | apply itoa_chars] | assumption].
  rewrite firstn_length_app, (Atoi_itoa y Hy). cbn [orErr bind].
  rewrite skipn_length_app. reflexivity.
Qed.

Lemma parseChildren_cons f s e c0 r0 :
  s = c0 :: r0 -> Ascii.eqb c0 e = false ->
  parseChildren (S f) s e
  = ('(child, rest) <- parseNode f s ;;
     '(children, s') <- parseChildren f (skip_comma rest) e ;;
     Ok (child :: children, s')).
Proof. intros -> H. cbn [parseChildren]. rewrite H. reflexivity. Qed.

(** The children of a split, printed with commas and closed by the
    bracket, are read back in order. *)
Lemma parseChildren_build (e : ascii) cs :
  is_num_char e = false -> is_id_stop e = true -> Ascii.eqb e ","%char = false ->
  Forall (fun c => forall rest, starts_with is_id_stop rest ->
                   exists f0, forall f, (f0 <= f)%nat ->
                     parseNode f (buildNodeString c ++ rest) = Ok (c, rest)) cs ->
  forall rest, exists f0, forall f, (f0 <= f)%nat ->
    parseChildren f (strings_Join (map buildNodeString cs) (str ",") ++ e :: rest) e
    = Ok (cs, rest).
Proof.
  intros He Hstop Hec H rest. induction H as [|c cs Hc _ IH].
  - exists 1%nat. intros [|f] Hf; [lia|]. simpl. rewrite Ascii.eqb_refl. reflexivity.
  - destruct IH as (f1 & IH).
    destruct (buildNodeString_head c) as (c0 & r0 & E0 & Hc0).
    assert (Hne : Ascii.eqb c0 e = false).
    { destruct (Ascii.eqb_spec c0 e) as [->|]; [congruence | reflexivity]. }
    destruct cs as [|c' cs].
    + destruct (Hc (e :: rest) Hstop) as (f0 & Hp).
      exists (S (S f0)). intros [|f] Hf; [lia|].
      cbn [map strings_Join].
      rewrite (parseChildren_cons f _ e c0 (r0 ++ e :: rest)) by (rewrite ?E0; auto).
      rewrite Hp by lia. cbn [bind skip_comma]. rewrite Hec.
      destruct f as [|f]; [lia|].
      cbn [parseChildren]. rewrite Ascii.eqb_refl. reflexivity.
    + destruct (Hc (","%char :: strings_Join (map buildNodeString (c' :: cs)) (str ",") ++ e :: rest)
                   eq_refl) as (f0 & Hp).
      exists (S (Nat.max f0 f1)). intros [|f] Hf; [lia|].
      change (strings_Join (map buildNodeString (c :: c' :: cs)) (str ","))
        with (buildNodeString c ++ str "," ++ strings_Join (map buildNodeString (c' :: cs)) (str ",")).
      rewrite <- !app_assoc. cbn [str list_ascii_of_string app].
      rewrite (parseChildren_cons f _ e c0
                 (r0 ++ ","%char :: strings_Join (map buildNodeString (c' :: cs)) [","%char] ++ e :: rest))
        by (rewrite ?E0; auto).
      rewrite Hp by lia. cbn [bind skip_comma]. rewrite Ascii.eqb_refl.
      rewrite IH by lia. reflexivity.
Qed.

(** Every canonical tree is read back from its own text. *)
Lemma parseNode_build t :
  canon t ->
  forall rest, starts_with is_id_stop rest ->
  exists f0, forall f, (f0 <= f)%nat ->
    parseNode f (buildNodeString t ++ rest) = Ok (t, rest).
Proof.
  induction t as [w h x y id st cs IH] using LayoutNode_ind'.
  intros Hcanon rest Hrest.
  destruct (canon_fields _ _ _ _ _ _ _ Hcanon) as (Hw & Hh & Hx & Hy & Hid & Hleaf & Hsplit).
  pose proof (canon_children _ _ _ _ _ _ _ Hcanon) as Hcs.
  assert (IH' : Forall (fun c => forall rest, starts_with is_id_stop rest ->
                   exists f0, forall f, (f0 <= f)%nat ->
                     parseNode f (buildNodeString c ++ rest) = Ok (c, rest)) cs).
  { rewrite Forall_forall in *. intros c Hc. apply IH; auto. }
  rewrite buildNodeString_app. cbn [Width Height X Y]. unfold node_tail. cbn [splitType PaneID Children].
  destruct st.
  - rewrite (Hleaf eq_refl).
    exists 1%nat. intros [|f] Hf; [lia|].
    rewrite parseNode_header by (auto; reflexivity). unfold after_header.
    cbn [Ascii.eqb Bool.eqb]. cbv zeta.
    rewrite scan_until_app;
      [| apply num_chars_no_stop; [apply num_char_not_id_stop | apply itoa_chars] | assumption].
    rewrite firstn_length_app, skipn_length_app, (Atoi_itoa id Hid). reflexivity.
  - rewrite (Hsplit ltac:(discriminate)).
    destruct (parseChildren_build "}"%char cs eq_refl eq_refl eq_refl IH' rest) as (f0 & Hp).
    exists (S f0). intros [|f] Hf; [lia|].
    rewrite parseNode_header by (auto; reflexivity). unfold after_header.
    cbn [Ascii.eqb Bool.eqb]. cbv zeta. rewrite Hp by lia. reflexivity.
  - rewrite (Hsplit ltac:(discriminate)).
    destruct (parseChildren_build "]"%char cs eq_refl eq_refl eq_refl IH' rest) as (f0 & Hp).
    exists (S f0). intros [|f] Hf; [lia|].
    rewrite parseNode_header by (auto; reflexivity). unfold after_header.
    cbn [Ascii.eqb Bool.eqb]. cbv zeta. rewrite Hp by lia. reflexivity.
Qed.

(** The checksum field is skipped, whatever it holds. *)
Lemma ParseLayout_any_checksum csum t :
  strings_Index ","%char csum = None -> canon t ->
  ParseLayout (csum ++ ","%char :: buildNodeString t) = Ok t.
Proof.
  intros Hc Hcanon. unfold ParseLayout.
  assert (Hno : Forall (fun d => Ascii.eqb d ","%char = false) csum).
  { clear -Hc. induction csum as [|d p IH]; constructor; simpl in Hc;
      destruct (Ascii.eqb d ","); try discriminate; auto.
    apply IH. destruct (strings_Index "," p); [discriminate | reflexivity]. }
  rewrite strings_Index_app by assumption. cbn [orErr bind].
  rewrite skipn_length_app1.
  destruct (parseNode_build t Hcanon [] I) as (f0 & Hp).
  rewrite app_nil_r in Hp.
  rewrite (parseNode_at_parse_fuel f0 _ (t, [])) by (apply Hp; lia).
  reflexivity.
Qed.

(** ** The checksum (C5) *)

Lemma rotate_right_16_arith a :
  0 <= a < 2 ^ 16 -> rotate_right_16 a = a / 2 + (a mod 2) * 2 ^ 15.
Proof.
  intros Ha. unfold rotate_right_16, bit. cbn [seq map fold_right].
  rewrite !Z.testbit_spec' by (vm_compute; congruence).
  change ((Z.of_nat 0 + 1) mod 16) with 1. change ((Z.of_nat 1 + 1) mod 16) with 2.
  change ((Z.of_nat 2 + 1) mod 16) with 3. change ((Z.of_nat 3 + 1) mod 16) with 4.
  change ((Z.of_nat 4 + 1) mod 16) with 5. change ((Z.of_nat 5 + 1) mod 16) with 6.
  change ((Z.of_nat 6 + 1) mod 16) with 7. change ((Z.of_nat 7 + 1) mod 16) with 8.
  change ((Z.of_nat 8 + 1) mod 16) with 9. change ((Z.of_nat 9 + 1) mod 16) with 10.
  change ((Z.of_nat 10 + 1) mod 16) with 11. change ((Z.of_nat 11 + 1) mod 16) with 12.
  change ((Z.of_nat 12 + 1) mod 16) with 13. change ((Z.of_nat 13 + 1) mod 16) with 14.
  change ((Z.of_nat 14 + 1) mod 16) with 15. change ((Z.of_nat 15 + 1) mod 16) with 0.
  cbn [Z.of_nat Pos.of_succ_nat Pos.succ].
  change (2 ^ 16) with 65536 in Ha.
  repeat match goal with
         | |- context [2 ^ ?k] => let v := eval vm_compute in (2 ^ k) in change (2 ^ k) with v
         end.
  Z.div_mod_to_equations. lia.
Qed.

Lemma csum_step_spec csum b :
  0 <= csum < 2 ^ 16 ->
  csum_step csum b = (rotate_right_16 csum + byte_val b) mod 2 ^ 16.
Proof.
  intros H. unfold csum_step, u16. rewrite rotate_right_16_arith by assumption.
  rewrite Z.shiftr_div_pow2, Z.shiftl_mul_pow2 by lia.
  change 1 with (Z.ones 1) at 2. rewrite Z.land_ones by lia.
  change (2 ^ 1) with 2. change (2 ^ 16) with 65536 in *. change (2 ^ 15) with 32768.
  assert (H2 : 0 <= csum mod 2 < 2) by (apply Z.mod_pos_bound; lia).
  assert (H3 : 0 <= csum / 2 < 32768) by (split; [apply Z.div_pos | apply Z.div_lt_upper_bound]; lia).
  rewrite (Z.mod_small (csum mod 2 * 32768)) by lia.
  rewrite (Z.mod_small (csum / 2 + csum mod 2 * 32768)) by lia.
  reflexivity.
Qed.

Lemma csum_step_range csum b : 0 <= csum_step csum b < 2 ^ 16.
Proof. unfold csum_step, u16. apply Z.mod_pos_bound. reflexivity. Qed.

Lemma csum_fold_spec s : forall acc, 0 <= acc < 2 ^ 16 ->
  fold_left csum_step s acc
  = fold_left (fun acc b => (rotate_right_16 acc + byte_val b) mod 2 ^ 16) s acc
  /\ 0 <= fold_left csum_step s acc < 2 ^ 16.
Proof.
  induction s as [|b s IH]; intros acc Hacc; simpl; [auto|].
  rewrite <- csum_step_spec by assumption. apply IH, csum_step_range.
Qed.

Lemma csum_of_spec s : csum_of s = spec_checksum s /\ 0 <= csum_of s < 2 ^ 16.
Proof. apply csum_fold_spec. vm_compute. split; congruence. Qed.

(** *** The four hexadecimal digits *)

Lemma hex_digit_cases d : 0 <= d < 16 ->
  d = 0 \/ d = 1 \/ d = 2 \/ d = 3 \/ d = 4 \/ d = 5 \/ d = 6 \/ d = 7 \/ d = 8 \/ d = 9
  \/ d = 10 \/ d = 11 \/ d = 12 \/ d = 13 \/ d = 14 \/ d = 15.
Proof. lia. Qed.

Lemma digit_char_hex d : 0 <= d < 16 ->
  is_lower_hex (digit_char d) = true /\ digit_val (digit_char d) = d
  /\ Ascii.eqb (digit_char d) ","%char = false.
Proof.
  intros H.
  destruct (hex_digit_cases d H)
    as [->|[->|[->|[->|[->|[->|[->|[->|[->|[->|[->|[->|[->|[->|[->| ->]]]]]]]]]]]]]]];
    repeat split; reflexivity.
Qed.

Lemma format_hex_aux_value fuel : forall n acc,
  0 <= n < 2 ^ (Z.of_nat fuel + 1) ->
  fold_left (fun a c => a * 16 + digit_val c) (format_uint_aux fuel 16 n acc) 0
  = fold_left (fun a c => a * 16 + digit_val c) acc n.
Proof.
  induction fuel as [|fuel IH]; intros n acc Hn;
    assert (Hd : 0 <= n mod 16 < 16) by (apply Z.mod_pos_bound; lia);
    destruct (digit_char_hex _ Hd) as (_ & E & _).
  - simpl in *. rewrite E. rewrite Z.mod_small by lia. reflexivity.
  - cbn [format_uint_aux]. destruct (Z.ltb_spec n 16).
    + simpl. rewrite E. rewrite Z.mod_small by lia. reflexivity.
    + rewrite IH.
      * simpl. rewrite E. f_equal. pose proof (Z.div_mod n 16). lia.
      * replace (Z.of_nat (S fuel) + 1) with (Z.succ (Z.of_nat fuel + 1)) in Hn by lia.
        rewrite Z.pow_succ_r in Hn by lia.
        split; [apply Z.div_pos; lia|].
        apply Z.div_lt_upper_bound; lia.
Qed.

Lemma format_uint_aux_Forall (P : ascii -> Prop) base fuel : forall n acc,
  0 < base -> (forall d, 0 <= d < base -> P (digit_char d)) ->
  Forall P acc -> Forall P (format_uint_aux fuel base n acc).
Proof.
  induction fuel as [|fuel IH]; intros n acc Hb HP Hacc;
    assert (Hd : 0 <= n mod base < base) by (apply Z.mod_pos_bound; lia).
  - simpl. constructor; auto.
  - cbn [format_uint_aux]. destruct (n <? base); [constructor; auto|].
    apply IH; auto.
Qed.

Lemma format_hex_aux_length fuel : forall n acc (k : nat),
  0 <= n < 16 ^ (Z.of_nat k + 1) ->
  (List.length (format_uint_aux fuel 16 n acc) <= k + 1 + List.length acc)%nat.
Proof.
  induction fuel as [|fuel IH]; intros n acc k Hn.
  - simpl. lia.
  - cbn [format_uint_aux]. destruct (Z.ltb_spec n 16); [simpl; lia|].
    destruct k as [|k]; [simpl in Hn; lia|].
    specialize (IH (n / 16) (digit_char (n mod 16) :: acc) k).
    cbn [List.length] in IH.
    assert (0 <= n / 16 < 16 ^ (Z.of_nat k + 1)).
    { replace (Z.of_nat (S k) + 1) with (Z.succ (Z.of_nat k + 1)) in Hn by lia.
      rewrite Z.pow_succ_r in Hn by lia.
      split; [apply Z.div_pos; lia | apply Z.div_lt_upper_bound; lia]. }
    specialize (IH ltac:(assumption)). lia.
Qed.

Lemma fmt_04x_length v : 0 <= v < 2 ^ 16 -> List.length (fmt_04x v) = 4%nat.
Proof.
  intros Hv. unfold fmt_04x, pad_zero, format_uint.
  pose proof (format_hex_aux_length (Z.to_nat (Z.log2 v)) v [] 3 ltac:(simpl; lia)) as H.
  simpl in H. rewrite length_app, repeat_length. lia.
Qed.

Lemma fmt_04x_Forall (P : ascii -> Prop) v :
  (forall d, 0 <= d < 16 -> P (digit_char d)) -> Forall P (fmt_04x v).
Proof.
  intros HP. unfold fmt_04x, pad_zero. apply Forall_app. split.
  - apply Forall_forall. intros c Hc. apply repeat_spec in Hc. subst c.
    apply (HP 0). lia.
  - apply format_uint_aux_Forall; auto. lia.
Qed.

Lemma fmt_04x_value v : 0 <= v -> radix_value 16 (fmt_04x v) = v.
Proof.
  intros Hv. unfold radix_value, fmt_04x, pad_zero. rewrite fold_left_app.
  assert (E : forall k, fold_left (fun a c => a * 16 + digit_val c) (repeat "0"%char k) 0 = 0).
  { induction k; simpl; auto. }
  rewrite E. unfold format_uint. rewrite format_hex_aux_value by (apply log2_fuel_bound; lia).
  reflexivity.
Qed.

Lemma calculateChecksum_no_comma s : strings_Index ","%char (calculateChecksum s) = None.
Proof.
  unfold calculateChecksum.
  assert (H : Forall (fun c => Ascii.eqb c ","%char = false) (fmt_04x (csum_of s))).
  { apply fmt_04x_Forall. intros d Hd. apply digit_char_hex, Hd. }
  induction H as [|c l Hc _ IH]; simpl; [reflexivity|]. rewrite Hc, IH. reflexivity.
Qed.

(** C5. The checksum of the code is the checksum of the specification:
    a 16-bit accumulator from 0, rotated right by one bit and increased
    by each byte modulo 2^16; [calculateChecksum] renders it as exactly
    four lowercase hexadecimal digits that denote it, and [BuildLayout]
    puts these digits and a comma in front of the body. *)
Theorem calculateChecksum_spec :
  (forall s : gostring,
      calculateChecksum s = fmt_04x (spec_checksum s)
      /\ 0 <= spec_checksum s < 2 ^ 16
      /\ List.length (calculateChecksum s) = 4%nat
      /\ forallb is_lower_hex (calculateChecksum s) = true
      /\ radix_value 16 (calculateChecksum s) = spec_checksum s)
  /\ (forall node : LayoutNode,
         BuildLayout node
         = calculateChecksum (buildNodeString node) ++ ","%char :: buildNodeString node).
Proof.
  split; [|reflexivity].
  intros s. destruct (csum_of_spec s) as [E R]. unfold calculateChecksum.
  rewrite <- E. repeat split; try apply R.
  - apply fmt_04x_length, R.
  - apply forallb_forall. apply Forall_forall.
    apply fmt_04x_Forall. intros d Hd. apply digit_char_hex, Hd.
  - apply fmt_04x_value, R.
Qed.

Lemma layout_body_BuildLayout t : layout_body (BuildLayout t) = Some (buildNodeString t).
Proof.
  unfold layout_body, BuildLayout. cbv zeta. unfold str. cbn [list_ascii_of_string app].
  assert (Hno : Forall (fun d => Ascii.eqb d ","%char = false)
                       (calculateChecksum (buildNodeString t))).
  { apply fmt_04x_Forall. intros d Hd. apply digit_char_hex, Hd. }
  rewrite strings_Index_app by exact Hno. cbn [option_map].
  rewrite skipn_length_app1. reflexivity.
Qed.

(** C2, as the code has it.  Whenever [ParseLayout] succeeds, the tree
    it returns is read back unchanged from the text [BuildLayout] makes
    of it, and from that body under any other checksum field: the
    checksum is never checked.  The text [BuildLayout] makes is the
    checksum, a comma and the text of the tree in its one written form;
    after the checksum field it is the text that was given if and only
    if what was given after the checksum field is that written form.
    This is so for every text [BuildLayout] has written for a well-formed
    tree with integers of Go's [int], which comes back whole, checksum
    included; and the text made is a fixed point: read and written once
    more, it is itself. *)
Theorem ParseLayout_BuildLayout_roundtrip :
  forall layout t,
    ParseLayout layout = Ok t ->
    ParseLayout (BuildLayout t) = Ok t
    /\ (forall csum, strings_Index ","%char csum = None ->
                     ParseLayout (csum ++ ","%char :: buildNodeString t) = Ok t)
    /\ layout_body (BuildLayout t) = Some (buildNodeString t)
    /\ (layout_body (BuildLayout t) = layout_body layout
        <-> layout_body layout = Some (buildNodeString t))
    /\ (forall t0, well_formed t0 = true -> ints_in_range t0 = true ->
                   layout = BuildLayout t0 -> BuildLayout t = layout)
    /\ (forall t', ParseLayout (BuildLayout t) = Ok t' -> BuildLayout t' = BuildLayout t).
Proof.
  intros layout t H.
  assert (Hc : canon t).
  { unfold ParseLayout in H. inv_bind H. injection H as <-.
    eapply (proj1 (parse_canon _)); eassumption. }
  assert (R : forall u, canon u -> ParseLayout (BuildLayout u) = Ok u).
  { intros u Hu. unfold BuildLayout. cbn zeta. unfold str. cbn [list_ascii_of_string app].
    apply ParseLayout_any_checksum; [apply calculateChecksum_no_comma | exact Hu]. }
  split; [apply R, Hc|].
  split; [intros csum Hcs; apply ParseLayout_any_checksum; assumption|].
  split; [apply layout_body_BuildLayout|].
  split; [rewrite layout_body_BuildLayout; split; intros E; congruence|].
  split.
  - intros t0 Hwf Hir ->. rewrite (R t0 (conj Hwf Hir)) in H. congruence.
  - intros t' H'. rewrite (R t Hc) in H'. congruence.
Qed.

(** C2 as the specification states it fails: a text that is accepted
    need not come back from [BuildLayout] the same after its checksum
    field.  Numerals with a sign or with leading zeros come back in
    their shortest form; what follows the root is dropped, here with
    the checksum unchanged; and a list that was never closed comes back
    closed. *)
Lemma rebuilt_text_differs :
  (ParseLayout layout_padded_numerals = Ok (leaf 10 10 0 0 7)
   /\ BuildLayout (leaf 10 10 0 0 7) = str "9ea4,10x10,0,0,7"
   /\ layout_body layout_padded_numerals = Some (str "+010x0010,-0,00,07")
   /\ layout_body (BuildLayout (leaf 10 10 0 0 7)) = Some (str "10x10,0,0,7"))
  /\ (ParseLayout layout_trailing_text = Ok (leaf 10 10 0 0 7)
      /\ layout_body layout_trailing_text = Some (str "10x10,0,0,7,8x8,0,0,9")
      /\ layout_body (BuildLayout (leaf 10 10 0 0 7)) <> layout_body layout_trailing_text)
  /\ (ParseLayout layout_unclosed = Ok tree_unclosed
      /\ BuildLayout tree_unclosed = str "f033,10x10,0,0{5x10,0,0,1}"
      /\ layout_body layout_unclosed = Some (str "10x10,0,0{5x10,0,0,1")
      /\ layout_body (BuildLayout tree_unclosed) = Some (str "10x10,0,0{5x10,0,0,1}")).
Proof.
  repeat match goal with |- _ /\ _ => split end;
    try (vm_compute; reflexivity).
  vm_compute. discriminate.
Qed.

(** ** The zoom transform: what it leaves alone *)

Lemma copyLayoutNode_id t : copyLayoutNode t = t.
Proof.
  induction t as [w h x y id st cs IH] using LayoutNode_ind'. cbn [copyLayoutNode].
  f_equal. induction IH as [|c cs Hc _ IHcs]; simpl; congruence.
Qed.

Lemma shape_set_size ax t v : shape (set_size ax t v) = shape t.
Proof. destruct t, ax; reflexivity. Qed.

Lemma shape_set_pos ax t v : shape (set_pos ax t v) = shape t.
Proof. destruct t, ax; reflexivity. Qed.

Lemma shape_set_children t cs :
  map shape cs = map shape (Children t) -> shape (set_children t cs) = shape t.
Proof. destruct t; simpl. intros ->. reflexivity. Qed.

Lemma shape_updateChildSizes ax t : forall v, shape (updateChildSizes ax t v) = shape t.
Proof.
  induction t as [w h x y id st cs IH] using LayoutNode_ind'. intros v.
  cbn [updateChildSizes]. rewrite shape_set_size. cbn [shape]. f_equal.
  destruct (SplitType_eqb st (cross_split ax)); [|reflexivity].
  rewrite map_map. induction IH as [|c cs Hc _ IHcs]; simpl; [reflexivity|].
  rewrite Hc, IHcs. reflexivity.
Qed.

Lemma shape_place_children ax cs : forall ws pos,
  List.length ws = List.length cs ->
  map shape (place_children ax cs ws pos) = map shape cs.
Proof.
  induction cs as [|c cs IH]; intros [|w ws] pos Hl; simpl in *; try discriminate; [reflexivity|].
  rewrite shape_updateChildSizes, shape_set_pos, shape_set_size, IH by lia. reflexivity.
Qed.

Lemma new_sizes_length ax cs : forall i k target other remaining n,
  List.length (new_sizes ax i k target other remaining n cs) = List.length cs.
Proof. induction cs as [|c cs IH]; intros; simpl; [reflexivity | rewrite IH; reflexivity]. Qed.

Lemma add_at_nat_length xs : forall k d, List.length (add_at_nat xs k d) = List.length xs.
Proof.
  induction xs as [|x xs IH]; intros [|k] d; simpl; try reflexivity. rewrite IH. reflexivity.
Qed.

Lemma add_at_Ok xs idx d :
  0 <= idx < GoInt.len xs -> add_at xs idx d = Ok (add_at_nat xs (Z.to_nat idx) d).
Proof.
  intros [H1 H2]. unfold add_at.
  apply Z.leb_le in H1. apply Z.ltb_lt in H2. rewrite H1, H2. reflexivity.
Qed.

(** A zoom with an index inside the children returns, and changes
    nothing but sizes and positions. *)
Lemma applyAxisZoom_shape ax t idx p :
  0 <= idx < GoInt.len (Children t) ->
  exists t', applyAxisZoom ax t idx p = Ok t' /\ shape t' = shape t.
Proof.
  intros Hidx. unfold applyAxisZoom.
  destruct (GoInt.len (Children t) <=? 1); [eauto|].
  set (ws := new_sizes _ _ _ _ _ _ _ _).
  assert (Hl : List.length ws = List.length (Children t)) by apply new_sizes_length.
  destruct (negb _).
  - rewrite add_at_Ok by (unfold GoInt.len in *; rewrite Hl; assumption).
    cbn [bind]. eexists; split; [reflexivity|].
    apply shape_set_children, shape_place_children. rewrite add_at_nat_length. exact Hl.
  - cbn [bind]. eexists; split; [reflexivity|].
    apply shape_set_children, shape_place_children. exact Hl.
Qed.

Lemma zoom_by_split_shape t idx p :
  0 <= idx < GoInt.len (Children t) ->
  exists t', zoom_by_split t idx p = Ok t' /\ shape t' = shape t.
Proof.
  intros H. unfold zoom_by_split. destruct (splitType t); [eauto | |];
    apply applyAxisZoom_shape; assumption.
Qed.

Lemma find_active_range cs id : forall i,
  find_active i cs id = -1 \/ i <= find_active i cs id < i + GoInt.len cs.
Proof.
  unfold GoInt.len. induction cs as [|c cs IH]; intros i; simpl; [auto|].
  destruct (containsPane c id); [right; lia|].
  destruct (IH (i + 1)) as [E|E]; [left; exact E | right; lia].
Qed.

Lemma existsb_ext_in {A} (f g : A -> bool) l :
  Forall (fun a => f a = g a) l -> existsb f l = existsb g l.
Proof. induction 1 as [|a l Ha _ IH]; simpl; congruence. Qed.

Lemma containsPane_shape t id : containsPane (shape t) id = containsPane t id.
Proof.
  induction t as [w h x y pid st cs IH] using LayoutNode_ind'. cbn [shape containsPane].
  destruct (pid =? id); [reflexivity|].
  induction IH as [|c cs Hc _ IHcs]; simpl; [reflexivity|]. rewrite Hc, IHcs. reflexivity.
Qed.

Lemma countPanes_shape t : countPanes (shape t) = countPanes t.
Proof.
  induction t as [w h x y pid st cs IH] using LayoutNode_ind'. cbn [shape countPanes].
  destruct st; [reflexivity | |];
    generalize 0; induction IH as [|c cs Hc _ IHcs]; intros acc; simpl;
      try reflexivity; rewrite Hc; apply IHcs.
Qed.

Lemma depth_shape t : depth (shape t) = depth t.
Proof.
  induction t as [w h x y pid st cs IH] using LayoutNode_ind'. cbn [shape depth].
  f_equal. induction IH as [|c cs Hc _ IHcs]; simpl; [reflexivity|]. rewrite Hc, IHcs. reflexivity.
Qed.

Lemma shape_eq_containsPane t t' id : shape t = shape t' -> containsPane t id = containsPane t' id.
Proof. intros E. rewrite <- (containsPane_shape t), <- (containsPane_shape t'), E. reflexivity. Qed.

Lemma shape_eq_countPanes t t' : shape t = shape t' -> countPanes t = countPanes t'.
Proof. intros E. rewrite <- (countPanes_shape t), <- (countPanes_shape t'), E. reflexivity. Qed.

Lemma shape_eq_depth t t' : shape t = shape t' -> depth t = depth t'.
Proof. intros E. rewrite <- (depth_shape t), <- (depth_shape t'), E. reflexivity. Qed.

Lemma shape_Children t t' : shape t = shape t' -> map shape (Children t) = map shape (Children t').
Proof. destruct t, t'; simpl. congruence. Qed.

Lemma depth_child_lt t c : In c (Children t) -> (depth c < depth t)%nat.
Proof.
  destruct t as [w h x y pid st cs]. cbn [Children depth]. intros H.
  induction cs as [|a cs IH]; simpl in *; [contradiction|].
  destruct H as [->|H]; [lia | specialize (IH H); lia].
Qed.

(** With a budget of the depth of the tree, [applyNestedZoom_rec]
    returns, and it changes nothing but sizes and positions. *)
Lemma applyNestedZoom_rec_shape id p fuel : forall t,
  (depth t <= fuel)%nat ->
  exists t', applyNestedZoom_rec fuel t id p = Ok t' /\ shape t' = shape t.
Proof.
  induction fuel as [|fuel IH]; intros t Hd.
  - destruct t; simpl in Hd; lia.
  - cbn [applyNestedZoom_rec].
    match goal with
    | |- context [on_first _ ?g _] => set (f := g)
    end.
    assert (Hf : forall c, In c (Children t) -> exists c', f c = Ok c' /\ shape c' = shape c).
    { intros c Hc. unfold f.
      destruct (1 <? GoInt.len (Children c)); [|eauto].
      destruct (Z.leb_spec 0 (find_active 0 (Children c) id)) as [Hge|]; [|eauto].
      destruct (find_active_range (Children c) id 0) as [E|E]; [lia|].
      destruct (zoom_by_split_shape c (find_active 0 (Children c) id) p ltac:(lia)) as (c1 & E1 & S1).
      rewrite E1. cbn [bind].
      destruct (IH c1) as (c2 & E2 & S2).
      { rewrite (shape_eq_depth c1 c S1). apply depth_child_lt in Hc. lia. }
      exists c2. split; [exact E2 | congruence]. }
    clearbody f.
    assert (Hon : exists cs', on_first (fun child => containsPane child id) f (Children t) = Ok cs'
                             /\ map shape cs' = map shape (Children t)).
    { induction (Children t) as [|c cs IHcs]; [simpl; eauto|].
      cbn [on_first]. destruct (containsPane c id).
      - destruct (Hf c (or_introl eq_refl)) as (c' & -> & Sc). cbn [bind].
        eexists; split; [reflexivity|]. simpl. congruence.
      - destruct IHcs as (cs' & -> & Scs); [intros; apply Hf; right; assumption|].
        cbn [bind]. eexists; split; [reflexivity|]. simpl. congruence. }
    destruct Hon as (cs' & -> & Scs). cbn [bind].
    eexists; split; [reflexivity|]. apply shape_set_children, Scs.
Qed.

Lemma ApplyZoomToLayout_shape t id p :
  exists t', ApplyZoomToLayout t id p = Ok t' /\ shape t' = shape t.
Proof.
  unfold ApplyZoomToLayout. rewrite copyLayoutNode_id.
  destruct (find_active_range (Children t) id 0) as [E|E].
  - rewrite E. cbn. eauto.
  - destruct (Z.eqb_spec (find_active 0 (Children t) id) (-1)); [lia|].
    apply zoom_by_split_shape. lia.
Qed.

Lemma zoomTransform_shape t id p :
  exists t', zoomTransform t id p = Ok t' /\ shape t' = shape t.
Proof.
  unfold zoomTransform. destruct (ApplyZoomToLayout_shape t id p) as (t1 & -> & S1).
  cbn [bind]. unfold applyNestedZoom.
  destruct (applyNestedZoom_rec_shape id p (depth t1) t1 (Nat.le_refl _)) as (t2 & -> & S2).
  exists t2. split; [reflexivity | congruence].
Qed.

(** C8. For every tree, target pane id and percent, the zoom transform
    returns a tree, and that tree has as many leaf panes as the input;
    so has the tree [ApplyZoomToLayout] returns on its own. *)
Theorem zoom_preserves_countPanes :
  forall t activePaneID zoomPercent,
    (exists zoomed, zoomTransform t activePaneID zoomPercent = Ok zoomed
                    /\ countPanes zoomed = countPanes t)
    /\ (exists zoomed, ApplyZoomToLayout t activePaneID zoomPercent = Ok zoomed
                       /\ countPanes zoomed = countPanes t).
Proof.
  intros t id p. split.
  - destruct (zoomTransform_shape t id p) as (t' & E & S).
    exists t'. split; [exact E | apply shape_eq_countPanes, S].
  - destruct (ApplyZoomToLayout_shape t id p) as (t' & E & S).
    exists t'. split; [exact E | apply shape_eq_countPanes, S].
Qed.

(** ** The worked example (C3) *)

(** C3. The layout of the test suite decodes to a width split of three
    children of widths 84, 85 and 84.  Zoomed on pane 26 at 65 percent,
    the first column gets (255 - 2) * 65 / 100 = 164 cells and the one
    cell the truncations left over, 165; the other two get their shares
    85 * 89 / 169 and 84 * 89 / 169 of the 89 remaining cells, 44 each;
    panes 26 and 41 are as wide as their column; and the three widths and
    two border cells are the 255 cells of the window. *)
Theorem three_columns_zoom_26 :
  ParseLayout layout_three_columns = Ok tree_three_columns
  /\ splitType tree_three_columns = SplitHorizontal
  /\ map Width (Children tree_three_columns) = [84; 85; 84]
  /\ ApplyZoomToLayout tree_three_columns 26 65
     = Ok (hsplit 255 61 0 0
             [ vsplit 165 61 0 0 [ leaf 165 30 0 0 26; leaf 165 30 0 31 41 ];
               leaf 44 61 166 0 36;
               leaf 44 61 211 0 42 ])
  /\ zoomTransform tree_three_columns 26 65
     = Ok (hsplit 255 61 0 0
             [ vsplit 165 61 0 0 [ leaf 165 39 0 0 26; leaf 165 21 0 40 41 ];
               leaf 44 61 166 0 36;
               leaf 44 61 211 0 42 ])
  /\ (255 - 2) * 65 / 100 = 164
  /\ 165 = 164 + ((255 - 2) - (164 + 44 + 44))
  /\ 44 = 85 * ((255 - 2) - 164) / (85 + 84)
  /\ 44 = 84 * ((255 - 2) - 164) / (85 + 84)
  /\ 165 + 44 + 44 + 2 = 255.
Proof.
  repeat match goal with |- _ /\ _ => split end; vm_compute; reflexivity.
Qed.

(** ** Size conservation (C1) *)

(** C1, at a layout where it fails.  [layout_nested_columns] satisfies
    the size invariant at every split.  Zoomed on pane 1 at 65 percent,
    the first column becomes 130 cells wide and hands that width to its
    two rows; the lower row is a width split, whose children
    [updateChildWidths] leaves at 50 and 49 cells: 50 + 49 + 1 is not
    130. *)
Theorem nested_columns_not_conserved :
  ParseLayout layout_nested_columns = Ok tree_nested_columns
  /\ conserved tree_nested_columns = true
  /\ zoomTransform tree_nested_columns 1 65
     = Ok (hsplit 201 61 0 0
             [ vsplit 130 61 0 0
                 [ leaf 130 39 0 0 1;
                   hsplit 130 21 0 40 [ leaf 50 21 0 31 2; leaf 49 21 51 31 3 ] ];
               leaf 70 61 131 0 4 ])
  /\ conserved_here (hsplit 130 21 0 40 [ leaf 50 21 0 31 2; leaf 49 21 51 31 3 ]) = false
  /\ conserved (hsplit 201 61 0 0
             [ vsplit 130 61 0 0
                 [ leaf 130 39 0 0 1;
                   hsplit 130 21 0 40 [ leaf 50 21 0 31 2; leaf 49 21 51 31 3 ] ];
               leaf 70 61 131 0 4 ]) = false.
Proof.
  repeat match goal with |- _ /\ _ => split end; vm_compute; reflexivity.
Qed.

(** ** The share of the active child (C7) *)

Lemma wrap_id z : - 2 ^ 63 <= z < 2 ^ 63 -> GoInt.wrap z = z.
Proof. intros H. unfold GoInt.wrap. rewrite Z.mod_small; lia. Qed.

(** The two parts of a list of children around position [k]. *)
Lemma split_at_nth {A} (l : list A) k a :
  nth_error l k = Some a ->
  exists l1 l2, l = l1 ++ a :: l2 /\ List.length l1 = k.
Proof.
  revert k; induction l as [|b l IH]; intros [|k] H; simpl in H; try discriminate.
  - injection H as ->. exists [], l. auto.
  - destruct (IH k H) as (l1 & l2 & -> & Hl). exists (b :: l1), l2. simpl. auto.
Qed.

Lemma find_active_nth cs id : forall i k,
  0 <= i ->
  find_active i cs id = i + Z.of_nat k ->
  exists c, nth_error cs k = Some c /\ containsPane c id = true.
Proof.
  induction cs as [|c cs IH]; intros i k Hi H; simpl in H.
  - lia.
  - destruct (containsPane c id) eqn:E.
    + assert (k = O) by lia. subst k. exists c. auto.
    + destruct k as [|k].
      * destruct (find_active_range cs id (i + 1)) as [E1|E1]; lia.
      * apply (IH (i + 1) k); lia.
Qed.

Section Shares.
Variable ax : Axis.
Variables k_idx target other remaining n : Z.

Lemma new_sizes_before cs : forall i,
  i + GoInt.len cs <= k_idx ->
  new_sizes ax i k_idx target other remaining n cs = map (go_share ax other remaining n) cs.
Proof.
  unfold GoInt.len. induction cs as [|c cs IH]; intros i Hi; simpl; [reflexivity|].
  destruct (Z.eqb_spec i k_idx); [simpl in Hi; lia|].
  rewrite IH by (simpl in Hi; lia). reflexivity.
Qed.

Lemma new_sizes_after cs : forall i,
  k_idx < i ->
  new_sizes ax i k_idx target other remaining n cs = map (go_share ax other remaining n) cs.
Proof.
  induction cs as [|c cs IH]; intros i Hi; simpl; [reflexivity|].
  destruct (Z.eqb_spec i k_idx); [lia|].
  rewrite IH by lia. reflexivity.
Qed.

Lemma new_sizes_split l1 c l2 : forall i,
  k_idx = i + GoInt.len l1 ->
  new_sizes ax i k_idx target other remaining n (l1 ++ c :: l2)
  = map (go_share ax other remaining n) l1 ++ target :: map (go_share ax other remaining n) l2.
Proof.
  unfold GoInt.len. induction l1 as [|a l1 IH]; intros i Hi; simpl in *.
  - destruct (Z.eqb_spec i k_idx); [|lia]. rewrite new_sizes_after by lia. reflexivity.
  - destruct (Z.eqb_spec i k_idx); [lia|]. rewrite IH by lia. reflexivity.
Qed.

Lemma sum_other_skip cs : forall i acc,
  k_idx < i \/ i + GoInt.len cs <= k_idx ->
  sum_other ax i k_idx cs acc
  = fold_left GoInt.add (map (size_of ax) cs) acc.
Proof.
  unfold GoInt.len. induction cs as [|c cs IH]; intros i acc Hi; simpl; [reflexivity|].
  destruct (Z.eqb_spec i k_idx); [simpl in Hi; lia|].
  apply IH. simpl in Hi. lia.
Qed.

Lemma sum_other_split l1 c l2 : forall i acc,
  k_idx = i + GoInt.len l1 ->
  sum_other ax i k_idx (l1 ++ c :: l2) acc
  = fold_left GoInt.add (map (size_of ax) (l1 ++ l2)) acc.
Proof.
  unfold GoInt.len. induction l1 as [|a l1 IH]; intros i acc Hi; simpl in *.
  - destruct (Z.eqb_spec i k_idx); [|lia]. apply sum_other_skip. lia.
  - destruct (Z.eqb_spec i k_idx); [lia|]. apply IH. lia.
Qed.
End Shares.

(** A sum of at most 2^31 + 1 sizes of at most 2^31 cells does not wrap. *)
Lemma fold_add_no_wrap l : forall acc,
  Forall (fun v => 0 <= v <= 2 ^ 31) l ->
  0 <= acc -> acc + Z.of_nat (List.length l) * 2 ^ 31 < 2 ^ 63 ->
  fold_left GoInt.add l acc = acc + sum_Z l.
Proof.
  induction l as [|v l IH]; intros acc Hl Hacc Hb; simpl; [lia|].
  inversion Hl as [|? ? Hv Hl']; subst.
  cbn [List.length] in Hb. rewrite Nat2Z.inj_succ in Hb.
  unfold GoInt.add at 2. rewrite wrap_id by lia.
  rewrite IH by (auto; lia). lia.
Qed.

Lemma sum_Z_app l1 l2 : sum_Z (l1 ++ l2) = sum_Z l1 + sum_Z l2.
Proof. induction l1; simpl; lia. Qed.

Lemma sum_Z_nonneg l : Forall (fun v => 0 <= v) l -> 0 <= sum_Z l.
Proof. induction 1; simpl; lia. Qed.

Lemma sum_Z_bound l b : Forall (fun v => 0 <= v <= b) l ->
  0 <= sum_Z l <= Z.of_nat (List.length l) * b.
Proof.
  induction 1 as [|v l Hv _ IH]; [simpl; lia|].
  cbn [sum_Z fold_right List.length]. fold (sum_Z l). rewrite Nat2Z.inj_succ. lia.
Qed.

Lemma sum_Z_member_le l v : Forall (fun v => 0 <= v) l -> In v l -> v <= sum_Z l.
Proof.
  induction 1 as [|a l Ha Hl IH]; simpl; intros Hin; [contradiction|].
  pose proof (sum_Z_nonneg l Hl). fold (sum_Z l).
  destruct Hin as [->|Hin]; [lia | specialize (IH Hin); lia].
Qed.

(** The truncated proportional shares add up to the remainder less at
    most one cell per share. *)
Lemma proportional_shares ws R W :
  0 < W -> 0 <= R -> Forall (fun w => 0 <= w) ws ->
  W * sum_Z (map (fun w => w * R / W) ws) <= R * sum_Z ws
  /\ R * sum_Z ws <= W * sum_Z (map (fun w => w * R / W) ws)
                     + Z.of_nat (List.length ws) * (W - 1).
Proof.
  intros HW HR H. induction H as [|w ws Hw _ IH].
  - simpl. lia.
  - cbn [map sum_Z fold_right List.length]. fold (sum_Z ws).
    fold (sum_Z (map (fun w => w * R / W) ws)).
    rewrite Nat2Z.inj_succ.
    pose proof (Z.div_mod (w * R) W ltac:(lia)) as E.
    pose proof (Z.mod_pos_bound (w * R) W HW) as M.
    nia.
Qed.

Lemma sum_Z_map_const {A} (l : list A) v : sum_Z (map (fun _ => v) l) = Z.of_nat (List.length l) * v.
Proof.
  induction l as [|a l IH]; [reflexivity|].
  cbn [map sum_Z fold_right List.length]. fold (sum_Z (map (fun _ : A => v) l)).
  rewrite IH, Nat2Z.inj_succ. lia.
Qed.

Lemma go_share_math ax W remaining n c :
  0 <= remaining <= 2 ^ 31 -> 2 <= n <= 2 ^ 31 + 1 -> 0 <= size_of ax c <= 2 ^ 31 ->
  go_share ax W remaining n c = math_share ax W remaining n c.
Proof.
  intros HR Hn Hc. unfold go_share, math_share, GoInt.div, GoInt.mul, GoInt.sub.
  assert (P62 : 2 ^ 31 * 2 ^ 31 < 2 ^ 63) by (vm_compute; reflexivity).
  destruct (Z.ltb_spec 0 W).
  - assert (0 <= size_of ax c * remaining <= 2 ^ 31 * 2 ^ 31) by nia.
    rewrite (wrap_id (size_of ax c * remaining)) by lia.
    rewrite Z.quot_div_nonneg by lia.
    assert (0 <= size_of ax c * remaining / W <= size_of ax c * remaining).
    { split; [apply Z.div_pos; lia|]. apply Z.div_le_upper_bound; nia. }
    apply wrap_id. lia.
  - rewrite (wrap_id (n - 1)) by lia.
    rewrite Z.quot_div_nonneg by lia.
    assert (0 <= remaining / (n - 1) <= remaining).
    { split; [apply Z.div_pos; lia|]. apply Z.div_le_upper_bound; nia. }
    apply wrap_id. lia.
Qed.

Lemma size_of_set_size ax t v : size_of ax (set_size ax t v) = v.
Proof. destruct t, ax; reflexivity. Qed.

Lemma size_of_updateChildSizes ax t v : size_of ax (updateChildSizes ax t v) = v.
Proof. destruct t. cbn [updateChildSizes]. apply size_of_set_size. Qed.

Lemma place_children_sizes ax cs : forall ws pos,
  List.length ws = List.length cs ->
  map (size_of ax) (place_children ax cs ws pos) = ws.
Proof.
  induction cs as [|c cs IH]; intros [|w ws] pos Hl; simpl in *; try discriminate; [reflexivity|].
  rewrite size_of_updateChildSizes, IH by lia. reflexivity.
Qed.

Lemma add_at_nat_split l1 v l2 d :
  add_at_nat (l1 ++ v :: l2) (List.length l1) d = l1 ++ GoInt.add v d :: l2.
Proof. induction l1 as [|a l1 IH]; simpl; [reflexivity | rewrite IH; reflexivity]. Qed.

(** What the distribution of [applyAxisZoom] comes to when no
    intermediate result leaves the range of [int]. *)
Section Distribution.
Variable ax : Axis.
Variable t : LayoutNode.
Variable p : Z.
Variables (l1 l2 : list LayoutNode) (c : LayoutNode).

Let n := GoInt.len (Children t).
Let avail := size_of ax t - (n - 1).
Let share := avail * p / 100.
Let rem := avail - share.
Let W := sum_Z (map (size_of ax) (l1 ++ l2)).
Let q := math_share ax W rem n.

Hypothesis Hcs : Children t = l1 ++ c :: l2.
Hypothesis Hn : 2 <= n.
Hypothesis Hp : 0 <= p <= 100.
Hypothesis Hsize : n - 1 <= size_of ax t <= 2 ^ 31.
Hypothesis Hchildren : Forall (fun c => 0 <= size_of ax c <= 2 ^ 31) (Children t).

Lemma dist_others : Forall (fun c => 0 <= size_of ax c <= 2 ^ 31) (l1 ++ l2).
Proof.
  rewrite Hcs in Hchildren. apply Forall_app in Hchildren. destruct Hchildren as [H1 H2].
  inversion H2; subst. apply Forall_app. auto.
Qed.

Lemma dist_len : Z.of_nat (List.length (l1 ++ l2)) = n - 1.
Proof.
  unfold n, GoInt.len. rewrite Hcs, !length_app. cbn [List.length]. lia.
Qed.

Lemma dist_avail : 0 <= avail <= 2 ^ 31.
Proof. unfold avail. lia. Qed.

Lemma dist_share : 0 <= share <= avail.
Proof.
  pose proof dist_avail. unfold share. split.
  - apply Z.div_pos; nia.
  - apply Z.div_le_upper_bound; nia.
Qed.

Lemma dist_rem : 0 <= rem <= 2 ^ 31.
Proof. pose proof dist_avail. pose proof dist_share. unfold rem. lia. Qed.

Lemma dist_W : 0 <= W <= (n - 1) * 2 ^ 31.
Proof.
  unfold W. rewrite <- dist_len, <- (length_map (size_of ax)).
  apply sum_Z_bound. apply Forall_map. apply dist_others.
Qed.

(** Every sibling gets at most the remainder. *)
Lemma dist_q_le c' : In c' (l1 ++ l2) -> 0 <= q c' <= rem.
Proof.
  intros Hin. pose proof dist_rem as HR. pose proof dist_W as HW.
  pose proof dist_others as Ho. rewrite Forall_forall in Ho. specialize (Ho c' Hin).
  unfold q, math_share. destruct (Z.ltb_spec 0 W).
  - assert (size_of ax c' <= W).
    { unfold W. apply sum_Z_member_le.
      - apply Forall_map. eapply Forall_impl; [|apply dist_others]. simpl. lia.
      - apply in_map. exact Hin. }
    split; [apply Z.div_pos; nia | apply Z.div_le_upper_bound; nia].
  - split; [apply Z.div_pos; lia | apply Z.div_le_upper_bound; nia].
Qed.

(** The siblings together get the remainder less at most [n - 2]
    cells. *)
Lemma dist_sum_q :
  sum_Z (map q (l1 ++ l2)) <= rem /\ rem - sum_Z (map q (l1 ++ l2)) <= n - 2.
Proof.
  pose proof dist_rem as HR. pose proof dist_W as HW. pose proof dist_len as Hl.
  unfold q, math_share. destruct (Z.ltb_spec 0 W) as [Hpos|Hzero].
  - destruct (proportional_shares (map (size_of ax) (l1 ++ l2)) rem W Hpos (proj1 HR)) as [A B].
    { apply Forall_map. eapply Forall_impl; [|apply dist_others]. simpl. lia. }
    rewrite map_map in A, B. rewrite length_map, Hl in B. fold W in A, B.
    set (s := sum_Z (map (fun x => size_of ax x * rem / W) (l1 ++ l2))) in *.
    split; nia.
  - rewrite sum_Z_map_const, Hl.
    pose proof (Z.div_mod rem (n - 1) ltac:(lia)) as E.
    pose proof (Z.mod_pos_bound rem (n - 1) ltac:(lia)) as M.
    split; nia.
Qed.

Lemma dist_q_range : Forall (fun v => 0 <= v <= 2 ^ 31) (map q (l1 ++ l2)).
Proof.
  apply Forall_map, Forall_forall. intros c' Hc'.
  pose proof (dist_q_le c' Hc'). pose proof dist_rem. lia.
Qed.

Lemma dist_go_share l :
  incl l (l1 ++ l2) -> map (go_share ax W rem n) l = map q l.
Proof.
  intros Hincl. apply map_ext_in. intros c' Hc'.
  pose proof dist_others as Ho. rewrite Forall_forall in Ho.
  apply go_share_math; [apply dist_rem | | apply Ho, Hincl, Hc'].
  pose proof dist_len. pose proof dist_avail. unfold avail in *. lia.
Qed.

Lemma applyAxisZoom_sizes :
  applyAxisZoom ax t (GoInt.len l1) p
  = Ok (set_children t
          (place_children ax (Children t)
             (map q l1 ++ (avail - sum_Z (map q (l1 ++ l2))) :: map q l2)
             (pos_of ax t))).
Proof.
  pose proof dist_avail as Ha. pose proof dist_share as Hs. pose proof dist_rem as Hr.
  pose proof dist_W as HW. pose proof dist_len as Hl. pose proof dist_sum_q as [Hq1 Hq2].
  assert (P62 : (2 ^ 31 + 1) * 2 ^ 31 < 2 ^ 63) by (vm_compute; reflexivity).
  assert (Hn' : n <= 2 ^ 31 + 1) by (unfold avail in Ha; lia).
  unfold applyAxisZoom. fold n.
  destruct (Z.leb_spec n 1); [lia|].
  assert (E1 : GoInt.sub n 1 = n - 1) by (apply wrap_id; lia).
  rewrite E1.
  assert (E2 : GoInt.sub (size_of ax t) (n - 1) = avail) by (apply wrap_id; unfold avail; lia).
  rewrite E2.
  assert (E3 : GoInt.div (GoInt.mul avail p) 100 = share).
  { unfold GoInt.div, GoInt.mul. rewrite (wrap_id (avail * p)) by nia.
    rewrite Z.quot_div_nonneg by nia. apply wrap_id. fold share. lia. }
  rewrite E3.
  assert (E4 : GoInt.sub avail share = rem) by (apply wrap_id; unfold rem; lia).
  rewrite E4.
  assert (E5 : sum_other ax 0 (GoInt.len l1) (Children t) 0 = W).
  { rewrite Hcs, sum_other_split by lia.
    rewrite fold_add_no_wrap; [reflexivity | | lia |].
    - apply Forall_map, dist_others.
    - rewrite length_map, Hl. nia. }
  rewrite E5.
  assert (E6 : new_sizes ax 0 (GoInt.len l1) share W rem n (Children t)
               = map q l1 ++ share :: map q l2).
  { rewrite Hcs, new_sizes_split by lia.
    rewrite !dist_go_share by (intros ? ?; apply in_or_app; auto). reflexivity. }
  rewrite E6.
  assert (Hq : Forall (fun v => 0 <= v <= 2 ^ 31) (map q l1 ++ share :: map q l2)).
  { pose proof dist_q_range as Hq. rewrite map_app in Hq. apply Forall_app in Hq.
    destruct Hq. apply Forall_app. split; [assumption|]. constructor; [lia | assumption]. }
  assert (E7 : sum_sizes (map q l1 ++ share :: map q l2) = share + sum_Z (map q (l1 ++ l2))).
  { unfold sum_sizes. rewrite fold_add_no_wrap; auto; [| lia |].
    - rewrite map_app, !sum_Z_app. cbn [sum_Z fold_right]. fold (sum_Z (map q l2)). lia.
    - rewrite length_app. cbn [List.length]. rewrite !length_map.
      rewrite length_app in Hl. nia. }
  rewrite E7.
  set (sq := sum_Z (map q (l1 ++ l2))) in *.
  destruct (Z.eqb_spec (share + sq) avail) as [Eu|Eu]; cbn [negb bind].
  - replace (avail - sq) with share by lia. reflexivity.
  - rewrite add_at_Ok.
    2:{ unfold GoInt.len. rewrite length_app. cbn [List.length]. rewrite !length_map. lia. }
    unfold GoInt.len. rewrite Nat2Z.id, <- (length_map q l1), add_at_nat_split.
    cbn [bind]. do 4 f_equal.
    unfold GoInt.add, GoInt.sub. rewrite (wrap_id (avail - (share + sq))) by lia.
    assert (Hrange : - 2 ^ 63 <= share + (avail - (share + sq)) < 2 ^ 63).
    { clear -Ha Hs Hr Hq1 Hq2 Hn Hn'. clearbody sq rem share avail n. lia. }
    rewrite (wrap_id _ Hrange). f_equal. lia.
Qed.
End Distribution.

Lemma size_of_frame ax t : size_of ax t = frame_size ax (frame t).
Proof. destruct t, ax; reflexivity. Qed.

Lemma map_frame_sizes ax l l' :
  map frame l = map frame l' -> map (size_of ax) l = map (size_of ax) l'.
Proof.
  intros E.
  rewrite (map_ext _ _ (size_of_frame ax)), <- (map_map frame (frame_size ax)), E, map_map.
  symmetry. apply map_ext, size_of_frame.
Qed.

Lemma frame_set_children t cs : frame (set_children t cs) = frame t.
Proof. destruct t; reflexivity. Qed.

Lemma applyAxisZoom_frame ax t idx p t' :
  applyAxisZoom ax t idx p = Ok t' -> frame t' = frame t.
Proof.
  unfold applyAxisZoom. destruct (GoInt.len (Children t) <=? 1); [congruence|].
  intros H. inv_bind H. injection H as <-. apply frame_set_children.
Qed.

Lemma zoom_by_split_frame t idx p t' :
  zoom_by_split t idx p = Ok t' -> frame t' = frame t.
Proof.
  unfold zoom_by_split. destruct (splitType t); [congruence | |]; apply applyAxisZoom_frame.
Qed.

Lemma on_first_map {E A B} (g : A -> B) (test : A -> bool) (f : A -> result E A) l : forall l',
  (forall a a', f a = Ok a' -> g a' = g a) ->
  on_first test f l = Ok l' -> map g l' = map g l.
Proof.
  induction l as [|a l IH]; intros l' Hf H; simpl in H.
  - injection H as <-. reflexivity.
  - destruct (test a); inv_bind H; injection H as <-; simpl; f_equal; auto.
Qed.

(** [applyNestedZoom] resizes below the children of the node it is
    given: the node and its children keep their own geometry. *)
Lemma applyNestedZoom_rec_frame id p fuel : forall t t',
  applyNestedZoom_rec fuel t id p = Ok t' ->
  frame t' = frame t /\ map frame (Children t') = map frame (Children t).
Proof.
  induction fuel as [|fuel IH]; intros t t' H; [discriminate|].
  cbn [applyNestedZoom_rec] in H. inv_bind H. injection H as <-.
  split; [apply frame_set_children|].
  destruct t as [w h x y pid st cs]. cbn [set_children Children] in *.
  eapply on_first_map; [|eassumption].
  intros a a' Ha. cbv beta in Ha.
  destruct (1 <? GoInt.len (Children a)); [|congruence].
  destruct (0 <=? find_active 0 (Children a) id); [|congruence].
  inv_bind Ha.
  match goal with Hz : zoom_by_split _ _ _ = Ok _ |- _ => apply zoom_by_split_frame in Hz; rewrite <- Hz end.
  apply IH, Ha.
Qed.

(** C7, as the code has it.  Let the root be split along an axis, with
    at least two children, the first child that contains the target
    being child [k]; let the percent be between 0 and 100 and the sizes
    be those of a window: no child negative, the root at least as large
    as its borders, nothing beyond 2^31 cells.  Then the zoom transform
    returns a tree in which child [k] has the size
    [available * percent / 100] plus a rounding adjustment between 0 and
    [n - 2] cells, where [available] is the size of the root less one
    border cell per gap; the children and the borders make up the size
    of the root; and whenever that base share is at least half of
    [available], child [k] is at least as large as every sibling. *)
Theorem zoom_target_share :
  forall (ax : Axis) (t : LayoutNode) (activePaneID zoomPercent : Z) (k : nat),
    splitType t = along_split ax ->
    2 <= GoInt.len (Children t) ->
    find_active 0 (Children t) activePaneID = Z.of_nat k ->
    0 <= zoomPercent <= 100 ->
    GoInt.len (Children t) - 1 <= size_of ax t <= 2 ^ 31 ->
    Forall (fun c => 0 <= size_of ax c <= 2 ^ 31) (Children t) ->
    let n := GoInt.len (Children t) in
    let available := size_of ax t - (n - 1) in
    let share := available * zoomPercent / 100 in
    exists zoomed target adjustment,
      zoomTransform t activePaneID zoomPercent = Ok zoomed
      /\ nth_error (Children zoomed) k = Some target
      /\ size_of ax target = share + adjustment
      /\ 0 <= adjustment <= n - 2
      /\ sum_Z (map (size_of ax) (Children zoomed)) + (n - 1) = size_of ax t
      /\ (available <= 2 * share ->
          Forall (fun sibling => size_of ax sibling <= size_of ax target) (Children zoomed)).
Proof.
  intros ax t id p k Hst Hn Hfind Hp Hsize Hchildren n available share.
  destruct (find_active_nth (Children t) id 0 k ltac:(lia) ltac:(lia)) as (c & Hnth & _).
  destruct (split_at_nth _ _ _ Hnth) as (l1 & l2 & Hcs & Hk).
  pose proof (applyAxisZoom_sizes ax t p l1 l2 c Hcs Hn Hp Hsize Hchildren) as Hz.
  pose proof (dist_sum_q ax t p l1 l2 c Hcs Hn Hp Hsize Hchildren) as [Hq1 Hq2].
  pose proof (dist_share ax t p l1 l2 Hn Hp Hsize) as Hshare.
  pose proof (dist_q_le ax t p l1 l2 c Hcs Hn Hp Hsize Hchildren) as Hqle.
  fold n in Hz, Hq1, Hq2, Hqle, Hshare. fold available in Hz, Hq1, Hq2, Hqle, Hshare.
  fold share in Hz, Hq1, Hq2, Hqle, Hshare.
  set (q := math_share ax _ _ n) in *.
  set (ws := map q l1 ++ (available - sum_Z (map q (l1 ++ l2))) :: map q l2) in *.
  assert (Hlen : List.length ws = List.length (Children t)).
  { unfold ws. rewrite Hcs, !length_app. cbn [List.length]. rewrite !length_map. reflexivity. }
  (* the zoom at the root *)
  assert (E1 : ApplyZoomToLayout t id p
               = Ok (set_children t (place_children ax (Children t) ws (pos_of ax t)))).
  { unfold ApplyZoomToLayout. rewrite copyLayoutNode_id, Hfind.
    destruct (Z.eqb_spec (Z.of_nat k) (-1)); [lia|].
    unfold zoom_by_split. rewrite Hst. rewrite <- Hz. unfold GoInt.len. rewrite Hk.
    destruct ax; reflexivity. }
  set (t1 := set_children t _) in E1.
  (* the nested zoom *)
  destruct (applyNestedZoom_rec_shape id p (depth t1) t1 (Nat.le_refl _)) as (t2 & E2 & _).
  destruct (applyNestedZoom_rec_frame id p _ _ _ E2) as [_ Hfr].
  apply (map_frame_sizes ax) in Hfr.
  assert (Hsizes : map (size_of ax) (Children t2) = ws).
  { rewrite Hfr. unfold t1. destruct t. cbn [set_children Children] in *.
    apply place_children_sizes. exact Hlen. }
  assert (Hk2 : nth_error (map (size_of ax) (Children t2)) k
                = Some (available - sum_Z (map q (l1 ++ l2)))).
  { rewrite Hsizes. unfold ws. rewrite nth_error_app2 by (rewrite length_map; lia).
    rewrite length_map, Hk, Nat.sub_diag. reflexivity. }
  rewrite nth_error_map in Hk2.
  destruct (nth_error (Children t2) k) as [target|] eqn:Htarget; [|discriminate].
  injection Hk2 as Hk2.
  exists t2, target, (available - share - sum_Z (map q (l1 ++ l2))).
  split; [unfold zoomTransform; rewrite E1; exact E2|].
  split; [exact Htarget|].
  split; [rewrite Hk2; lia|].
  split; [lia|].
  split.
  - rewrite Hsizes. unfold ws. rewrite sum_Z_app. cbn [sum_Z fold_right].
    fold (sum_Z (map q l2)). fold (sum_Z (map q l1)).
    rewrite map_app, sum_Z_app. unfold available. lia.
  - intros Hhalf.
    assert (Hall : Forall (fun v => v <= size_of ax target) (map (size_of ax) (Children t2))).
    { rewrite Hsizes, Hk2. unfold ws. apply Forall_app. split; [|constructor; [lia|]];
        apply Forall_map, Forall_forall; intros c' Hc';
        specialize (Hqle c' ltac:(apply in_or_app; auto)); lia. }
    rewrite Forall_map in Hall. exact Hall.
Qed.

(** C7 as the specification states it fails: a percent of at least
    100 / numChildren does not make the target the largest child.  In
    [layout_wide_middle], zoomed on pane 1 at 34 percent (34 * 3 >= 100),
    pane 1 gets 68 cells and the middle pane keeps 116. *)
Lemma wide_middle_target_not_largest :
  ParseLayout layout_wide_middle = Ok tree_wide_middle
  /\ containsPane tree_wide_middle 1 = true
  /\ 34 * GoInt.len (Children tree_wide_middle) >= 100
  /\ zoomTransform tree_wide_middle 1 34
     = Ok (hsplit 200 50 0 0 [ leaf 68 50 0 0 1; leaf 116 50 69 0 2; leaf 14 50 186 0 3 ])
  /\ ~ (Width (leaf 68 50 0 0 1) >= Width (leaf 116 50 69 0 2)).
Proof.
  repeat match goal with |- _ /\ _ => split end; try (vm_compute; reflexivity).
  - vm_compute. congruence.
  - vm_compute. intros H. apply H. reflexivity.
Qed.

(** ** A target that is not in the tree (C4) *)

(** In a well-formed tree only leaves carry a pane id other than -1, so
    for such an id [containsPane] is membership in the leaves. *)
Lemma containsPane_leaf_ids t id :
  well_formed t = true -> id <> -1 ->
  containsPane t id = true -> In id (leaf_ids t).
Proof.
  induction t as [w h x y pid st cs IH] using LayoutNode_ind'.
  cbn [well_formed containsPane leaf_ids]. intros Hwf Hid Hc.
  apply andb_true_iff in Hwf. destruct Hwf as [Hst Hcs].
  rewrite forallb_forall in Hcs. rewrite Forall_forall in IH.
  destruct st.
  - destruct cs; [|discriminate]. simpl in Hc.
    destruct (Z.eqb_spec pid id); [left; assumption | discriminate].
  - apply Z.eqb_eq in Hst. subst pid.
    destruct (Z.eqb_spec (-1) id); [congruence|].
    apply existsb_exists in Hc. destruct Hc as (c & Hin & Hc).
    apply in_flat_map. exists c. split; [exact Hin | apply IH; auto].
  - apply Z.eqb_eq in Hst. subst pid.
    destruct (Z.eqb_spec (-1) id); [congruence|].
    apply existsb_exists in Hc. destruct Hc as (c & Hin & Hc).
    apply in_flat_map. exists c. split; [exact Hin | apply IH; auto].
Qed.

Lemma find_active_none cs id : forall i,
  Forall (fun c => containsPane c id = false) cs -> find_active i cs id = -1.
Proof.
  intros i H. revert i. induction H as [|c cs Hc _ IH]; intros i; simpl; [reflexivity|].
  rewrite Hc. apply IH.
Qed.

Lemma absent_in_children t id :
  well_formed t = true -> id <> -1 -> ~ In id (leaf_ids t) ->
  Forall (fun c => containsPane c id = false) (Children t).
Proof.
  destruct t as [w h x y pid st cs]. cbn [well_formed leaf_ids Children].
  intros Hwf Hid Hnot. apply andb_true_iff in Hwf. destruct Hwf as [Hst Hcs].
  rewrite forallb_forall in Hcs. apply Forall_forall. intros c Hin.
  destruct (containsPane c id) eqn:E; [|reflexivity].
  exfalso. apply Hnot.
  destruct st; [destruct cs; [contradiction | discriminate] | |];
    apply in_flat_map; exists c; (split; [exact Hin|]);
    apply containsPane_leaf_ids; auto.
Qed.

Module HeapFacts.

Lemma repr_on_unfold P h w ht x y id st cs p :
  Heap.repr_on P h (mkLayoutNode w ht x y id st cs) p
  <-> P p /\ exists ps, Heap.load h p = Some (Heap.mkCell w ht x y id st ps)
                        /\ Forall2 (Heap.repr_on P h) cs ps.
Proof.
  cbn [Heap.repr_on].
  assert (E : forall cs ps,
    (fix all (cs : list LayoutNode) (ps : list Heap.ptr) {struct cs} : Prop :=
       match cs, ps with
       | [], [] => True
       | c :: cs', q :: ps' => Heap.repr_on P h c q /\ all cs' ps'
       | _, _ => False
       end) cs ps <-> Forall2 (Heap.repr_on P h) cs ps).
  { clear. induction cs as [|c cs IH]; intros [|q ps].
    - split; constructor.
    - split; [contradiction | intros H; inversion H].
    - split; [contradiction | intros H; inversion H].
    - split.
      + intros [H1 H2]. constructor; [exact H1 | apply IH, H2].
      + intros H. inversion H; subst. split; [assumption | apply IH; assumption]. }
  split; intros (HP & ps & Hl & Hall); (split; [exact HP|]); exists ps;
    (split; [exact Hl | apply E; exact Hall]).
Qed.

(** A tree stays where it is under any change of the heap that keeps
    the cells it occupies. *)
Lemma repr_on_frame P h h' t : forall p,
  (forall q c, P q -> Heap.load h q = Some c -> Heap.load h' q = Some c) ->
  Heap.repr_on P h t p -> Heap.repr_on P h' t p.
Proof.
  induction t as [w ht x y id st cs IH] using LayoutNode_ind'. intros p Hfr.
  rewrite !repr_on_unfold. intros (HP & ps & Hl & Hall).
  split; [exact HP|]. exists ps. split; [apply Hfr; assumption|].
  clear Hl. induction Hall as [|c q cs ps Hc _ IHall]; constructor.
  - inversion IH; subst. auto.
  - inversion IH; subst. auto.
Qed.

Lemma repr_on_weaken (P Q : Heap.ptr -> Prop) h t : forall p,
  (forall q, P q -> Q q) -> Heap.repr_on P h t p -> Heap.repr_on Q h t p.
Proof.
  induction t as [w ht x y id st cs IH] using LayoutNode_ind'. intros p HPQ.
  rewrite !repr_on_unfold. intros (HP & ps & Hl & Hall).
  split; [auto|]. exists ps. split; [exact Hl|].
  clear Hl. induction Hall as [|c q cs ps Hc _ IHall]; constructor;
    inversion IH; subst; auto.
Qed.

Lemma load_app h new q c : Heap.load h q = Some c -> Heap.load (h ++ new) q = Some c.
Proof.
  unfold Heap.load. intros H. rewrite nth_error_app1; [exact H|].
  apply nth_error_Some. congruence.
Qed.

Lemma load_store_other h : forall r c q, q <> r -> Heap.load (Heap.store h r c) q = Heap.load h q.
Proof.
  unfold Heap.load. induction h as [|a h IH]; intros [|r] c [|q] Hne; simpl; auto; congruence.
Qed.

Lemma store_app h c0 rest c : Heap.store (h ++ c0 :: rest) (List.length h) c = h ++ c :: rest.
Proof. induction h as [|a h IH]; simpl; [reflexivity | rewrite IH; reflexivity]. Qed.

Lemma load_middle h c rest : Heap.load (h ++ c :: rest) (List.length h) = Some c.
Proof. unfold Heap.load. rewrite nth_error_app2, Nat.sub_diag by lia. reflexivity. Qed.

Lemma repr_on_extend P h new t p : Heap.repr_on P h t p -> Heap.repr_on P (h ++ new) t p.
Proof. apply repr_on_frame. intros q c _. apply load_app. Qed.

(** [Heap.copyLayoutNode] leaves the heap it finds as it is and lays the
    same tree out in new cells, the same whatever the fuel. *)
Lemma copyLayoutNode_repr t : forall P h p,
  Heap.repr_on P h t p ->
  exists new,
    (forall fuel, (depth t <= fuel)%nat ->
       Heap.copyLayoutNode fuel h p = Ok (h ++ new, List.length h))
    /\ Heap.repr_on (fun q => (List.length h <= q)%nat) (h ++ new) t (List.length h).
Proof.
  induction t as [w ht x y id st cs IH] using LayoutNode_ind'.
  intros P h p Hr. apply repr_on_unfold in Hr. destruct Hr as (_ & ps & Hl & Hall).
  set (c0 := Heap.mkCell w ht x y id st []).
  set (h1 := h ++ [c0]).
  assert (Hloop : forall n1,
    exists n2 copies,
      (forall fuel, Forall (fun c => (depth c <= fuel)%nat) cs ->
      (fix loop (children : list Heap.ptr) (h : Heap.heap) : result Panic (Heap.heap * list Heap.ptr) :=
         match children with
         | [] => Ok (h, [])
         | child :: rest =>
           '(h, copy) <- Heap.copyLayoutNode fuel h child ;;
           '(h, copies) <- loop rest h ;;
           Ok (h, copy :: copies)
         end) ps (h1 ++ n1) = Ok (h1 ++ n1 ++ n2, copies))
      /\ Forall2 (Heap.repr_on (fun q => (List.length h1 <= q)%nat) (h1 ++ n1 ++ n2)) cs copies).
  { clear Hl. induction Hall as [|c q cs ps Hc Hall IHall]; intros n1.
    - exists [], []. rewrite app_nil_r. split; [reflexivity | constructor].
    - inversion IH as [|? ? IHc IHcs]; subst.
      destruct (IHc P (h1 ++ n1) q) as (n' & E1 & R1).
      { unfold h1. rewrite <- app_assoc. apply repr_on_extend. exact Hc. }
      destruct (IHall IHcs (n1 ++ n')) as (n2 & copies & E2 & R2).
      exists (n' ++ n2), (List.length (h1 ++ n1) :: copies).
      split.
      + intros fuel Hd. inversion Hd as [|? ? Hd1 Hd2]; subst.
        rewrite (E1 fuel Hd1). cbn [bind].
        specialize (E2 fuel Hd2).
        rewrite <- !app_assoc in *. rewrite E2. reflexivity.
      + constructor.
        * replace (h1 ++ n1 ++ n' ++ n2) with (((h1 ++ n1) ++ n') ++ n2)
            by (rewrite <- !app_assoc; reflexivity).
          apply repr_on_extend.
          eapply repr_on_weaken; [|exact R1].
          intros q0. cbv beta. rewrite !length_app. lia.
        * rewrite <- !app_assoc in R2. exact R2. }
  destruct (Hloop []) as (n2 & copies & E & R). cbn [app] in E, R.
  exists (Heap.mkCell w ht x y id st copies :: n2). split.
  - intros fuel Hd.
    destruct fuel as [|fuel]; [simpl in Hd; lia|].
    cbn [Heap.copyLayoutNode]. rewrite Hl.
    unfold Heap.alloc, Heap.with_children. cbn [Heap.cChildren Heap.cWidth Heap.cHeight Heap.cX Heap.cY Heap.cPaneID Heap.cSplit].
    fold c0. fold h1.
    specialize (E fuel). rewrite app_nil_r in E. rewrite E.
    2:{ apply Forall_forall. intros c Hc.
        pose proof (depth_child_lt (mkLayoutNode w ht x y id st cs) c Hc). lia. }
    cbn [bind]. unfold h1. rewrite <- app_assoc. cbn [app]. rewrite store_app. reflexivity.
  - apply repr_on_unfold. split; [lia|]. exists copies.
    split; [apply load_middle|].
    unfold h1 in R. rewrite <- app_assoc in R. cbn [app] in R.
    eapply Forall2_impl; [|exact R]. intros c q Hcq.
    eapply repr_on_weaken with (P := fun q => (List.length (h ++ [c0]) <= q)%nat).
    { intros q0. rewrite length_app. cbn [List.length]. lia. }
    eapply repr_on_frame; [|exact Hcq].
    intros q0 c1 Hq0 Hld. rewrite length_app in Hq0. cbn [List.length] in Hq0.
    rewrite <- Hld. rewrite <- (store_app h c0 n2 (Heap.mkCell w ht x y id st copies)).
    apply load_store_other. lia.
Qed.

Lemma containsPane_repr id t : forall P h p fuel,
  Heap.repr_on P h t p -> (depth t <= fuel)%nat ->
  Heap.containsPane fuel h p id = Ok (containsPane t id).
Proof.
  induction t as [w ht x y pid st cs IH] using LayoutNode_ind'.
  intros P h p fuel Hr Hd. apply repr_on_unfold in Hr. destruct Hr as (_ & ps & Hl & Hall).
  destruct fuel as [|fuel]; [simpl in Hd; lia|].
  cbn [Heap.containsPane containsPane]. unfold Heap.deref. rewrite Hl. cbn [orErr bind Heap.cPaneID Heap.cChildren].
  destruct (pid =? id); [reflexivity|].
  assert (Hdc : Forall (fun c => (depth c <= fuel)%nat) cs).
  { apply Forall_forall. intros c Hc.
    pose proof (depth_child_lt (mkLayoutNode w ht x y pid st cs) c Hc). lia. }
  clear Hl Hd. induction Hall as [|c q cs ps Hc Hall IHall]; [reflexivity|].
  inversion IH as [|? ? IHc IHcs]; subst. inversion Hdc as [|? ? Hdc1 Hdc2]; subst.
  rewrite (IHc P h q fuel Hc Hdc1). cbn [bind existsb].
  destruct (containsPane c id); [reflexivity|]. apply IHall; assumption.
Qed.

Lemma find_active_repr id P h fuel cs ps : forall i,
  Forall2 (Heap.repr_on P h) cs ps -> Forall (fun c => (depth c <= fuel)%nat) cs ->
  Heap.find_active fuel h i ps id = Ok (find_active i cs id).
Proof.
  intros i Hall Hd. revert i. induction Hall as [|c q cs ps Hc Hall IHall]; intros i; [reflexivity|].
  inversion Hd; subst. cbn [Heap.find_active find_active].
  rewrite (containsPane_repr id c P h q fuel) by assumption. cbn [bind].
  destruct (containsPane c id); [reflexivity|]. apply IHall. assumption.
Qed.

(** With no child that contains the target, [ApplyZoomToLayout]
    returns the copy it made and has written to nothing else. *)
Lemma ApplyZoomToLayout_absent t id pct h p :
  Heap.repr h t p ->
  Forall (fun c => containsPane c id = false) (Children t) ->
  exists new,
    (forall fuel, (depth t <= fuel)%nat ->
       Heap.ApplyZoomToLayout fuel h p id pct = Ok (h ++ new, List.length h))
    /\ Heap.repr_on (fun q => (List.length h <= q)%nat) (h ++ new) t (List.length h)
    /\ Heap.repr (h ++ new) t p.
Proof.
  intros Hr Habs.
  destruct (copyLayoutNode_repr t _ h p Hr) as (new & E & R).
  exists new. split; [|split; [exact R | apply repr_on_extend, Hr]].
  intros fuel Hd.
  unfold Heap.ApplyZoomToLayout. rewrite (E fuel Hd). cbn [bind].
  destruct t as [w ht x y pid st cs]. pose proof R as R'.
  apply repr_on_unfold in R'. destruct R' as (_ & ps & Hl & Hall).
  unfold Heap.deref. rewrite Hl. cbn [orErr bind Heap.cChildren].
  rewrite (find_active_repr id _ _ fuel cs ps 0 Hall).
  2:{ apply Forall_forall. intros c Hc.
      pose proof (depth_child_lt (mkLayoutNode w ht x y pid st cs) c Hc). lia. }
  cbn [bind]. cbn [Children] in Habs. rewrite (find_active_none cs id 0 Habs). reflexivity.
Qed.

End HeapFacts.

(** C4.  Let the tree be well formed, as every decoded tree is, and
    the target pane id be a pane id, that is, not the -1 the data model
    keeps for the nodes that are not leaf panes.  If the target
    is not the pane id of any leaf, [ApplyZoomToLayout] returns without
    panic a tree equal to its input; on the heap, whatever the fuel from
    the depth of the tree on, it returns a pointer to that tree laid out
    in cells allocated by the call, and the heap it was given is a prefix
    of the heap it leaves, so the input tree is where and what it was. *)
Theorem ApplyZoomToLayout_absent_target :
  forall t activePaneID zoomPercent,
    well_formed t = true ->
    activePaneID <> -1 ->
    ~ In activePaneID (leaf_ids t) ->
    ApplyZoomToLayout t activePaneID zoomPercent = Ok t
    /\ forall h p,
         Heap.repr h t p ->
         exists new,
           (forall fuel, (depth t <= fuel)%nat ->
              Heap.ApplyZoomToLayout fuel h p activePaneID zoomPercent
              = Ok (h ++ new, List.length h))
           /\ Heap.repr_on (fun q => (List.length h <= q)%nat) (h ++ new) t (List.length h)
           /\ Heap.repr (h ++ new) t p
           /\ firstn (List.length h) (h ++ new) = h.
Proof.
  intros t id pct Hwf Hid Habs.
  pose proof (absent_in_children t id Hwf Hid Habs) as Hno.
  split.
  - unfold ApplyZoomToLayout. rewrite copyLayoutNode_id, (find_active_none _ _ 0 Hno). reflexivity.
  - intros h p Hr.
    destruct (HeapFacts.ApplyZoomToLayout_absent t id pct h p Hr Hno) as (new & E & R1 & R2).
    exists new. repeat split; try assumption. apply firstn_length_app.
Qed.

(** On the layout of the test suite the two models of
    [ApplyZoomToLayout] agree, also where the target is present: the tree
    at the returned pointer is the tree the function on trees returns,
    and the cells of the input are as they were. *)
Example heap_zoom_three_columns :
  let '(h, p) := Heap.write [] tree_three_columns in
  match Heap.ApplyZoomToLayout 3 h p 26 65 with
  | Ok (h', r) =>
    (match Heap.read 3 h' r with Some t => Ok t | None => OutOfFuel end
     = ApplyZoomToLayout tree_three_columns 26 65)
    /\ firstn (List.length h) h' = h
    /\ Heap.read 3 h' p = Some tree_three_columns
    /\ (List.length h <= r)%nat
  | _ => False
  end.
Proof. vm_compute. repeat split; lia. Qed.

(** Every decoded tree is well formed. *)
Lemma ParseLayout_well_formed layout t : ParseLayout layout = Ok t -> well_formed t = true.
Proof.
  intros H. unfold ParseLayout in H. inv_bind H. injection H as <-.
  eapply (proj1 (parse_canon _)); eassumption.
Qed.


(** ** The guards of ApplyZoom (C9) *)

Lemma gostring_eqb_eq a : forall b, gostring_eqb a b = true <-> a = b.
Proof.
  induction a as [|c a IH]; intros [|d b]; simpl; split; intros H;
    try reflexivity; try discriminate.
  - apply andb_true_iff in H. destruct H as [H1 H2].
    apply Ascii.eqb_eq in H1. apply IH in H2. congruence.
  - injection H as -> ->. rewrite Ascii.eqb_refl. apply IH. reflexivity.
Qed.

Section HostFacts.
Variable World : Type.
Variable perform : World -> Effect -> option gostring * World.
Variable applyZoomFallback : State -> Z -> M World (option GoError).

Let q_panes := RunTmux (display_p "#{window_panes}").
Let q_session := RunTmux (display_p "#{session_name}").
Let q_window := RunTmux (display_p "#{window_index}").

Lemma GetPaneCount_run w trace out w1 n :
  perform w q_panes = (Some out, w1) -> Atoi out = Some n ->
  GetPaneCount World perform (w, trace) = (Ok (Val n), (w1, trace ++ [q_panes])).
Proof.
  intros H1 H2. unfold GetPaneCount, TmuxCmd, bindM, effect, retM, atoi_outcome.
  fold q_panes. rewrite H1, H2. reflexivity.
Qed.

Lemma TmuxCmd_run args w trace out w1 :
  perform w (RunTmux args) = (Some out, w1) ->
  TmuxCmd World perform args (w, trace) = (Ok (Val out), (w1, trace ++ [RunTmux args])).
Proof.
  intros H1. unfold TmuxCmd, bindM, effect, retM. rewrite H1. reflexivity.
Qed.

(** C9. While zoom is enabled, [ApplyZoom] asks the host for the pane
    count; if the answer is at most 1 it returns nil, having done
    nothing but asking.  And if the host's answers for the session and
    the window are not both those of the snapshot state, it returns
    nil having done nothing but asking its at most three questions:
    no layout is selected, no pane resized, no state written. *)
Theorem ApplyZoom_guards :
  forall (state : State) (w : World) (trace : list Effect) (out : gostring) (w1 : World)
         (paneCount : Z),
    perform w q_panes = (Some out, w1) ->
    Atoi out = Some paneCount ->
    (paneCount <= 1 ->
     ApplyZoom World perform applyZoomFallback state (w, trace)
     = (Ok None, (w1, trace ++ [q_panes])))
    /\ (forall session w2 window w3,
          perform w1 q_session = (Some session, w2) ->
          perform w2 q_window = (Some window, w3) ->
          session <> Session state \/ window <> Window state ->
          exists w' queries,
            ApplyZoom World perform applyZoomFallback state (w, trace)
            = (Ok None, (w', trace ++ queries))
            /\ forallb is_query queries = true
            /\ (1 < paneCount -> w' = w3 /\ queries = [q_panes; q_session; q_window])).
Proof.
  intros state w trace out w1 n Hp Hn.
  split.
  - intros Hle. unfold ApplyZoom. unfold orReturn at 1. unfold bindM at 1.
    rewrite (GetPaneCount_run w trace out w1 n Hp Hn).
    apply Z.leb_le in Hle. rewrite Hle. reflexivity.
  - intros session w2 window w3 Hs Hw Hdiff.
    unfold ApplyZoom. unfold orReturn at 1. unfold bindM at 1.
    rewrite (GetPaneCount_run w trace out w1 n Hp Hn).
    destruct (Z.leb_spec n 1) as [Hle|Hgt].
    + exists w1, [q_panes]. split; [reflexivity|]. split; [reflexivity | lia].
    + exists w3, [q_panes; q_session; q_window].
      split; [|split; [reflexivity | auto]].
      unfold orReturn at 1. unfold bindM at 1. unfold GetCurrentSession.
      fold q_session in Hs.
      rewrite (TmuxCmd_run _ w1 (trace ++ [q_panes]) session w2 Hs).
      unfold orReturn at 1. unfold bindM at 1. unfold GetCurrentWindow.
      rewrite (TmuxCmd_run _ w2 _ window w3 Hw).
      assert (Hne : negb (gostring_eqb session (Session state))
                    || negb (gostring_eqb window (Window state)) = true).
      { apply orb_true_iff. destruct Hdiff as [Hd|Hd]; [left|right];
          apply negb_true_iff; destruct (gostring_eqb _ _) eqn:E; auto;
          apply gostring_eqb_eq in E; contradiction. }
      rewrite Hne. unfold retM. rewrite <- !app_assoc. reflexivity.
Qed.
End HostFacts.

(** ** The failures of the parser (C6) *)

(** [parseNode] on a text cut into its fields. *)
Lemma parseNode_fields fuel fw fh fx fy tl :
  free_of "x"%char fw -> free_of ","%char fh -> free_of ","%char fx ->
  stop_free is_y_stop fy -> starts_with is_y_stop tl ->
  parseNode (S fuel) (fw ++ "x"%char :: fh ++ ","%char :: fx ++ ","%char :: fy ++ tl)
  = (width <- orErr InvalidWidth (Atoi fw) ;;
     height <- orErr InvalidHeight (Atoi fh) ;;
     x <- orErr InvalidX (Atoi fx) ;;
     y <- orErr InvalidY (Atoi fy) ;;
     after_header fuel width height x y tl).
Proof.
  intros Hw Hh Hx Hy Htl. cbn [parseNode].
  rewrite strings_Index_app by assumption. cbn [orErr bind].
  rewrite firstn_length_app. destruct (Atoi fw) as [w|]; [|reflexivity]. cbn [orErr bind].
  rewrite skipn_length_app1, strings_Index_app by assumption. cbn [orErr bind].
  rewrite firstn_length_app. destruct (Atoi fh) as [h|]; [|reflexivity]. cbn [orErr bind].
  rewrite skipn_length_app1, strings_Index_app by assumption. cbn [orErr bind].
  rewrite firstn_length_app. destruct (Atoi fx) as [x|]; [|reflexivity]. cbn [orErr bind].
  rewrite skipn_length_app1, scan_until_app by assumption.
  rewrite firstn_length_app. destruct (Atoi fy) as [y|]; [|reflexivity]. cbn [orErr bind].
  rewrite skipn_length_app. reflexivity.
Qed.

(** A byte that is no digit and no sign makes a field invalid. *)
Lemma digits_value_all_digits s : forall acc n,
  digits_value acc s = Some n -> forallb is_digit s = true.
Proof.
  induction s as [|d s IH]; intros acc n H; simpl in *; [reflexivity|].
  destruct (is_digit d); [|discriminate]. simpl. eapply IH, H.
Qed.

Lemma Atoi_rejects f c :
  In c f -> is_digit c = false ->
  Ascii.eqb c "-"%char = false -> Ascii.eqb c "+"%char = false ->
  Atoi f = None.
Proof.
  intros Hin Hd Hm Hp. destruct (Atoi f) as [z|] eqn:E; [|reflexivity]. exfalso.
  unfold Atoi in E. destruct f as [|c0 r]; [contradiction|].
  destruct (Ascii.eqb c0 "-" || Ascii.eqb c0 "+") eqn:Hs.
  - destruct r as [|c1 r]; [discriminate|].
    destruct (digits_value 0 (c1 :: r)) as [n|] eqn:Hv; [|discriminate].
    apply digits_value_all_digits in Hv. rewrite forallb_forall in Hv.
    destruct Hin as [->|Hin].
    + rewrite Hm, Hp in Hs. discriminate.
    + rewrite (Hv c Hin) in Hd. discriminate.
  - destruct (digits_value 0 (c0 :: r)) as [n|] eqn:Hv; [|discriminate].
    apply digits_value_all_digits in Hv. rewrite forallb_forall in Hv.
    rewrite (Hv c Hin) in Hd. discriminate.
Qed.

(** The error [UnexpectedCharacter] is never returned: what follows the
    y coordinate is the end of the input or one of the bytes the scan for
    y stops at, and the switch has an arm for each of them. *)
Lemma scan_until_stops stop s :
  starts_with stop (skipn (scan_until stop s) s).
Proof.
  induction s as [|d s IH]; simpl; [exact I|].
  destruct (stop d) eqn:E; simpl; [exact E | exact IH].
Qed.

Lemma orErr_Err_inv {E A} (e0 e : E) (o : option A) : orErr e0 o = Err e -> e = e0.
Proof. destruct o; simpl; congruence. Qed.

Lemma no_unexpected_character fuel :
  (forall s c, parseNode fuel s <> Err (UnexpectedCharacter c))
  /\ (forall s e c, parseChildren fuel s e <> Err (UnexpectedCharacter c)).
Proof.
  induction fuel as [|fuel [IHn IHc]]; split; try (simpl; intros; discriminate).
  - intros s c0. simpl.
    destruct (orErr NoXInDimensions _) as [xi| |] eqn:E0; simpl; try discriminate;
      [|apply orErr_Err_inv in E0; subst; discriminate].
    destruct (orErr InvalidWidth _) as [wd| |] eqn:E1; simpl; try discriminate;
      [|apply orErr_Err_inv in E1; subst; discriminate].
    destruct (orErr NoCommaAfterHeight _) as [c1| |] eqn:E2; simpl; try discriminate;
      [|apply orErr_Err_inv in E2; subst; discriminate].
    destruct (orErr InvalidHeight _) as [ht| |] eqn:E3; simpl; try discriminate;
      [|apply orErr_Err_inv in E3; subst; discriminate].
    destruct (orErr NoCommaAfterX _) as [c2| |] eqn:E4; simpl; try discriminate;
      [|apply orErr_Err_inv in E4; subst; discriminate].
    destruct (orErr InvalidX _) as [xv| |] eqn:E5; simpl; try discriminate;
      [|apply orErr_Err_inv in E5; subst; discriminate].
    destruct (orErr InvalidY _) as [yv| |] eqn:E6; simpl; try discriminate;
      [|apply orErr_Err_inv in E6; subst; discriminate].
    pose proof (scan_until_stops is_y_stop (skipn (c2 + 1) (skipn (c1 + 1) (skipn (xi + 1) s)))) as Hst.
    destruct (skipn (scan_until is_y_stop _) _) as [|c s1]; [discriminate|].
    simpl in Hst. unfold is_y_stop in Hst.
    destruct (Ascii.eqb c "{").
    { specialize (IHc s1 "}"%char c0).
      destruct (parseChildren fuel s1 "}") as [[cs r]| |]; simpl; congruence. }
    destruct (Ascii.eqb c "[").
    { specialize (IHc s1 "]"%char c0).
      destruct (parseChildren fuel s1 "]") as [[cs r]| |]; simpl; congruence. }
    destruct (Ascii.eqb c ",").
    { cbv zeta. destruct (Atoi (firstn (scan_until is_id_stop s1) s1));
        cbn [orErr bind]; intros Hq; discriminate Hq. }
    simpl in Hst. rewrite Hst. intros Hq; discriminate Hq.
  - intros s e c0. simpl.
    destruct s as [|c s1]; [discriminate|].
    destruct (Ascii.eqb c e); [discriminate|].
    specialize (IHn (c :: s1) c0).
    destruct (parseNode fuel (c :: s1)) as [[child r]| |]; simpl; try congruence.
    specialize (IHc (skip_comma r) e c0).
    destruct (parseChildren fuel (skip_comma r) e) as [[cs r']| |]; simpl; congruence.
Qed.

(** The end of the input closes a children list. *)
Lemma parseChildren_build_eof (e : ascii) cs :
  is_num_char e = false ->
  Forall (fun c => forall rest, starts_with is_id_stop rest ->
                   exists f0, forall f, (f0 <= f)%nat ->
                     parseNode f (buildNodeString c ++ rest) = Ok (c, rest)) cs ->
  exists f0, forall f, (f0 <= f)%nat ->
    parseChildren f (strings_Join (map buildNodeString cs) (str ",")) e = Ok (cs, []).
Proof.
  intros He H. induction H as [|c cs Hc _ IH].
  - exists 1%nat. intros [|f] Hf; [lia|]. reflexivity.
  - destruct IH as (f1 & IH).
    destruct (buildNodeString_head c) as (c0 & r0 & E0 & Hc0).
    assert (Hne : Ascii.eqb c0 e = false).
    { destruct (Ascii.eqb_spec c0 e) as [->|]; [congruence | reflexivity]. }
    destruct cs as [|c' cs].
    + destruct (Hc [] I) as (f0 & Hp). rewrite app_nil_r in Hp.
      exists (S (S f0)). intros [|f] Hf; [lia|].
      cbn [map strings_Join].
      rewrite (parseChildren_cons f _ e c0 r0) by auto.
      rewrite Hp by lia. cbn [bind skip_comma].
      destruct f as [|f]; [lia|]. reflexivity.
    + destruct (Hc (","%char :: strings_Join (map buildNodeString (c' :: cs)) (str ","))
                   eq_refl) as (f0 & Hp).
      exists (S (Nat.max f0 f1)). intros [|f] Hf; [lia|].
      change (strings_Join (map buildNodeString (c :: c' :: cs)) (str ","))
        with (buildNodeString c ++ ","%char :: strings_Join (map buildNodeString (c' :: cs)) (str ",")).
      rewrite (parseChildren_cons f _ e c0
                 (r0 ++ ","%char :: strings_Join (map buildNodeString (c' :: cs)) (str ",")))
        by (rewrite ?E0; auto).
      rewrite Hp by lia. cbn [bind skip_comma]. rewrite Ascii.eqb_refl.
      rewrite IH by lia. reflexivity.
Qed.

(** The text of a split without its last closing bracket is read back
    as the same tree. *)
Lemma parseNode_unclosed t :
  canon t -> splitType t <> SplitNone ->
  exists f0, forall f, (f0 <= f)%nat ->
    parseNode f (removelast (buildNodeString t)) = Ok (t, []).
Proof.
  intros Hcanon Hst. destruct t as [w h x y id st cs].
  destruct (canon_fields _ _ _ _ _ _ _ Hcanon) as (Hw & Hh & Hx & Hy & Hid & Hleaf & Hsplit).
  pose proof (canon_children _ _ _ _ _ _ _ Hcanon) as Hcs.
  assert (IH' : Forall (fun c => forall rest, starts_with is_id_stop rest ->
                   exists f0, forall f, (f0 <= f)%nat ->
                     parseNode f (buildNodeString c ++ rest) = Ok (c, rest)) cs).
  { eapply Forall_impl; [|exact Hcs]. intros c Hc. apply parseNode_build, Hc. }
  cbn [splitType] in Hst. rewrite (Hsplit Hst).
  assert (E : forall (o : ascii) (cl : ascii),
    removelast (itoa w ++ "x"%char :: itoa h ++ ","%char :: itoa x ++ ","%char :: itoa y
                ++ o :: strings_Join (map buildNodeString cs) (str ",") ++ [cl])
    = itoa w ++ "x"%char :: itoa h ++ ","%char :: itoa x ++ ","%char :: itoa y
      ++ o :: strings_Join (map buildNodeString cs) (str ",")).
  { intros o cl.
    replace (itoa w ++ "x"%char :: itoa h ++ ","%char :: itoa x ++ ","%char :: itoa y
                ++ o :: strings_Join (map buildNodeString cs) (str ",") ++ [cl])
      with ((itoa w ++ "x"%char :: itoa h ++ ","%char :: itoa x ++ ","%char :: itoa y
                ++ o :: strings_Join (map buildNodeString cs) (str ",")) ++ [cl]).
    - apply removelast_last.
    - repeat (rewrite <- ?app_assoc; cbn [app]). reflexivity. }
  pose proof (buildNodeString_app (mkLayoutNode w h x y (-1) st cs) []) as B.
  rewrite app_nil_r in B. rewrite B. cbn [Width Height X Y]. unfold node_tail.
  cbn [splitType PaneID Children].
  destruct st; [congruence | |]; rewrite E.
  - destruct (parseChildren_build_eof "}"%char cs eq_refl IH') as (f0 & Hp).
    exists (S f0). intros [|f] Hf; [lia|].
    rewrite parseNode_header by (auto; reflexivity). unfold after_header.
    cbn [Ascii.eqb Bool.eqb]. cbv zeta. rewrite Hp by lia. reflexivity.
  - destruct (parseChildren_build_eof "]"%char cs eq_refl IH') as (f0 & Hp).
    exists (S f0). intros [|f] Hf; [lia|].
    rewrite parseNode_header by (auto; reflexivity). unfold after_header.
    cbn [Ascii.eqb Bool.eqb]. cbv zeta. rewrite Hp by lia. reflexivity.
Qed.

Lemma ParseLayout_unclosed t :
  canon t -> splitType t <> SplitNone ->
  ParseLayout (removelast (BuildLayout t)) = Ok t.
Proof.
  intros Hcanon Hst. unfold BuildLayout. cbv zeta. unfold str. cbn [list_ascii_of_string app].
  destruct (buildNodeString_head t) as (c0 & r0 & E0 & _).
  assert (E : removelast (calculateChecksum (buildNodeString t) ++ ","%char :: buildNodeString t)
              = calculateChecksum (buildNodeString t) ++ ","%char :: removelast (buildNodeString t)).
  { rewrite removelast_app by discriminate. f_equal. rewrite E0. reflexivity. }
  rewrite E. unfold ParseLayout.
  assert (Hno : Forall (fun d => Ascii.eqb d ","%char = false) (calculateChecksum (buildNodeString t))).
  { apply fmt_04x_Forall. intros d Hd. apply digit_char_hex, Hd. }
  rewrite strings_Index_app by assumption. cbn [orErr bind].
  rewrite skipn_length_app1.
  destruct (parseNode_unclosed t Hcanon Hst) as (f0 & Hp).
  rewrite (parseNode_at_parse_fuel f0 _ (t, [])) by (apply Hp; lia).
  reflexivity.
Qed.

(** C6, as the code has it.  [ParseLayout] fails on every input without
    a comma.  A node whose text lacks the 'x' of its dimensions fails;
    a node whose width, height, x or y field is not an integer for
    [strconv.Atoi] fails, and so does a leaf whose pane id is not; a
    field that holds any byte other than digits and a sign is not an
    integer, which is how an unexpected character is reported, the error
    "unexpected character" itself never being returned.  The error of a
    node is the error of [ParseLayout], of the children list the node is
    in, and of the split that list belongs to.  An unmatched split-open
    bracket is no error: the end of the input closes a children list, and
    the text of any decoded split without its last closing bracket
    decodes to the same tree. *)
Theorem ParseLayout_failures :
  (forall layout,
      strings_Index ","%char layout = None ->
      ParseLayout layout = Err NoChecksumSeparator)
  /\ (forall fuel s,
         strings_Index "x"%char s = None ->
         parseNode (S fuel) s = Err NoXInDimensions)
  /\ (forall fuel fw fh fx fy tl,
         free_of "x"%char fw -> free_of ","%char fh -> free_of ","%char fx ->
         stop_free is_y_stop fy -> starts_with is_y_stop tl ->
         Atoi fw = None \/ Atoi fh = None \/ Atoi fx = None \/ Atoi fy = None ->
         exists e,
           parseNode (S fuel) (fw ++ "x"%char :: fh ++ ","%char :: fx ++ ","%char :: fy ++ tl)
           = Err e)
  /\ (forall fuel fw fh fx fy fid tl w h x y,
         free_of "x"%char fw -> free_of ","%char fh -> free_of ","%char fx ->
         stop_free is_y_stop fy -> stop_free is_id_stop fid -> starts_with is_id_stop tl ->
         Atoi fw = Some w -> Atoi fh = Some h -> Atoi fx = Some x -> Atoi fy = Some y ->
         Atoi fid = None ->
         parseNode (S fuel) (fw ++ "x"%char :: fh ++ ","%char :: fx ++ ","%char :: fy
                             ++ ","%char :: fid ++ tl)
         = Err InvalidPaneID)
  /\ (forall f c,
         In c f -> is_digit c = false ->
         Ascii.eqb c "-"%char = false -> Ascii.eqb c "+"%char = false ->
         Atoi f = None)
  /\ (forall fuel s c, parseNode fuel s <> Err (UnexpectedCharacter c))
  /\ (forall layout idx e,
         strings_Index ","%char layout = Some idx ->
         parseNode (parse_fuel (skipn (idx + 1) layout)) (skipn (idx + 1) layout) = Err e ->
         ParseLayout layout = Err e)
  /\ (forall fuel c s1 endChar e,
         Ascii.eqb c endChar = false ->
         parseNode fuel (c :: s1) = Err e ->
         parseChildren (S fuel) (c :: s1) endChar = Err e)
  /\ (forall fuel fw fh fx fy s1 w h x y e,
         free_of "x"%char fw -> free_of ","%char fh -> free_of ","%char fx ->
         stop_free is_y_stop fy ->
         Atoi fw = Some w -> Atoi fh = Some h -> Atoi fx = Some x -> Atoi fy = Some y ->
         (parseChildren fuel s1 "}"%char = Err e ->
          parseNode (S fuel) (fw ++ "x"%char :: fh ++ ","%char :: fx ++ ","%char :: fy
                              ++ "{"%char :: s1) = Err e)
         /\ (parseChildren fuel s1 "]"%char = Err e ->
             parseNode (S fuel) (fw ++ "x"%char :: fh ++ ","%char :: fx ++ ","%char :: fy
                                 ++ "["%char :: s1) = Err e))
  /\ (forall fuel endChar, parseChildren (S fuel) [] endChar = Ok ([], []))
  /\ (forall layout t,
         ParseLayout layout = Ok t -> splitType t <> SplitNone ->
         ParseLayout (removelast (BuildLayout t)) = Ok t).
Proof.
  repeat match goal with |- _ /\ _ => split end.
  - intros layout H. unfold ParseLayout. rewrite H. reflexivity.
  - intros fuel s H. cbn [parseNode]. rewrite H. reflexivity.
  - intros fuel fw fh fx fy tl Hw Hh Hx Hy Htl Hbad.
    rewrite parseNode_fields by assumption.
    destruct (Atoi fw); [|cbn; eauto]. destruct (Atoi fh); [|cbn; eauto].
    destruct (Atoi fx); [|cbn; eauto]. destruct (Atoi fy); [|cbn; eauto].
    exfalso. intuition discriminate.
  - intros fuel fw fh fx fy fid tl w h x y Hw Hh Hx Hy Hid Htl Ew Eh Ex Ey Eid.
    rewrite parseNode_fields by (auto; reflexivity).
    rewrite Ew, Eh, Ex, Ey. cbn [orErr bind after_header Ascii.eqb Bool.eqb]. cbv zeta.
    rewrite scan_until_app by assumption. rewrite firstn_length_app, Eid. reflexivity.
  - exact Atoi_rejects.
  - intros fuel. apply (proj1 (no_unexpected_character fuel)).
  - intros layout idx e Hi He. unfold ParseLayout. rewrite Hi. cbn [orErr bind].
    rewrite He. reflexivity.
  - intros fuel c s1 endChar e Hc H. cbn [parseChildren]. rewrite Hc, H. reflexivity.
  - intros fuel fw fh fx fy s1 w h x y e Hw Hh Hx Hy Ew Eh Ex Ey. split; intros Hc.
    + rewrite parseNode_fields by (auto; reflexivity).
      rewrite Ew, Eh, Ex, Ey. cbn [orErr bind after_header Ascii.eqb Bool.eqb].
      rewrite Hc. reflexivity.
    + rewrite parseNode_fields by (auto; reflexivity).
      rewrite Ew, Eh, Ex, Ey. cbn [orErr bind after_header Ascii.eqb Bool.eqb].
      rewrite Hc. reflexivity.
  - reflexivity.
  - intros layout t H Hst. apply ParseLayout_unclosed; [|exact Hst].
    unfold ParseLayout in H. inv_bind H. injection H as <-.
    split; eapply (proj1 (parse_canon _)); eassumption.
Qed.

(** C6 as the specification states it fails: in [layout_unclosed] the
    bracket that opens the children list is never closed, and
    [ParseLayout] returns the tree. *)
Lemma unclosed_layout_accepted :
  brackets_matched layout_unclosed = false
  /\ ParseLayout layout_unclosed = Ok tree_unclosed.
Proof. split; vm_compute; reflexivity. Qed.

(* ================================================================== *)
(** * Further properties of the codec *)

(** A split is read back from its text whatever follows the closing
    bracket. *)
Lemma parseNode_build_split t rest :
  canon t -> splitType t <> SplitNone ->
  exists f0, forall f, (f0 <= f)%nat ->
    parseNode f (buildNodeString t ++ rest) = Ok (t, rest).
Proof.
  intros Hcanon Hst. destruct t as [w h x y id st cs].
  destruct (canon_fields _ _ _ _ _ _ _ Hcanon) as (Hw & Hh & Hx & Hy & Hid & Hleaf & Hsplit).
  pose proof (canon_children _ _ _ _ _ _ _ Hcanon) as Hcs.
  assert (IH' : Forall (fun c => forall rest, starts_with is_id_stop rest ->
                   exists f0, forall f, (f0 <= f)%nat ->
                     parseNode f (buildNodeString c ++ rest) = Ok (c, rest)) cs).
  { eapply Forall_impl; [|exact Hcs]. intros c Hc. apply parseNode_build, Hc. }
  cbn [splitType] in Hst. rewrite (Hsplit Hst).
  rewrite buildNodeString_app. cbn [Width Height X Y]. unfold node_tail.
  cbn [splitType PaneID Children].
  destruct st; [congruence | |].
  - destruct (parseChildren_build "}"%char cs eq_refl eq_refl eq_refl IH' rest) as (f0 & Hp).
    exists (S f0). intros [|f] Hf; [lia|].
    rewrite parseNode_header by (auto; reflexivity). unfold after_header.
    cbn [Ascii.eqb Bool.eqb]. cbv zeta. rewrite Hp by lia. reflexivity.
  - destruct (parseChildren_build "]"%char cs eq_refl eq_refl eq_refl IH' rest) as (f0 & Hp).
    exists (S f0). intros [|f] Hf; [lia|].
    rewrite parseNode_header by (auto; reflexivity). unfold after_header.
    cbn [Ascii.eqb Bool.eqb]. cbv zeta. rewrite Hp by lia. reflexivity.
Qed.

Lemma ParseLayout_body_rest t rest :
  canon t -> splitType t <> SplitNone \/ starts_with is_id_stop rest ->
  ParseLayout (BuildLayout t ++ rest) = Ok t.
Proof.
  intros Hcanon Hrest. unfold BuildLayout. cbv zeta. unfold str. cbn [list_ascii_of_string app].
  rewrite <- app_assoc. cbn [app]. unfold ParseLayout.
  assert (Hno : Forall (fun d => Ascii.eqb d ","%char = false) (calculateChecksum (buildNodeString t))).
  { apply fmt_04x_Forall. intros d Hd. apply digit_char_hex, Hd. }
  rewrite strings_Index_app by assumption. cbn [orErr bind].
  rewrite skipn_length_app1.
  assert (Hp : exists f0, forall f, (f0 <= f)%nat ->
                 parseNode f (buildNodeString t ++ rest) = Ok (t, rest)).
  { destruct Hrest as [Hst|Hst]; [apply parseNode_build_split | apply parseNode_build]; assumption. }
  destruct Hp as (f0 & Hp).
  rewrite (parseNode_at_parse_fuel f0 _ (t, rest)) by (apply Hp; lia).
  reflexivity.
Qed.

(** X1. Every well-formed tree whose integer fields fit Go's [int] is
    decoded back from the text [BuildLayout] makes of it, whether or not
    the tree came from the parser; hence [BuildLayout] gives different
    texts to different such trees. *)
Theorem BuildLayout_decodes_back :
  forall t,
    well_formed t = true -> ints_in_range t = true ->
    ParseLayout (BuildLayout t) = Ok t
    /\ forall t', well_formed t' = true -> ints_in_range t' = true ->
                  BuildLayout t' = BuildLayout t -> t' = t.
Proof.
  intros t Hwf Hir.
  assert (E : forall u, well_formed u = true -> ints_in_range u = true ->
                        ParseLayout (BuildLayout u) = Ok u).
  { intros u H1 H2. rewrite <- (app_nil_r (BuildLayout u)).
    apply ParseLayout_body_rest; [split; assumption | right; exact I]. }
  split; [apply E; assumption|].
  intros t' Hwf' Hir' Heq.
  pose proof (E t' Hwf' Hir') as E1. rewrite Heq, (E t Hwf Hir) in E1. congruence.
Qed.

(** X2. Whatever text it is given, a tree [ParseLayout] returns is well
    formed: its leaves have no children and its split nodes carry the
    pane id -1; and every width, height, offset and pane id in it is a
    value of Go's [int]. *)
Theorem ParseLayout_returns_well_formed :
  forall layout t,
    ParseLayout layout = Ok t ->
    well_formed t = true /\ ints_in_range t = true.
Proof.
  intros layout t H. unfold ParseLayout in H. inv_bind H. injection H as <-.
  eapply (proj1 (parse_canon _)). eassumption.
Qed.

(** X3. [ParseLayout] reads one node and ignores what follows it: after
    the text of a split anything may follow, after the text of a leaf
    anything that starts with a comma or a closing bracket, and the tree
    returned is the same. *)
Theorem ParseLayout_ignores_trailing_text :
  forall t rest,
    well_formed t = true -> ints_in_range t = true ->
    splitType t <> SplitNone \/ starts_with is_id_stop rest ->
    ParseLayout (BuildLayout t ++ rest) = Ok t.
Proof.
  intros t rest Hwf Hir Hrest. apply ParseLayout_body_rest; [split; assumption | exact Hrest].
Qed.

(* ================================================================== *)
(** * Further properties of the tree functions *)

Lemma leaf_ids_shape t : leaf_ids (shape t) = leaf_ids t.
Proof.
  induction t as [w h x y id st cs IH] using LayoutNode_ind'.
  cbn [shape leaf_ids]. destruct st; [reflexivity | |].
  all: induction IH as [|c cs Hc _ IHcs]; [reflexivity|];
       cbn [map flat_map]; rewrite Hc, IHcs; reflexivity.
Qed.

Lemma well_formed_shape t : well_formed (shape t) = well_formed t.
Proof.
  induction t as [w h x y id st cs IH] using LayoutNode_ind'.
  cbn [shape well_formed].
  assert (E : forallb well_formed (map shape cs) = forallb well_formed cs).
  { induction IH as [|c cs Hc _ IHcs]; [reflexivity|].
    cbn [map forallb]. rewrite Hc, IHcs. reflexivity. }
  rewrite E. destruct st, cs; reflexivity.
Qed.

Lemma ApplyZoomToLayout_frame t id p t' :
  ApplyZoomToLayout t id p = Ok t' -> frame t' = frame t.
Proof.
  unfold ApplyZoomToLayout. rewrite copyLayoutNode_id. cbv zeta.
  destruct (_ =? -1).
  - intros H. injection H as <-. reflexivity.
  - apply zoom_by_split_frame.
Qed.

Lemma In_leaf_ids_containsPane t id : In id (leaf_ids t) -> containsPane t id = true.
Proof.
  induction t as [w h x y pid st cs IH] using LayoutNode_ind'.
  cbn [leaf_ids containsPane]. intros Hin.
  destruct (Z.eqb_spec pid id); [reflexivity|].
  destruct st.
  - destruct Hin as [->|[]]. congruence.
  - apply in_flat_map in Hin. destruct Hin as (c & Hc & Hin).
    apply existsb_exists. exists c. split; [exact Hc|].
    rewrite Forall_forall in IH. apply IH; assumption.
  - apply in_flat_map in Hin. destruct Hin as (c & Hc & Hin).
    apply existsb_exists. exists c. split; [exact Hc|].
    rewrite Forall_forall in IH. apply IH; assumption.
Qed.

Lemma countPanes_fold cs : forall acc,
  Forall (fun c => Z.of_nat (List.length (leaf_ids c)) < 2 ^ 63 ->
                   countPanes c = Z.of_nat (List.length (leaf_ids c))) cs ->
  0 <= acc ->
  acc + Z.of_nat (List.length (flat_map leaf_ids cs)) < 2 ^ 63 ->
  fold_left (fun count child => GoInt.add count (countPanes child)) cs acc
  = acc + Z.of_nat (List.length (flat_map leaf_ids cs)).
Proof.
  induction cs as [|c cs IH]; intros acc HF Hacc Hb; cbn [fold_left flat_map List.length].
  - lia.
  - inversion HF as [|? ? Hc HF']; subst.
    cbn [flat_map] in Hb. rewrite length_app, Nat2Z.inj_add in Hb.
    rewrite Hc by lia. unfold GoInt.add. rewrite wrap_id by lia.
    rewrite IH by (try assumption; lia).
    rewrite length_app, Nat2Z.inj_add. lia.
Qed.

Lemma on_first_unchanged {E A} (test : A -> bool) (f : A -> result E A) l :
  (forall a, In a l -> test a = true -> f a = Ok a) ->
  on_first test f l = Ok l.
Proof.
  induction l as [|a l IH]; intros H; cbn [on_first]; [reflexivity|].
  destruct (test a) eqn:Ht.
  - rewrite (H a (or_introl eq_refl) Ht). reflexivity.
  - rewrite IH; [reflexivity|]. intros b Hb. apply H. right. exact Hb.
Qed.

Lemma set_children_same t : set_children t (Children t) = t.
Proof. destruct t; reflexivity. Qed.

Lemma applyNestedZoom_unchanged t id p :
  (forall c, In c (Children t) -> containsPane c id = true ->
             GoInt.len (Children c) <= 1) ->
  applyNestedZoom t id p = Ok t.
Proof.
  intros H. unfold applyNestedZoom.
  destruct t as [w h x y pid st cs]. cbn [depth applyNestedZoom_rec Children] in *.
  rewrite on_first_unchanged; [reflexivity|].
  intros c Hc Ht. specialize (H c Hc Ht).
  destruct (Z.ltb_spec 1 (GoInt.len (Children c))); [lia | reflexivity].
Qed.

Lemma map_shape_In cs cs' c' :
  map shape cs' = map shape cs -> In c' cs' ->
  exists c, In c cs /\ shape c' = shape c.
Proof.
  revert cs. induction cs' as [|a cs' IH]; intros [|b cs] E Hin; cbn [map] in E;
    try discriminate; [contradiction|].
  injection E as E1 E2. destruct Hin as [->|Hin].
  - exists b. split; [left; reflexivity | exact E1].
  - destruct (IH cs E2 Hin) as (c & Hc & Es). exists c. split; [right; exact Hc | exact Es].
Qed.

Lemma shape_len_Children t t' :
  shape t = shape t' -> GoInt.len (Children t) = GoInt.len (Children t').
Proof.
  intros E. apply shape_Children in E. unfold GoInt.len.
  rewrite <- (length_map shape (Children t)), E, length_map. reflexivity.
Qed.

(** X4. The zoom transform returns a tree for every tree, pane id and
    percent, and the tree it returns differs from the given one in
    geometry only: pane ids, split types and the order of the children
    are the same at every depth, the panes are the same in the same
    order, [containsPane] answers alike on both, and the root keeps its
    own width, height and offsets. *)
Theorem zoomTransform_keeps_structure :
  forall t activePaneID zoomPercent,
    exists zoomed,
      zoomTransform t activePaneID zoomPercent = Ok zoomed
      /\ shape zoomed = shape t
      /\ leaf_ids zoomed = leaf_ids t
      /\ frame zoomed = frame t
      /\ forall paneID, containsPane zoomed paneID = containsPane t paneID.
Proof.
  intros t id p. destruct (zoomTransform_shape t id p) as (z & Hz & Hs).
  exists z. split; [exact Hz|]. split; [exact Hs|]. split; [|split].
  - rewrite <- (leaf_ids_shape z), Hs. apply leaf_ids_shape.
  - unfold zoomTransform in Hz. inv_bind Hz.
    match goal with Ha : ApplyZoomToLayout _ _ _ = Ok ?u |- _ =>
      rewrite <- (ApplyZoomToLayout_frame _ _ _ _ Ha) end.
    unfold applyNestedZoom in Hz.
    apply applyNestedZoom_rec_frame in Hz. apply Hz.
  - intros q. apply shape_eq_containsPane, Hs.
Qed.

(** X5. [containsPane] finds exactly the panes of the tree: on a well
    formed tree and for an id other than -1, it answers true if and only
    if a leaf of the tree carries the id. *)
Theorem containsPane_iff_leaf :
  forall t paneID,
    well_formed t = true -> paneID <> -1 ->
    (containsPane t paneID = true <-> In paneID (leaf_ids t)).
Proof.
  intros t id Hwf Hid. split.
  - apply containsPane_leaf_ids; assumption.
  - apply In_leaf_ids_containsPane.
Qed.

(** X6. [countPanes] counts the leaves: as long as their number is below
    2^63, the count is that number; in particular it is never
    negative. *)
Theorem countPanes_counts_leaves :
  forall t,
    Z.of_nat (List.length (leaf_ids t)) < 2 ^ 63 ->
    countPanes t = Z.of_nat (List.length (leaf_ids t)).
Proof.
  intros t. induction t as [w h x y id st cs IH] using LayoutNode_ind'.
  cbn [countPanes leaf_ids]. destruct st.
  - reflexivity.
  - intros Hb. rewrite countPanes_fold; [lia | exact IH | lia | lia].
  - intros Hb. rewrite countPanes_fold; [lia | exact IH | lia | lia].
Qed.

(** X7. The nested pass has nothing to do where the first child of the
    root that contains the pane has at most one child of its own, and
    where no child contains the pane: [applyNestedZoom] returns the tree
    it was given, and the zoom transform is [ApplyZoomToLayout] alone.
    A layout of one row or one column of panes is such a tree. *)
Theorem applyNestedZoom_flat :
  forall t activePaneID zoomPercent,
    (forall c, In c (Children t) -> containsPane c activePaneID = true ->
               GoInt.len (Children c) <= 1) ->
    applyNestedZoom t activePaneID zoomPercent = Ok t
    /\ zoomTransform t activePaneID zoomPercent
       = ApplyZoomToLayout t activePaneID zoomPercent.
Proof.
  intros t id p H. split; [apply applyNestedZoom_unchanged, H|].
  unfold zoomTransform.
  destruct (ApplyZoomToLayout_shape t id p) as (t1 & E1 & Hs). rewrite E1. cbn [bind].
  apply applyNestedZoom_unchanged.
  intros c1 Hc1 Hcont.
  destruct (map_shape_In _ _ _ (shape_Children _ _ Hs) Hc1) as (c & Hc & Es).
  rewrite (shape_len_Children _ _ Es). apply H; [exact Hc|].
  rewrite <- (shape_eq_containsPane _ _ id Es). exact Hcont.
Qed.

(* ================================================================== *)
(** * Further properties of the zoom *)

(** What a zoom along an axis returns: the node itself where it has at
    most one child, and otherwise the node with its children placed at
    sizes that are values of Go's [int]. *)
Lemma wrap_in_range z : GoInt.in_range (GoInt.wrap z) = true.
Proof.
  unfold GoInt.in_range, GoInt.wrap, GoInt.min_int, GoInt.max_int.
  pose proof (Z.mod_pos_bound (z + 2 ^ 63) (2 ^ 64) ltac:(lia)).
  apply andb_true_intro. split; [apply Z.leb_le | apply Z.leb_le]; lia.
Qed.

Lemma new_sizes_in_range ax cs : forall i k target other remaining n,
  GoInt.in_range target = true ->
  Forall (fun v => GoInt.in_range v = true) (new_sizes ax i k target other remaining n cs).
Proof.
  induction cs as [|c cs IH]; intros i k target other remaining n Ht; cbn [new_sizes];
    constructor; [|apply IH, Ht].
  destruct (i =? k); [exact Ht|].
  destruct (0 <? other); apply wrap_in_range.
Qed.

Lemma add_at_nat_in_range xs : forall k d,
  Forall (fun v => GoInt.in_range v = true) xs ->
  Forall (fun v => GoInt.in_range v = true) (add_at_nat xs k d).
Proof.
  induction xs as [|x xs IH]; intros k d H; [destruct k; constructor|].
  inversion H; subst. destruct k; cbn [add_at_nat]; constructor; auto.
  apply wrap_in_range.
Qed.

Lemma applyAxisZoom_inv ax t idx p t' :
  applyAxisZoom ax t idx p = Ok t' ->
  (GoInt.len (Children t) <= 1 /\ t' = t)
  \/ (1 < GoInt.len (Children t)
      /\ exists ws, List.length ws = List.length (Children t)
                    /\ Forall (fun v => GoInt.in_range v = true) ws
                    /\ t' = set_children t (place_children ax (Children t) ws (pos_of ax t))).
Proof.
  unfold applyAxisZoom. destruct (Z.leb_spec (GoInt.len (Children t)) 1) as [Hle|Hlt].
  - intros H. injection H as <-. left. split; [exact Hle | reflexivity].
  - set (ws := new_sizes _ _ _ _ _ _ _ _).
    assert (Hl : List.length ws = List.length (Children t)) by apply new_sizes_length.
    assert (Hr : Forall (fun v => GoInt.in_range v = true) ws)
      by (apply new_sizes_in_range, wrap_in_range).
    intros H. right. split; [exact Hlt|].
    destruct (negb _).
    + unfold add_at in H. destruct (_ && _); [|discriminate]. cbn [bind] in H.
      injection H as <-. eexists. split; [|split; [|reflexivity]].
      * rewrite add_at_nat_length. exact Hl.
      * apply add_at_nat_in_range, Hr.
    + cbn [bind] in H. injection H as <-. exists ws. auto.
Qed.

Lemma erase_axis_set_size ax t v : erase_axis ax (set_size ax t v) = erase_axis ax t.
Proof. destruct t, ax; reflexivity. Qed.

Lemma erase_axis_set_pos ax t v : erase_axis ax (set_pos ax t v) = erase_axis ax t.
Proof. destruct t, ax; reflexivity. Qed.

Lemma erase_axis_set_children ax t cs :
  map (erase_axis ax) cs = map (erase_axis ax) (Children t) ->
  erase_axis ax (set_children t cs) = erase_axis ax t.
Proof. destruct t, ax; cbn; intros ->; reflexivity. Qed.

Lemma erase_axis_updateChildSizes ax t : forall v,
  erase_axis ax (updateChildSizes ax t v) = erase_axis ax t.
Proof.
  induction t as [w h x y id st cs IH] using LayoutNode_ind'. intros v.
  cbn [updateChildSizes]. rewrite erase_axis_set_size.
  apply (erase_axis_set_children ax (mkLayoutNode w h x y id st cs)). cbn [Children].
  destruct (SplitType_eqb st (cross_split ax)); [|reflexivity].
  rewrite map_map. induction IH as [|c cs Hc _ IHcs]; cbn [map]; [reflexivity|].
  rewrite Hc, IHcs. reflexivity.
Qed.

Lemma erase_axis_place_children ax cs : forall ws pos,
  List.length ws = List.length cs ->
  map (erase_axis ax) (place_children ax cs ws pos) = map (erase_axis ax) cs.
Proof.
  induction cs as [|c cs IH]; intros [|w ws] pos Hl; simpl in *; try discriminate; [reflexivity|].
  rewrite erase_axis_updateChildSizes, erase_axis_set_pos, erase_axis_set_size, IH by lia.
  reflexivity.
Qed.

Lemma applyAxisZoom_erase_axis ax t idx p t' :
  applyAxisZoom ax t idx p = Ok t' -> erase_axis ax t' = erase_axis ax t.
Proof.
  intros H. destruct (applyAxisZoom_inv _ _ _ _ _ H) as [[_ ->]|(_ & ws & Hl & _ & ->)];
    [reflexivity|].
  apply erase_axis_set_children, erase_axis_place_children, Hl.
Qed.

Lemma erase_sizes_set_size ax t v : erase_sizes (set_size ax t v) = erase_sizes t.
Proof. destruct t, ax; reflexivity. Qed.

Lemma erase_sizes_updateChildSizes ax t : forall v,
  erase_sizes (updateChildSizes ax t v) = erase_sizes t.
Proof.
  induction t as [w h x y id st cs IH] using LayoutNode_ind'. intros v.
  cbn [updateChildSizes]. rewrite erase_sizes_set_size. cbn [erase_sizes]. f_equal.
  destruct (SplitType_eqb st (cross_split ax)); [|reflexivity].
  rewrite map_map. induction IH as [|c cs Hc _ IHcs]; cbn [map]; [reflexivity|].
  rewrite Hc, IHcs. reflexivity.
Qed.

Lemma Children_erase_sizes t :
  Children (erase_sizes t) = map erase_sizes (Children t).
Proof. destruct t; reflexivity. Qed.

Lemma Children_set_pos ax t v : Children (set_pos ax t v) = Children t.
Proof. destruct t, ax; reflexivity. Qed.

Lemma Children_set_size ax t v : Children (set_size ax t v) = Children t.
Proof. destruct t, ax; reflexivity. Qed.

Lemma grandchildren_updateChildSizes ax c v :
  map erase_sizes (Children (updateChildSizes ax c v)) = map erase_sizes (Children c).
Proof.
  rewrite <- !Children_erase_sizes, erase_sizes_updateChildSizes. reflexivity.
Qed.

Lemma grandchildren_place_children ax cs : forall ws pos,
  List.length ws = List.length cs ->
  map (fun c => map erase_sizes (Children c)) (place_children ax cs ws pos)
  = map (fun c => map erase_sizes (Children c)) cs.
Proof.
  induction cs as [|c cs IH]; intros [|w ws] pos Hl; simpl in *; try discriminate; [reflexivity|].
  rewrite grandchildren_updateChildSizes, Children_set_pos, Children_set_size, IH by lia.
  reflexivity.
Qed.

Lemma Children_set_children t cs : Children (set_children t cs) = cs.
Proof. destruct t; reflexivity. Qed.

Lemma pos_of_set_size ax t v : pos_of ax (set_size ax t v) = pos_of ax t.
Proof. destruct t, ax; reflexivity. Qed.

Lemma pos_of_set_pos ax t v : pos_of ax (set_pos ax t v) = v.
Proof. destruct t, ax; reflexivity. Qed.

Lemma pos_of_updateChildSizes ax t v : pos_of ax (updateChildSizes ax t v) = pos_of ax t.
Proof. destruct t; cbn [updateChildSizes]. rewrite pos_of_set_size. destruct ax; reflexivity. Qed.

Lemma place_children_contiguous ax cs : forall ws pos,
  contiguous ax pos (place_children ax cs ws pos).
Proof.
  induction cs as [|c cs IH]; intros [|w ws] pos; cbn [place_children contiguous]; auto.
  split.
  - rewrite pos_of_updateChildSizes, pos_of_set_pos. reflexivity.
  - rewrite size_of_updateChildSizes. apply IH.
Qed.

Lemma applyAxisZoom_contiguous ax t idx p t' :
  applyAxisZoom ax t idx p = Ok t' -> 1 < GoInt.len (Children t) ->
  contiguous ax (pos_of ax t) (Children t').
Proof.
  intros H Hn. destruct (applyAxisZoom_inv _ _ _ _ _ H) as [[Hle _]|(_ & ws & _ & _ & ->)];
    [lia|].
  rewrite Children_set_children. apply place_children_contiguous.
Qed.

(** X8. A zoom changes one axis only.  Where the root is not a vertical
    split, [ApplyZoomToLayout] returns a tree with the heights and the Y
    offsets of the given one at every node; where the root is not a
    horizontal split, with the widths and the X offsets of the given
    one. *)
Theorem ApplyZoomToLayout_other_axis :
  forall t activePaneID zoomPercent zoomed,
    ApplyZoomToLayout t activePaneID zoomPercent = Ok zoomed ->
    (splitType t <> SplitVertical ->
     erase_axis AxisWidth zoomed = erase_axis AxisWidth t)
    /\ (splitType t <> SplitHorizontal ->
        erase_axis AxisHeight zoomed = erase_axis AxisHeight t).
Proof.
  intros t id p z. unfold ApplyZoomToLayout. rewrite copyLayoutNode_id. cbv zeta.
  destruct (_ =? -1).
  - intros H. injection H as <-. split; reflexivity.
  - unfold zoom_by_split, applyHorizontalZoom, applyVerticalZoom.
    destruct (splitType t); intros H.
    + injection H as <-. split; reflexivity.
    + split; [intros _; eapply applyAxisZoom_erase_axis, H | congruence].
    + split; [congruence | intros _; eapply applyAxisZoom_erase_axis, H].
Qed.

(** X9. [ApplyZoomToLayout] moves the children of the root and nothing
    below them: every node two or more levels under the root keeps its X
    and Y offsets, also where the child above it was given a new
    offset. *)
Theorem ApplyZoomToLayout_keeps_inner_offsets :
  forall t activePaneID zoomPercent zoomed,
    ApplyZoomToLayout t activePaneID zoomPercent = Ok zoomed ->
    map (fun c => map erase_sizes (Children c)) (Children zoomed)
    = map (fun c => map erase_sizes (Children c)) (Children t).
Proof.
  intros t id p z. unfold ApplyZoomToLayout. rewrite copyLayoutNode_id. cbv zeta.
  assert (A : forall ax t', applyAxisZoom ax t (find_active 0 (Children t) id) p = Ok t' ->
              map (fun c => map erase_sizes (Children c)) (Children t')
              = map (fun c => map erase_sizes (Children c)) (Children t)).
  { intros ax t' H.
    destruct (applyAxisZoom_inv _ _ _ _ _ H) as [[_ ->]|(_ & ws & Hl & _ & ->)]; [reflexivity|].
    rewrite Children_set_children. apply grandchildren_place_children, Hl. }
  destruct (_ =? -1).
  - intros H. injection H as <-. reflexivity.
  - unfold zoom_by_split, applyHorizontalZoom, applyVerticalZoom.
    destruct (splitType t); intros H; [injection H as <-; reflexivity | |]; eapply A, H.
Qed.

(** X10. Where a node has two children or more, [applyHorizontalZoom]
    lays them out side by side from the X offset of the node and
    [applyVerticalZoom] one under the other from its Y offset: the first
    child starts at the offset of the node, and every other child where
    the child before it ends plus one border cell. *)
Theorem zoom_places_children_in_sequence :
  forall t activeIdx zoomPercent zoomed,
    1 < GoInt.len (Children t) ->
    (applyHorizontalZoom t activeIdx zoomPercent = Ok zoomed ->
     contiguous AxisWidth (X t) (Children zoomed))
    /\ (applyVerticalZoom t activeIdx zoomPercent = Ok zoomed ->
        contiguous AxisHeight (Y t) (Children zoomed)).
Proof.
  intros t idx p z Hn. split; intros H.
  - exact (applyAxisZoom_contiguous AxisWidth _ _ _ _ H Hn).
  - exact (applyAxisZoom_contiguous AxisHeight _ _ _ _ H Hn).
Qed.

(** ** The zoomed tree is written and read back *)

Lemma ints_in_range_unfold w h x y id st cs :
  ints_in_range (mkLayoutNode w h x y id st cs) = true
  <-> (GoInt.in_range w = true /\ GoInt.in_range h = true /\ GoInt.in_range x = true
       /\ GoInt.in_range y = true /\ GoInt.in_range id = true
       /\ Forall (fun c => ints_in_range c = true) cs).
Proof.
  cbn [ints_in_range]. rewrite !andb_true_iff, forallb_forall, Forall_forall. tauto.
Qed.

Lemma ints_in_range_set_size ax t v :
  GoInt.in_range v = true -> ints_in_range t = true ->
  ints_in_range (set_size ax t v) = true.
Proof.
  destruct t as [w h x y id st cs]. rewrite ints_in_range_unfold.
  intros Hv H. destruct ax; cbn [set_size]; apply ints_in_range_unfold; tauto.
Qed.

Lemma ints_in_range_set_pos ax t v :
  GoInt.in_range v = true -> ints_in_range t = true ->
  ints_in_range (set_pos ax t v) = true.
Proof.
  destruct t as [w h x y id st cs]. rewrite ints_in_range_unfold.
  intros Hv H. destruct ax; cbn [set_pos]; apply ints_in_range_unfold; tauto.
Qed.

Lemma ints_in_range_set_children t cs :
  ints_in_range t = true -> Forall (fun c => ints_in_range c = true) cs ->
  ints_in_range (set_children t cs) = true.
Proof.
  destruct t as [w h x y id st cs0]. rewrite ints_in_range_unfold.
  intros H Hcs. cbn [set_children]. apply ints_in_range_unfold. tauto.
Qed.

Lemma ints_in_range_Children t :
  ints_in_range t = true -> Forall (fun c => ints_in_range c = true) (Children t).
Proof. destruct t. rewrite ints_in_range_unfold. cbn [Children]. tauto. Qed.

Lemma ints_in_range_pos ax t : ints_in_range t = true -> GoInt.in_range (pos_of ax t) = true.
Proof. destruct t. rewrite ints_in_range_unfold. destruct ax; cbn; tauto. Qed.

Lemma ints_in_range_updateChildSizes ax t : forall v,
  GoInt.in_range v = true -> ints_in_range t = true ->
  ints_in_range (updateChildSizes ax t v) = true.
Proof.
  induction t as [w h x y id st cs IH] using LayoutNode_ind'. intros v Hv Ht.
  cbn [updateChildSizes]. apply ints_in_range_set_size; [exact Hv|].
  apply (ints_in_range_set_children (mkLayoutNode w h x y id st cs)); [exact Ht|].
  apply ints_in_range_Children in Ht. cbn [Children] in Ht.
  destruct (SplitType_eqb st (cross_split ax)); [|exact Ht].
  apply Forall_map. rewrite Forall_forall in *. intros c Hc. apply IH; auto.
Qed.

Lemma ints_in_range_place_children ax cs : forall ws pos,
  Forall (fun v => GoInt.in_range v = true) ws ->
  GoInt.in_range pos = true ->
  Forall (fun c => ints_in_range c = true) cs ->
  Forall (fun c => ints_in_range c = true) (place_children ax cs ws pos).
Proof.
  induction cs as [|c cs IH]; intros [|w ws] pos Hws Hpos Hcs; cbn [place_children];
    try constructor.
  - inversion Hws; inversion Hcs; subst.
    apply ints_in_range_updateChildSizes; [assumption|].
    apply ints_in_range_set_pos; [assumption|].
    apply ints_in_range_set_size; assumption.
  - inversion Hws; inversion Hcs; subst. apply IH; [assumption | apply wrap_in_range | assumption].
Qed.

Lemma applyAxisZoom_in_range ax t idx p t' :
  applyAxisZoom ax t idx p = Ok t' -> ints_in_range t = true -> ints_in_range t' = true.
Proof.
  intros H Ht. destruct (applyAxisZoom_inv _ _ _ _ _ H) as [[_ ->]|(_ & ws & _ & Hws & ->)];
    [exact Ht|].
  apply ints_in_range_set_children; [exact Ht|].
  apply ints_in_range_place_children;
    [exact Hws | apply ints_in_range_pos, Ht | apply ints_in_range_Children, Ht].
Qed.

Lemma zoom_by_split_in_range t idx p t' :
  zoom_by_split t idx p = Ok t' -> ints_in_range t = true -> ints_in_range t' = true.
Proof.
  unfold zoom_by_split. destruct (splitType t); [congruence | |]; apply applyAxisZoom_in_range.
Qed.

Lemma on_first_Forall {E A} (P : A -> Prop) (test : A -> bool) (f : A -> result E A) l :
  forall l',
    (forall a a', In a l -> test a = true -> f a = Ok a' -> P a -> P a') ->
    Forall P l -> on_first test f l = Ok l' -> Forall P l'.
Proof.
  induction l as [|a l IH]; intros l' Hf HP H; cbn [on_first] in H.
  - injection H as <-. constructor.
  - inversion HP as [|? ? Pa Pl]; subst. destruct (test a) eqn:Ht; inv_bind H; injection H as <-.
    + constructor; [|exact Pl]. eapply Hf; eauto. left. reflexivity.
    + constructor; [exact Pa|]. eapply IH; eauto. intros b b' Hb. apply Hf. right. exact Hb.
Qed.

Lemma applyNestedZoom_rec_in_range id p fuel : forall t t',
  applyNestedZoom_rec fuel t id p = Ok t' ->
  ints_in_range t = true -> ints_in_range t' = true.
Proof.
  induction fuel as [|fuel IH]; intros t t' H Ht; [discriminate|].
  cbn [applyNestedZoom_rec] in H. inv_bind H. injection H as <-.
  apply ints_in_range_set_children; [exact Ht|].
  eapply on_first_Forall; [|apply ints_in_range_Children, Ht|eassumption].
  intros a a' _ _ Ha Pa. cbv beta in Ha.
  destruct (1 <? GoInt.len (Children a)); [|congruence].
  destruct (0 <=? find_active 0 (Children a) id); [|congruence].
  inv_bind Ha. eapply IH; [exact Ha|]. eapply zoom_by_split_in_range; eassumption.
Qed.

Lemma zoomTransform_in_range t id p t' :
  zoomTransform t id p = Ok t' -> ints_in_range t = true -> ints_in_range t' = true.
Proof.
  unfold zoomTransform. intros H Ht. inv_bind H.
  eapply applyNestedZoom_rec_in_range; [exact H|].
  match goal with Ha : ApplyZoomToLayout _ _ _ = Ok _ |- _ =>
    unfold ApplyZoomToLayout in Ha; rewrite copyLayoutNode_id in Ha; cbv zeta in Ha;
    destruct (_ =? -1) in Ha;
    [injection Ha as <-; exact Ht | eapply zoom_by_split_in_range; eassumption] end.
Qed.

(** X11. The zoom keeps a tree writable: zoomed from a well-formed tree
    whose integers fit Go's [int] (every tree [ParseLayout] returns is
    one), the result is again such a tree, whatever the pane id and the
    percent, and the layout text [BuildLayout] makes of it is read back
    by [ParseLayout] as that very tree. *)
Theorem zoomed_layout_decodes_back :
  forall t activePaneID zoomPercent,
    well_formed t = true -> ints_in_range t = true ->
    exists zoomed,
      zoomTransform t activePaneID zoomPercent = Ok zoomed
      /\ well_formed zoomed = true
      /\ ints_in_range zoomed = true
      /\ ParseLayout (BuildLayout zoomed) = Ok zoomed.
Proof.
  intros t id p Hwf Hir.
  destruct (zoomTransform_shape t id p) as (z & Hz & Hs).
  assert (Hwf' : well_formed z = true).
  { rewrite <- well_formed_shape, Hs, well_formed_shape. exact Hwf. }
  assert (Hir' : ints_in_range z = true) by (eapply zoomTransform_in_range; eassumption).
  exists z. split; [exact Hz|]. split; [exact Hwf'|]. split; [exact Hir'|].
  rewrite <- (app_nil_r (BuildLayout z)).
  apply ParseLayout_body_rest; [split; assumption | right; exact I].
Qed.

(** ** Size conservation in layouts of two levels *)

Lemma conserved_here_along ax t :
  splitType t = along_split ax ->
  conserved_here t
  = (sum_Z (map (size_of ax) (Children t)) + (GoInt.len (Children t) - 1) =? size_of ax t).
Proof. unfold conserved_here. intros ->. destruct ax; reflexivity. Qed.

Lemma conserved_unfold t : conserved t = conserved_here t && forallb conserved (Children t).
Proof. destruct t; reflexivity. Qed.

Lemma splitType_set_children t cs : splitType (set_children t cs) = splitType t.
Proof. destruct t; reflexivity. Qed.

Lemma size_of_set_children ax t cs : size_of ax (set_children t cs) = size_of ax t.
Proof. destruct t, ax; reflexivity. Qed.

Lemma place_children_length ax cs : forall ws pos,
  List.length ws = List.length cs ->
  List.length (place_children ax cs ws pos) = List.length cs.
Proof.
  intros ws pos Hl. rewrite <- (length_map shape), shape_place_children by exact Hl.
  apply length_map.
Qed.

Lemma applyAxisZoom_conserved_here ax t idx p t1 :
  splitType t = along_split ax ->
  conserved_here t = true ->
  size_of ax t <= 2 ^ 31 ->
  Forall (fun c => 0 <= size_of ax c <= 2 ^ 31) (Children t) ->
  0 <= p <= 100 ->
  0 <= idx < GoInt.len (Children t) ->
  applyAxisZoom ax t idx p = Ok t1 ->
  conserved_here t1 = true.
Proof.
  intros Hst Hc Hmax Hcs Hp Hidx H.
  destruct (Z.leb_spec (GoInt.len (Children t)) 1) as [Hle|Hlt].
  - destruct (applyAxisZoom_inv _ _ _ _ _ H) as [[_ ->]|(Hgt & _)]; [exact Hc | lia].
  - rewrite (conserved_here_along ax) in Hc by exact Hst. apply Z.eqb_eq in Hc.
    assert (Hnn : 0 <= sum_Z (map (size_of ax) (Children t))).
    { apply sum_Z_nonneg, Forall_map. eapply Forall_impl; [|exact Hcs]. cbv beta. lia. }
    assert (Hsize : GoInt.len (Children t) - 1 <= size_of ax t <= 2 ^ 31) by lia.
    destruct (nth_error (Children t) (Z.to_nat idx)) as [c|] eqn:Hnth.
    2:{ apply nth_error_None in Hnth. unfold GoInt.len in Hidx. lia. }
    destruct (split_at_nth _ _ _ Hnth) as (l1 & l2 & Hsplit & Hk).
    assert (Hn : 2 <= GoInt.len (Children t)) by lia.
    pose proof (applyAxisZoom_sizes ax t p l1 l2 c Hsplit Hn Hp Hsize Hcs) as Hz.
    assert (E : GoInt.len l1 = idx) by (unfold GoInt.len; lia).
    rewrite E, H in Hz. injection Hz as ->.
    set (q := math_share ax _ _ _).
    set (ws := _ ++ _ :: _).
    assert (Hl : List.length ws = List.length (Children t)).
    { unfold ws. rewrite Hsplit, !length_app. cbn [List.length]. rewrite !length_map.
      reflexivity. }
    rewrite (conserved_here_along ax) by (rewrite splitType_set_children; exact Hst).
    rewrite Children_set_children, size_of_set_children.
    rewrite place_children_sizes by exact Hl.
    replace (GoInt.len (place_children ax (Children t) ws (pos_of ax t)))
      with (GoInt.len (Children t))
      by (unfold GoInt.len; rewrite place_children_length by exact Hl; reflexivity).
    apply Z.eqb_eq. unfold ws. rewrite sum_Z_app. cbn [sum_Z fold_right].
    fold (sum_Z (map q l2)). rewrite map_app, sum_Z_app. lia.
Qed.

(** A pane, and a column as the two-level layouts have it below the
    root: a pane, or a split across the axis whose children are panes,
    which satisfies the size invariant and has window-sized extents
    along its own axis. *)
Lemma pane_conserved g : splitType g = SplitNone -> Children g = [] -> conserved g = true.
Proof. destruct g; cbn. intros -> ->. reflexivity. Qed.

Lemma splitType_set_size ax t v : splitType (set_size ax t v) = splitType t.
Proof. destruct t, ax; reflexivity. Qed.

Lemma splitType_set_pos ax t v : splitType (set_pos ax t v) = splitType t.
Proof. destruct t, ax; reflexivity. Qed.

Lemma splitType_updateChildSizes ax t v : splitType (updateChildSizes ax t v) = splitType t.
Proof. destruct t, ax; reflexivity. Qed.

Lemma Children_updateChildSizes ax t v :
  Children (updateChildSizes ax t v)
  = if SplitType_eqb (splitType t) (cross_split ax)
    then map (fun child => updateChildSizes ax child v) (Children t)
    else Children t.
Proof. destruct t, ax; reflexivity. Qed.

Lemma size_of_cross_set_size ax t v :
  size_of (cross_axis ax) (set_size ax t v) = size_of (cross_axis ax) t.
Proof. destruct t, ax; reflexivity. Qed.

Lemma size_of_cross_set_pos ax ax' t v : size_of ax' (set_pos ax t v) = size_of ax' t.
Proof. destruct t, ax, ax'; reflexivity. Qed.

Lemma size_of_cross_updateChildSizes ax t v :
  size_of (cross_axis ax) (updateChildSizes ax t v) = size_of (cross_axis ax) t.
Proof. destruct t, ax; reflexivity. Qed.

Lemma placed_pane ax g v cur :
  splitType g = SplitNone /\ Children g = [] ->
  splitType (updateChildSizes ax (set_pos ax (set_size ax g v) cur) v) = SplitNone
  /\ Children (updateChildSizes ax (set_pos ax (set_size ax g v) cur) v) = [].
Proof.
  intros [Hs Hc]. split.
  - rewrite splitType_updateChildSizes, splitType_set_pos, splitType_set_size. exact Hs.
  - rewrite Children_updateChildSizes, Children_set_pos, Children_set_size, Hc.
    destruct (SplitType_eqb _ _); reflexivity.
Qed.

Lemma updated_pane ax g v :
  splitType g = SplitNone /\ Children g = [] ->
  splitType (updateChildSizes ax g v) = SplitNone
  /\ Children (updateChildSizes ax g v) = [].
Proof.
  intros [Hs Hc]. split.
  - rewrite splitType_updateChildSizes. exact Hs.
  - rewrite Children_updateChildSizes, Hc. destruct (SplitType_eqb _ _); reflexivity.
Qed.

Lemma place_children_panes ax cs : forall ws pos,
  Forall (fun g => splitType g = SplitNone /\ Children g = []) cs ->
  Forall (fun g => splitType g = SplitNone /\ Children g = []) (place_children ax cs ws pos).
Proof.
  induction cs as [|c cs IH]; intros [|w ws] pos H; cbn [place_children]; try constructor.
  - inversion H; subst. apply placed_pane. assumption.
  - inversion H; subst. apply IH. assumption.
Qed.

Section TwoLevels.
Variable ax : Axis.

Let pane (g : LayoutNode) : Prop := splitType g = SplitNone /\ Children g = [].

Let column (c : LayoutNode) : Prop :=
  pane c
  \/ (splitType c = cross_split ax
      /\ Forall pane (Children c)
      /\ conserved_here c = true
      /\ size_of (cross_axis ax) c <= 2 ^ 31
      /\ Forall (fun g => 0 <= size_of (cross_axis ax) g <= 2 ^ 31) (Children c)).

Lemma cross_is_along : cross_split ax = along_split (cross_axis ax).
Proof. destruct ax; reflexivity. Qed.

Lemma column_conserved c : column c -> conserved c = true.
Proof.
  intros [[Hs Hc]|(Hs & Hp & Hc & _)]; [apply pane_conserved; assumption|].
  rewrite conserved_unfold, Hc. cbn [andb]. apply forallb_forall.
  intros g Hg. rewrite Forall_forall in Hp. destruct (Hp g Hg). apply pane_conserved; assumption.
Qed.

Lemma column_placed c v cur :
  column c -> column (updateChildSizes ax (set_pos ax (set_size ax c v) cur) v).
Proof.
  intros [Hp|(Hs & Hp & Hc & Hmax & Hcs)]; [left; apply placed_pane, Hp|].
  right.
  assert (Hst : splitType (updateChildSizes ax (set_pos ax (set_size ax c v) cur) v)
                = cross_split ax).
  { rewrite splitType_updateChildSizes, splitType_set_pos, splitType_set_size. exact Hs. }
  assert (Hch : Children (updateChildSizes ax (set_pos ax (set_size ax c v) cur) v)
                = map (fun g => updateChildSizes ax g v) (Children c)).
  { rewrite Children_updateChildSizes, splitType_set_pos, splitType_set_size, Hs.
    rewrite Children_set_pos, Children_set_size.
    destruct ax; reflexivity. }
  assert (Hsz : size_of (cross_axis ax) (updateChildSizes ax (set_pos ax (set_size ax c v) cur) v)
                = size_of (cross_axis ax) c).
  { rewrite size_of_cross_updateChildSizes, size_of_cross_set_pos, size_of_cross_set_size.
    reflexivity. }
  assert (Hmap : map (size_of (cross_axis ax)) (map (fun g => updateChildSizes ax g v) (Children c))
                 = map (size_of (cross_axis ax)) (Children c)).
  { rewrite map_map. apply map_ext. intros g. apply size_of_cross_updateChildSizes. }
  split; [exact Hst|]. rewrite Hch. split; [|split; [|split]].
  - apply Forall_map. eapply Forall_impl; [|exact Hp]. intros g. apply updated_pane.
  - rewrite (conserved_here_along (cross_axis ax)) by (rewrite Hst; apply cross_is_along).
    rewrite (conserved_here_along (cross_axis ax)) in Hc by (rewrite Hs; apply cross_is_along).
    rewrite Hch, Hsz, Hmap. unfold GoInt.len in *. rewrite length_map. exact Hc.
  - rewrite Hsz. exact Hmax.
  - apply Forall_map, Forall_forall. intros g Hg. rewrite size_of_cross_updateChildSizes.
    rewrite Forall_forall in Hcs. apply Hcs, Hg.
Qed.

Lemma place_children_columns cs : forall ws pos,
  Forall column cs -> Forall column (place_children ax cs ws pos).
Proof.
  induction cs as [|c cs IH]; intros [|w ws] pos H; cbn [place_children]; try constructor.
  - inversion H; subst. apply column_placed. assumption.
  - inversion H; subst. apply IH. assumption.
Qed.

(** The step of the nested pass on a column. *)
Lemma nested_step_conserved id p fuel a a' :
  0 <= p <= 100 -> column a ->
  (if 1 <? GoInt.len (Children a) then
     let activeGrandchildIdx := find_active 0 (Children a) id in
     if 0 <=? activeGrandchildIdx then
       child <- zoom_by_split a activeGrandchildIdx p ;;
       applyNestedZoom_rec fuel child id p
     else Ok a
   else Ok a) = Ok a' ->
  conserved a' = true.
Proof.
  intros Hp Hcol H.
  destruct (Z.ltb_spec 1 (GoInt.len (Children a))) as [Hlen|Hlen].
  2:{ injection H as <-. apply column_conserved, Hcol. }
  cbv zeta in H.
  destruct (Z.leb_spec 0 (find_active 0 (Children a) id)) as [Hidx|Hidx].
  2:{ injection H as <-. apply column_conserved, Hcol. }
  destruct Hcol as [[_ Hc]|(Hs & Hpanes & Hc & Hmax & Hcs)].
  { rewrite Hc in Hlen. cbn in Hlen. lia. }
  inv_bind H.
  match goal with Hz : zoom_by_split _ _ _ = Ok ?c |- _ => rename Hz into Hzoom; rename c into c2 end.
  assert (Hax : applyAxisZoom (cross_axis ax) a (find_active 0 (Children a) id) p = Ok c2).
  { unfold zoom_by_split in Hzoom. rewrite Hs in Hzoom. destruct ax; exact Hzoom. }
  assert (Hrange : 0 <= find_active 0 (Children a) id < GoInt.len (Children a)).
  { destruct (find_active_range (Children a) id 0); lia. }
  assert (Hc2 : conserved_here c2 = true).
  { eapply applyAxisZoom_conserved_here; try eassumption. rewrite Hs. apply cross_is_along. }
  assert (Hp2 : Forall pane (Children c2)).
  { destruct (applyAxisZoom_inv _ _ _ _ _ Hax) as [[_ ->]|(_ & ws & _ & _ & ->)];
      [exact Hpanes|].
    rewrite Children_set_children. apply place_children_panes, Hpanes. }
  assert (Hcons : conserved c2 = true).
  { rewrite conserved_unfold, Hc2. cbn [andb]. apply forallb_forall.
    intros g Hg. rewrite Forall_forall in Hp2. destruct (Hp2 g Hg).
    apply pane_conserved; assumption. }
  destruct fuel as [|fuel]; [discriminate|].
  cbn [applyNestedZoom_rec] in H.
  rewrite on_first_unchanged in H.
  - cbn [bind] in H. injection H as <-. rewrite set_children_same. exact Hcons.
  - intros g Hg _. rewrite Forall_forall in Hp2. destruct (Hp2 g Hg) as [_ Hg0].
    rewrite Hg0. reflexivity.
Qed.

Lemma conserved_here_frames a b :
  splitType a = splitType b -> frame a = frame b ->
  map frame (Children a) = map frame (Children b) ->
  conserved_here a = conserved_here b.
Proof.
  intros Hs Hf Hc. unfold conserved_here. rewrite Hs.
  pose proof (map_frame_sizes AxisWidth _ _ Hc) as Hw.
  pose proof (map_frame_sizes AxisHeight _ _ Hc) as Hh.
  assert (Hl : GoInt.len (Children a) = GoInt.len (Children b)).
  { unfold GoInt.len. rewrite <- (length_map frame (Children a)), Hc, length_map. reflexivity. }
  pose proof (size_of_frame AxisWidth a) as Wa. pose proof (size_of_frame AxisWidth b) as Wb.
  pose proof (size_of_frame AxisHeight a) as Ha. pose proof (size_of_frame AxisHeight b) as Hb.
  rewrite Hf in Wa, Ha. cbn [size_of] in *.
  change (map Width (Children a)) with (map (size_of AxisWidth) (Children a)).
  change (map Height (Children a)) with (map (size_of AxisHeight) (Children a)).
  rewrite Hw, Hh, Hl, Wa, Ha, <- Wb, <- Hb.
  destruct (splitType b); reflexivity.
Qed.

Lemma nested_conserved id p t1 z :
  0 <= p <= 100 ->
  conserved_here t1 = true -> Forall column (Children t1) ->
  applyNestedZoom t1 id p = Ok z -> conserved z = true.
Proof.
  intros Hp Hc Hcols H. unfold applyNestedZoom in H.
  pose proof (applyNestedZoom_rec_frame id p _ _ _ H) as [Hf Hfs].
  assert (Hst : splitType z = splitType t1).
  { destruct (depth t1); [discriminate|]. cbn [applyNestedZoom_rec] in H. inv_bind H.
    injection H as <-. apply splitType_set_children. }
  rewrite conserved_unfold, (conserved_here_frames z t1 Hst Hf Hfs), Hc. cbn [andb].
  destruct (depth t1) as [|fuel]; [discriminate|]. cbn [applyNestedZoom_rec] in H. inv_bind H.
  injection H as <-. rewrite Children_set_children.
  apply forallb_forall. apply Forall_forall.
  eapply (on_first_Forall (fun a => conserved a = true)); [| |eassumption].
  - intros a a' Ha _ Hstep _. cbv beta in Hstep.
    rewrite Forall_forall in Hcols.
    eapply nested_step_conserved; [exact Hp | apply Hcols, Ha | exact Hstep].
  - eapply Forall_impl; [|exact Hcols]. apply column_conserved.
Qed.

Lemma two_level_columns t :
  two_level ax t = true -> well_formed t = true -> conserved t = true ->
  sizes_bounded t = true ->
  splitType t = along_split ax
  /\ conserved_here t = true
  /\ size_of ax t <= 2 ^ 31
  /\ Forall (fun c => 0 <= size_of ax c <= 2 ^ 31) (Children t)
  /\ Forall column (Children t).
Proof.
  assert (Heqb : forall a b, SplitType_eqb a b = true -> a = b)
    by (intros [] []; cbn; congruence).
  assert (Hwfp : forall g, well_formed g = true -> is_pane g = true -> pane g).
  { intros [w h x y id st cs] Hw Hg. unfold is_pane in Hg. cbn [splitType] in Hg.
    apply Heqb in Hg. subst st. cbn in Hw. destruct cs; [split; reflexivity | discriminate]. }
  assert (Hsb : forall g a, sizes_bounded g = true -> 0 <= size_of a g <= 2 ^ 31).
  { intros [w h x y id st cs] a Hg. cbn in Hg. rewrite !andb_true_iff in Hg.
    destruct Hg as ((((H1 & H2) & H3) & H4) & _). destruct a; cbn; lia. }
  assert (Hsbc : forall g, sizes_bounded g = true ->
                           Forall (fun c => sizes_bounded c = true) (Children g)).
  { intros [w h x y id st cs] Hg. cbn in Hg. rewrite !andb_true_iff in Hg.
    destruct Hg as (_ & Hg). apply Forall_forall, forallb_forall, Hg. }
  assert (Hwfc : forall g, well_formed g = true ->
                           Forall (fun c => well_formed c = true) (Children g)).
  { intros [w h x y id st cs] Hg. cbn in Hg. rewrite !andb_true_iff in Hg.
    destruct Hg as (_ & Hg). apply Forall_forall, forallb_forall, Hg. }
  intros H2 Hwf Hc Hb. unfold two_level in H2. apply andb_true_iff in H2.
  destruct H2 as [Hs Hkids]. apply Heqb in Hs.
  rewrite conserved_unfold in Hc. apply andb_true_iff in Hc. destruct Hc as [Hch Hcc].
  split; [exact Hs|]. split; [exact Hch|]. split; [apply Hsb, Hb|].
  pose proof (Hsbc _ Hb) as Hbk. pose proof (Hwfc _ Hwf) as Hwk.
  rewrite forallb_forall in Hkids, Hcc. rewrite Forall_forall in Hbk, Hwk.
  split; apply Forall_forall; intros c Hin; [apply Hsb, Hbk, Hin|].
  specialize (Hkids c Hin). apply orb_true_iff in Hkids.
  destruct Hkids as [Hp|Hcol]; [left; apply Hwfp; auto|].
  apply andb_true_iff in Hcol. destruct Hcol as [Hcs Hgs]. apply Heqb in Hcs.
  right. split; [exact Hcs|].
  pose proof (Hsbc _ (Hbk c Hin)) as Hbg. pose proof (Hwfc _ (Hwk c Hin)) as Hwg.
  rewrite forallb_forall in Hgs. rewrite Forall_forall in Hbg, Hwg.
  split; [|split; [|split]].
  - apply Forall_forall. intros g Hg. apply Hwfp; auto.
  - specialize (Hcc c Hin). rewrite conserved_unfold in Hcc.
    apply andb_true_iff in Hcc. apply Hcc.
  - apply Hsb, Hbk, Hin.
  - apply Forall_forall. intros g Hg. apply Hsb, Hbg, Hg.
Qed.

Lemma two_level_zoom_conserved t id p z :
  two_level ax t = true -> well_formed t = true -> conserved t = true ->
  sizes_bounded t = true -> 0 <= p <= 100 ->
  zoomTransform t id p = Ok z -> conserved z = true.
Proof.
  intros H2 Hwf Hc Hb Hp H.
  destruct (two_level_columns t H2 Hwf Hc Hb) as (Hs & Hch & Hmax & Hcs & Hcols).
  unfold zoomTransform in H. inv_bind H.
  match goal with Ha : ApplyZoomToLayout _ _ _ = Ok ?u |- _ => rename Ha into Hroot; rename u into t1 end.
  apply (nested_conserved id p t1 z Hp); [| |exact H].
  - unfold ApplyZoomToLayout in Hroot. rewrite copyLayoutNode_id in Hroot. cbv zeta in Hroot.
    destruct (Z.eqb_spec (find_active 0 (Children t) id) (-1)) as [E|E].
    + injection Hroot as <-. exact Hch.
    + unfold zoom_by_split in Hroot. rewrite Hs in Hroot.
      assert (Hax : applyAxisZoom ax t (find_active 0 (Children t) id) p = Ok t1)
        by (destruct ax; exact Hroot).
      eapply applyAxisZoom_conserved_here; try eassumption.
      destruct (find_active_range (Children t) id 0); lia.
  - unfold ApplyZoomToLayout in Hroot. rewrite copyLayoutNode_id in Hroot. cbv zeta in Hroot.
    destruct (Z.eqb_spec (find_active 0 (Children t) id) (-1)) as [E|E].
    + injection Hroot as <-. exact Hcols.
    + unfold zoom_by_split in Hroot. rewrite Hs in Hroot.
      assert (Hax : applyAxisZoom ax t (find_active 0 (Children t) id) p = Ok t1)
        by (destruct ax; exact Hroot).
      destruct (applyAxisZoom_inv _ _ _ _ _ Hax) as [[_ ->]|(_ & ws & _ & _ & ->)];
        [exact Hcols|].
      rewrite Children_set_children. apply place_children_columns, Hcols.
Qed.

End TwoLevels.

(** X12. In a layout of at most two levels of splits (a row of columns
    or a column of rows, each of them a pane or split once the other way
    into panes) the zoom keeps the size invariant: if the layout is well
    formed, satisfies the invariant at every split and has window-sized
    widths and heights (between 0 and 2^31), then for a percent between
    0 and 100 and any pane id the zoom transform returns a tree that
    satisfies the invariant at every split. *)
Theorem two_level_zoom_keeps_sizes :
  forall ax t activePaneID zoomPercent,
    two_level ax t = true ->
    well_formed t = true ->
    conserved t = true ->
    sizes_bounded t = true ->
    0 <= zoomPercent <= 100 ->
    exists zoomed,
      zoomTransform t activePaneID zoomPercent = Ok zoomed
      /\ conserved zoomed = true.
Proof.
  intros ax t id p H2 Hwf Hc Hb Hp.
  destruct (zoomTransform_shape t id p) as (z & Hz & _).
  exists z. split; [exact Hz|].
  exact (two_level_zoom_conserved ax t id p z H2 Hwf Hc Hb Hp Hz).
Qed.

(* ================================================================== *)
(** * The degraded path *)

(** ** Columns and rows *)

Lemma filter_nil_all {A} (f : A -> bool) l :
  (forall a, In a l -> f a = false) -> filter f l = [].
Proof.
  induction l as [|a l IH]; intros H; [reflexivity|]. cbn [filter].
  rewrite (H a (or_introl eq_refl)). apply IH. intros b Hb. apply H. right. exact Hb.
Qed.

Section Bands.
Variable ax : Axis.

Let band_ok (done : list PaneInfo.t) (b : band) : Prop :=
  b_panes b = filter (fun p => pane_pos ax p =? b_pos b) done
  /\ b_panes b <> []
  /\ Forall (fun p => pane_size ax p <= b_size b) (b_panes b)
  /\ Exists (fun p => pane_size ax p = b_size b) (b_panes b).

Lemma band_ok_other done p b :
  b_pos b <> pane_pos ax p -> band_ok done b -> band_ok (done ++ [p]) b.
Proof.
  intros Hne (H1 & H2 & H3 & H4). split; [|auto].
  rewrite filter_app. cbn [filter].
  destruct (Z.eqb_spec (pane_pos ax p) (b_pos b)); [congruence|].
  rewrite app_nil_r. exact H1.
Qed.

Lemma band_ok_same done p b :
  b_pos b = pane_pos ax p -> band_ok done b ->
  band_ok (done ++ [p])
          (mkBand (b_pos b)
                  (if b_size b <? pane_size ax p then pane_size ax p else b_size b)
                  (b_panes b ++ [p])).
Proof.
  intros He (H1 & H2 & H3 & H4). unfold band_ok. cbn [b_pos b_size b_panes].
  split; [|split; [|split]].
  - rewrite filter_app. cbn [filter]. rewrite He, Z.eqb_refl, H1, He. reflexivity.
  - destruct (b_panes b); discriminate.
  - apply Forall_app. split.
    + eapply Forall_impl; [|exact H3]. cbv beta. intros q Hq.
      destruct (Z.ltb_spec (b_size b) (pane_size ax p)); lia.
    + constructor; [|constructor]. destruct (Z.ltb_spec (b_size b) (pane_size ax p)); lia.
  - apply Exists_app. destruct (Z.ltb_spec (b_size b) (pane_size ax p)).
    + right. constructor. reflexivity.
    + left. exact H4.
Qed.

Lemma map_add_keys p : forall m,
  map b_pos (map_add ax m p)
  = if existsb (fun b => b_pos b =? pane_pos ax p) m
    then map b_pos m else map b_pos m ++ [pane_pos ax p].
Proof.
  induction m as [|b m IH]; cbn [map_add existsb map app]; [reflexivity|].
  destruct (b_pos b =? pane_pos ax p); cbn [orb map b_pos]; [reflexivity|].
  rewrite IH. destruct (existsb _ m); reflexivity.
Qed.

Lemma existsb_key_In key m :
  existsb (fun b => b_pos b =? key) m = true <-> In key (map b_pos m).
Proof.
  rewrite existsb_exists, in_map_iff. split.
  - intros (b & Hb & E). apply Z.eqb_eq in E. eauto.
  - intros (b & E & Hb). exists b. split; [exact Hb | apply Z.eqb_eq, E].
Qed.

Lemma map_add_NoDup p m : NoDup (map b_pos m) -> NoDup (map b_pos (map_add ax m p)).
Proof.
  intros H. rewrite map_add_keys.
  destruct (existsb _ m) eqn:E; [exact H|].
  apply NoDup_app; [exact H | constructor; [intros [] | constructor] |].
  intros k Hk [<-|[]]. apply existsb_key_In in Hk. congruence.
Qed.

Lemma map_add_ok done p : forall m,
  NoDup (map b_pos m) ->
  Forall (band_ok done) m ->
  (forall q, In q done -> pane_pos ax q = pane_pos ax p -> In (pane_pos ax p) (map b_pos m)) ->
  Forall (band_ok (done ++ [p])) (map_add ax m p).
Proof.
  induction m as [|b m IH]; intros Hnd Hok Hcov; cbn [map_add].
  - constructor; [|constructor]. unfold band_ok. cbn [b_pos b_size b_panes].
    split; [|split; [discriminate | split; constructor; try constructor; lia]].
    rewrite filter_app. cbn [filter]. rewrite Z.eqb_refl.
    replace (filter _ done) with (@nil PaneInfo.t); [reflexivity|].
    symmetry. apply filter_nil_all. intros q Hq. apply Z.eqb_neq. intros E.
    destruct (Hcov q Hq E).
  - inversion Hok as [|? ? Hb Hm]; subst. cbn [map] in Hnd. inversion Hnd as [|? ? Hnotin Hnd']; subst.
    destruct (Z.eqb_spec (b_pos b) (pane_pos ax p)) as [E|E].
    + constructor; [apply band_ok_same; assumption|].
      rewrite Forall_forall in Hm |- *. intros b' Hb'. apply band_ok_other; [|apply Hm, Hb'].
      intros E'. apply Hnotin. rewrite E, <- E'. apply in_map, Hb'.
    + constructor; [apply band_ok_other; assumption|].
      apply IH; [exact Hnd' | exact Hm |].
      intros q Hq Eq. destruct (Hcov q Hq Eq) as [E'|Hin]; [congruence | exact Hin].
Qed.

Lemma map_add_cover done p m :
  (forall q, In q done -> In (pane_pos ax q) (map b_pos m)) ->
  forall q, In q (done ++ [p]) -> In (pane_pos ax q) (map b_pos (map_add ax m p)).
Proof.
  intros Hcov q Hq. rewrite map_add_keys. apply in_app_or in Hq.
  destruct (existsb _ m) eqn:E.
  - destruct Hq as [Hq|[<-|[]]]; [apply Hcov, Hq | apply existsb_key_In, E].
  - apply in_or_app. destruct Hq as [Hq|[<-|[]]]; [left; apply Hcov, Hq | right; left; reflexivity].
Qed.

Lemma fold_map_add panes : forall m done,
  NoDup (map b_pos m) ->
  Forall (band_ok done) m ->
  (forall q, In q done -> In (pane_pos ax q) (map b_pos m)) ->
  NoDup (map b_pos (fold_left (map_add ax) panes m))
  /\ Forall (band_ok (done ++ panes)) (fold_left (map_add ax) panes m)
  /\ (forall q, In q (done ++ panes) ->
                In (pane_pos ax q) (map b_pos (fold_left (map_add ax) panes m))).
Proof.
  induction panes as [|p panes IH]; intros m done Hnd Hok Hcov; cbn [fold_left].
  - rewrite app_nil_r. auto.
  - replace (done ++ p :: panes) with ((done ++ [p]) ++ panes)
      by (rewrite <- app_assoc; reflexivity).
    apply IH.
    + apply map_add_NoDup, Hnd.
    + apply map_add_ok; [exact Hnd | exact Hok |]. intros q Hq <-. apply Hcov, Hq.
    + apply map_add_cover, Hcov.
Qed.

Lemma insert_band_perm b : forall l, Permutation (insert_band b l) (b :: l).
Proof.
  induction l as [|c l IH]; cbn [insert_band]; [reflexivity|].
  destruct (b_pos b <? b_pos c); [reflexivity|].
  rewrite IH. apply perm_swap.
Qed.

Lemma sort_bands_perm : forall l, Permutation (sort_bands l) l.
Proof.
  induction l as [|a l IH]; cbn [sort_bands fold_right]; [reflexivity|].
  fold (sort_bands l). rewrite insert_band_perm. constructor. exact IH.
Qed.

Lemma insert_band_sorted b : forall l,
  ~ In (b_pos b) (map b_pos l) ->
  StronglySorted (fun a c => b_pos a < b_pos c) l ->
  StronglySorted (fun a c => b_pos a < b_pos c) (insert_band b l).
Proof.
  induction l as [|c l IH]; intros Hnotin Hs; cbn [insert_band].
  - constructor; constructor.
  - inversion Hs as [|? ? Hs' Hall]; subst.
    destruct (Z.ltb_spec (b_pos b) (b_pos c)) as [Hlt|Hge].
    + constructor; [exact Hs|]. constructor; [exact Hlt|].
      eapply Forall_impl; [|exact Hall]. cbv beta. intros. lia.
    + assert (Hne : b_pos c <> b_pos b) by (intros E; apply Hnotin; left; exact E).
      constructor.
      * apply IH; [|exact Hs']. intros Hin. apply Hnotin. right. exact Hin.
      * rewrite Forall_forall in Hall |- *. intros d Hd.
        apply (Permutation_in _ (insert_band_perm b l)) in Hd.
        destruct Hd as [<-|Hd]; [lia | apply Hall, Hd].
Qed.

Lemma sort_bands_sorted : forall l,
  NoDup (map b_pos l) -> StronglySorted (fun a c => b_pos a < b_pos c) (sort_bands l).
Proof.
  induction l as [|a l IH]; intros Hnd; cbn [sort_bands fold_right]; [constructor|].
  fold (sort_bands l). cbn [map] in Hnd. inversion Hnd as [|? ? Hnotin Hnd']; subst.
  apply insert_band_sorted; [|apply IH, Hnd'].
  intros Hin. apply Hnotin.
  eapply Permutation_in; [apply Permutation_map, sort_bands_perm | exact Hin].
Qed.

Lemma sorted_bands_unique : forall l1 l2,
  StronglySorted (fun a c => b_pos a < b_pos c) l1 ->
  StronglySorted (fun a c => b_pos a < b_pos c) l2 ->
  Permutation l1 l2 -> l1 = l2.
Proof.
  induction l1 as [|a l1 IH]; intros l2 H1 H2 Hp.
  - apply Permutation_nil in Hp. subst. reflexivity.
  - destruct l2 as [|b l2]; [apply Permutation_sym, Permutation_nil in Hp; discriminate|].
    inversion H1 as [|? ? H1' A1]; subst. inversion H2 as [|? ? H2' A2]; subst.
    assert (E : a = b).
    { assert (Ha : In a (b :: l2)) by (eapply Permutation_in; [exact Hp | left; reflexivity]).
      assert (Hb : In b (a :: l1))
        by (eapply Permutation_in; [apply Permutation_sym, Hp | left; reflexivity]).
      destruct Ha as [Ha|Ha]; [congruence|]. destruct Hb as [Hb|Hb]; [congruence|].
      rewrite Forall_forall in A1, A2. specialize (A1 b Hb). specialize (A2 a Ha). lia. }
    subst b. f_equal. apply IH; [assumption | assumption |].
    eapply Permutation_cons_inv, Hp.
Qed.

Lemma find_bands_groups panes : groups_by ax panes (find_bands ax panes).
Proof.
  destruct (fold_map_add panes [] []) as (Hnd & Hok & Hcov);
    [constructor | constructor | intros q [] |].
  cbn [app] in Hok, Hcov. unfold groups_by, find_bands.
  set (m := fold_left (map_add ax) panes []) in *.
  split; [apply sort_bands_sorted, Hnd|]. split.
  - intros p Hp. specialize (Hcov p Hp). apply in_map_iff in Hcov.
    destruct Hcov as (b & E & Hb). exists b. split; [|exact E].
    eapply Permutation_in; [apply Permutation_sym, sort_bands_perm | exact Hb].
  - eapply Permutation_Forall; [apply Permutation_sym, sort_bands_perm | exact Hok].
Qed.

Lemma find_bands_any_order panes entries :
  Permutation entries (fold_left (map_add ax) panes []) ->
  sort_bands entries = find_bands ax panes.
Proof.
  intros Hp.
  destruct (fold_map_add panes [] []) as (Hnd & _);
    [constructor | constructor | intros q [] |].
  apply sorted_bands_unique.
  - apply sort_bands_sorted. eapply Permutation_NoDup; [|exact Hnd].
    apply Permutation_map, Permutation_sym, Hp.
  - apply sort_bands_sorted, Hnd.
  - rewrite sort_bands_perm, Hp. unfold find_bands. symmetry. apply sort_bands_perm.
Qed.

End Bands.

(** X13. [findColumns] groups the panes by their left position and
    [findRowsInColumn] by their top position: the groups come in strictly
    increasing order of position, every pane is in the group at its
    position, and each group holds exactly the panes at its position, in
    the order in which they were given, with the width (or height) of
    the largest of them.  The result does not depend on the order in
    which Go iterates over the map the groups are collected in. *)
Theorem findColumns_findRowsInColumn_group :
  forall panes,
    groups_by AxisWidth panes (findColumns panes)
    /\ groups_by AxisHeight panes (findRowsInColumn panes)
    /\ (forall entries,
          Permutation entries (fold_left (map_add AxisWidth) panes []) ->
          sort_bands entries = findColumns panes)
    /\ (forall entries,
          Permutation entries (fold_left (map_add AxisHeight) panes []) ->
          sort_bands entries = findRowsInColumn panes).
Proof.
  intros panes. split; [apply find_bands_groups|]. split; [apply find_bands_groups|].
  split; intros entries; apply find_bands_any_order.
Qed.

(** ** The pane list *)

Lemma strings_Split_free s sep : free_of sep s -> strings_Split s sep = [s].
Proof.
  induction 1 as [|c s Hc _ IH]; cbn [strings_Split]; [reflexivity|].
  rewrite Hc, IH. reflexivity.
Qed.

Lemma strings_Split_app s rest sep :
  free_of sep s -> strings_Split (s ++ sep :: rest) sep = s :: strings_Split rest sep.
Proof.
  induction 1 as [|c s Hc _ IH]; cbn [strings_Split app].
  - rewrite Ascii.eqb_refl. reflexivity.
  - rewrite Hc, IH. reflexivity.
Qed.

Lemma strings_Split_Join parts sep :
  parts <> [] -> Forall (free_of sep) parts ->
  strings_Split (strings_Join parts [sep]) sep = parts.
Proof.
  intros Hne H. induction H as [|p parts Hp Hps IH]; [congruence|].
  destruct parts as [|q parts].
  - cbn [strings_Join]. apply strings_Split_free, Hp.
  - change (strings_Join (p :: q :: parts) [sep])
      with (p ++ sep :: strings_Join (q :: parts) [sep]).
    rewrite strings_Split_app by exact Hp. f_equal. apply IH. discriminate.
Qed.

Lemma is_digit_val d : is_digit d = true -> 0 <= byte_val d - 48 <= 9.
Proof. unfold is_digit. rewrite andb_true_iff, !Z.leb_le. lia. Qed.

Lemma digits_value_ge ds : forall acc n,
  0 <= acc -> digits_value acc ds = Some n -> acc <= n.
Proof.
  induction ds as [|d ds IH]; intros acc n Hacc H; cbn [digits_value] in H.
  - injection H as <-. lia.
  - destruct (is_digit d) eqn:Hd; [|discriminate].
    pose proof (is_digit_val d Hd). apply IH in H; lia.
Qed.

Lemma ParseUint_loop_digits ds : forall acc n,
  0 <= acc -> digits_value acc ds = Some n -> n < 2 ^ 64 ->
  ParseUint_loop acc ds = UintOk n.
Proof.
  induction ds as [|d ds IH]; intros acc n Hacc H Hn; cbn [digits_value ParseUint_loop] in *.
  - injection H as <-. reflexivity.
  - destruct (is_digit d) eqn:Hd; [|discriminate].
    pose proof (is_digit_val d Hd). cbv zeta.
    assert (Hge : 0 <= acc * 10 + (byte_val d - 48)) by lia.
    pose proof (digits_value_ge ds _ n Hge H).
    destruct (Z.leb_spec (2 ^ 64) (acc * 10 + (byte_val d - 48))); [lia|].
    apply IH; [lia | exact H | exact Hn].
Qed.

(** Where [strconv.Atoi] returns no error, the integer it returns is the
    value. *)
Lemma Atoi_value_Atoi s z : Atoi s = Some z -> Atoi_value s = z.
Proof.
  unfold Atoi, Atoi_value. cbv zeta.
  set (neg := match s with [] => false | c :: _ => Ascii.eqb c "-"%char end).
  set (ds := match s with
             | [] => s
             | c :: r => if Ascii.eqb c "-"%char || Ascii.eqb c "+"%char then r else s
             end).
  clearbody neg ds.
  destruct ds as [|d ds]; [discriminate|].
  destruct (digits_value 0 (d :: ds)) as [n|] eqn:E; [|discriminate].
  pose proof (digits_value_ge _ _ _ (Z.le_refl 0) E) as Hn.
  destruct (GoInt.in_range _) eqn:Hr; [|discriminate]. intros H. injection H as <-.
  unfold GoInt.in_range, GoInt.min_int, GoInt.max_int in Hr.
  apply andb_true_iff in Hr. rewrite !Z.leb_le in Hr.
  destruct neg.
  - rewrite (ParseUint_loop_digits _ 0 n (Z.le_refl 0) E) by lia.
    destruct (Z.ltb_spec (2 ^ 63) n); [lia | reflexivity].
  - rewrite (ParseUint_loop_digits _ 0 n (Z.le_refl 0) E) by lia.
    destruct (Z.leb_spec (2 ^ 63) n); [lia | reflexivity].
Qed.

Lemma Atoi_value_itoa z : GoInt.in_range z = true -> Atoi_value (itoa z) = z.
Proof. intros H. apply Atoi_value_Atoi, Atoi_itoa, H. Qed.

Lemma num_char_free c d :
  is_num_char d = false -> Forall (fun e => is_num_char e = true) c -> free_of d c.
Proof.
  intros Hd H. unfold free_of. eapply Forall_impl; [|exact H]. cbv beta.
  intros e He. destruct (Ascii.eqb_spec e d); [subst; congruence | reflexivity].
Qed.

Lemma pane_line_fields p :
  pane_printable p = true ->
  free_of ":"%char (PaneInfo.ID p) /\ free_of newline (PaneInfo.ID p)
  /\ GoInt.in_range (PaneInfo.Index p) = true
  /\ GoInt.in_range (PaneInfo.Width p) = true /\ GoInt.in_range (PaneInfo.Height p) = true
  /\ GoInt.in_range (PaneInfo.Left p) = true /\ GoInt.in_range (PaneInfo.Top p) = true.
Proof.
  unfold pane_printable. rewrite !andb_true_iff, forallb_forall.
  intros (((((H & ?) & ?) & ?) & ?) & ?). repeat split; try assumption.
  - apply Forall_forall. intros d Hd. specialize (H d Hd). apply andb_true_iff in H.
    destruct H as [H _]. apply negb_true_iff in H. exact H.
  - apply Forall_forall. intros d Hd. specialize (H d Hd). apply andb_true_iff in H.
    destruct H as [_ H]. apply negb_true_iff in H. exact H.
Qed.

Lemma pane_of_line_pane_line p :
  pane_printable p = true -> pane_of_line (pane_line p) = Some p.
Proof.
  intros H. destruct (pane_line_fields p H) as (Hid & _ & Hi & Hw & Hh & Hl & Ht).
  assert (Hnum : forall z, free_of ":"%char (itoa z))
    by (intros z; apply num_char_free; [reflexivity | apply itoa_chars]).
  assert (Hflag : free_of ":"%char (if PaneInfo.Active p then str "1" else str "0"))
    by (destruct (PaneInfo.Active p); repeat constructor).
  assert (Hsplit : strings_Split (pane_line p) ":"%char
                   = [ PaneInfo.ID p; itoa (PaneInfo.Index p); itoa (PaneInfo.Width p);
                       itoa (PaneInfo.Height p); itoa (PaneInfo.Left p);
                       itoa (PaneInfo.Top p);
                       if PaneInfo.Active p then str "1" else str "0" ]).
  { unfold pane_line. apply (strings_Split_Join _ ":"%char); [discriminate|].
    repeat (constructor; auto). }
  unfold pane_of_line. rewrite Hsplit.
  assert (Hne : exists c r, pane_line p = c :: r).
  { unfold pane_line. cbn [strings_Join].
    destruct (PaneInfo.ID p); unfold str; cbn [list_ascii_of_string app]; eauto. }
  destruct Hne as (c & r & ->).
  rewrite !Atoi_value_itoa by assumption.
  destruct p as [id i w h l t a]. cbn [PaneInfo.Active PaneInfo.ID PaneInfo.Index
    PaneInfo.Width PaneInfo.Height PaneInfo.Left PaneInfo.Top].
  destruct a; reflexivity.
Qed.

Lemma pane_line_no_newline p :
  pane_printable p = true -> free_of newline (pane_line p).
Proof.
  intros H. destruct (pane_line_fields p H) as (_ & Hid & _).
  assert (Hnum : forall z, free_of newline (itoa z))
    by (intros z; apply num_char_free; [reflexivity | apply itoa_chars]).
  unfold pane_line, free_of. cbn [strings_Join]. unfold str. cbn [list_ascii_of_string].
  repeat (apply Forall_app; split; [auto|]); try (constructor; [reflexivity|]).
  all: repeat (apply Forall_app; split; [apply Hnum|]); try (constructor; [reflexivity|]).
  all: try apply Hnum.
  all: destruct (PaneInfo.Active p); repeat constructor.
Qed.

Lemma panes_of_lines_pane_lines ps :
  Forall (fun p => pane_printable p = true) ps ->
  panes_of_lines (strings_Split (strings_Join (map pane_line ps) [newline]) newline) = ps.
Proof.
  intros H. destruct ps as [|p ps]; [reflexivity|].
  rewrite strings_Split_Join;
    [| discriminate
     | apply Forall_map; eapply Forall_impl; [|exact H]; apply pane_line_no_newline].
  induction H as [|q qs Hq _ IH]; [reflexivity|].
  cbn [map panes_of_lines]. rewrite pane_of_line_pane_line by exact Hq. f_equal. exact IH.
Qed.

Section TmuxFacts.
Variable World : Type.
Variable perform : World -> Effect -> option gostring * World.

(** X14. [GetPanes] reads back the pane list tmux prints: where the
    answer to [list-panes] is the lines id:index:width:height:left:top:active
    of a list of panes, one per line, whose ids hold no colon and no line
    break and whose integers fit Go's [int], [GetPanes] returns that
    list, the panes in their order and every field as printed, and fails
    in no case in which the command itself succeeds. *)
Theorem GetPanes_reads_pane_lines :
  forall (w : World) (trace : list Effect) (w1 : World) (panes : list PaneInfo.t),
    Forall (fun p => pane_printable p = true) panes ->
    perform w (RunTmux list_panes_args)
    = (Some (strings_Join (map pane_line panes) [newline]), w1) ->
    GetPanes World perform (w, trace)
    = (Ok (Val panes), (w1, trace ++ [RunTmux list_panes_args]))
    /\ forall w0 trace0 out w2,
         perform w0 (RunTmux list_panes_args) = (Some out, w2) ->
         exists read,
           GetPanes World perform (w0, trace0)
           = (Ok (Val read), (w2, trace0 ++ [RunTmux list_panes_args])).
Proof.
  intros w trace w1 ps Hps Hperf. split.
  - unfold GetPanes. unfold bindM at 1.
    rewrite (TmuxCmd_run World perform _ w trace _ w1 Hperf). unfold retM.
    rewrite panes_of_lines_pane_lines by exact Hps. reflexivity.
  - intros w0 trace0 out w2 H. unfold GetPanes. unfold bindM at 1.
    rewrite (TmuxCmd_run World perform _ w0 trace0 _ w2 H). unfold retM. eauto.
Qed.


Lemma GetActivePaneID_run (w : World) (trace : list Effect) (w1 : World) (out : gostring)
      (n : Z) :
  GoInt.in_range n = true ->
  out = "%"%char :: itoa n \/ out = itoa n ->
  perform w (RunTmux (display_p "#{pane_id}")) = (Some out, w1) ->
  GetActivePaneID World perform (w, trace)
  = (Ok (Val n), (w1, trace ++ [RunTmux (display_p "#{pane_id}")])).
Proof.
  intros Hn Hout Hperf.
  unfold GetActivePaneID, GetCurrentPane. unfold bindM at 1.
  rewrite (TmuxCmd_run World perform _ w trace _ w1 Hperf). unfold retM.
  destruct Hout as [->| ->].
  - rewrite Ascii.eqb_refl. unfold atoi_outcome. rewrite Atoi_itoa by exact Hn. reflexivity.
  - destruct (itoa_head n) as (c & r & E & Hc). rewrite E.
    assert (Hne : Ascii.eqb c "%"%char = false).
    { destruct (Ascii.eqb_spec c "%"%char); [subst; discriminate | reflexivity]. }
    rewrite Hne, <- E. unfold atoi_outcome. rewrite Atoi_itoa by exact Hn. reflexivity.
Qed.


(** X16. [GetActivePaneID] reads the pane id tmux prints: where the
    answer to the query is the numeral of an integer that fits Go's
    [int], with the percent sign tmux puts before it or without, the
    integer is returned. *)
Theorem GetActivePaneID_reads_pane_id :
  forall (w : World) (trace : list Effect) (w1 : World) (out : gostring) (n : Z),
    GoInt.in_range n = true ->
    out = "%"%char :: itoa n \/ out = itoa n ->
    perform w (RunTmux (display_p "#{pane_id}")) = (Some out, w1) ->
    GetActivePaneID World perform (w, trace)
    = (Ok (Val n), (w1, trace ++ [RunTmux (display_p "#{pane_id}")])).
Proof. exact GetActivePaneID_run. Qed.

End TmuxFacts.

(** ** The resize commands *)

Lemma find_band_spec key : forall bands i,
  match find_band key i bands with
  | (idx, Some b) =>
    exists k, idx = i + Z.of_nat k /\ nth_error bands k = Some b /\ b_pos b = key
  | (idx, None) => idx = -1 /\ Forall (fun b => b_pos b <> key) bands
  end.
Proof.
  induction bands as [|b bands IH]; intros i; cbn [find_band]; [auto|].
  destruct (Z.eqb_spec (b_pos b) key) as [E|E].
  - exists O. rewrite Z.add_0_r. auto.
  - specialize (IH (i + 1)). destruct (find_band key (i + 1) bands) as [idx [c|]].
    + destruct IH as (k & -> & Hk & Hc). exists (S k). rewrite Nat2Z.inj_succ.
      split; [lia | auto].
    + destruct IH as [-> Hall]. auto.
Qed.

Lemma index_at_nth {A} (l : list A) k a :
  nth_error l k = Some a -> index_at l (0 + Z.of_nat k) = Ok a.
Proof.
  intros H. unfold index_at.
  assert (Hlt : (k < List.length l)%nat) by (apply nth_error_Some; congruence).
  destruct (Z.leb_spec 0 (0 + Z.of_nat k)); [|lia].
  destruct (Z.ltb_spec (0 + Z.of_nat k) (GoInt.len l)); [|unfold GoInt.len in *; lia].
  cbn [andb]. replace (Z.to_nat (0 + Z.of_nat k)) with k by lia. rewrite H. reflexivity.
Qed.

Lemma groups_band_pane ax panes bands b :
  groups_by ax panes bands ->
  In b bands -> exists q, In q panes /\ pane_pos ax q = b_pos b.
Proof.
  intros Hgroups Hb. destruct Hgroups as (_ & _ & Hall). rewrite Forall_forall in Hall.
  destruct (Hall b Hb) as (Hp & Hne & _).
  destruct (b_panes b) as [|q qs] eqn:E; [congruence|].
  assert (Hq : In q (filter (fun p => pane_pos ax p =? b_pos b) panes))
    by (rewrite <- Hp; left; reflexivity).
  apply filter_In in Hq. destruct Hq as [Hq Hk]. apply Z.eqb_eq in Hk. eauto.
Qed.

Lemma groups_several ax panes bands active :
  groups_by ax panes bands -> In active panes ->
  (1 <? GoInt.len bands) = several ax panes active.
Proof.
  intros Hgroups Hactive.
  pose proof (groups_band_pane ax panes bands) as Hpane.
  destruct Hgroups as (Hsorted & Hcov & Hall).
  destruct bands as [|b1 [|b2 rest]].
  - destruct (Hcov active Hactive) as (b & [] & _).
  - cbn. symmetry. apply not_true_is_false. intros Hs.
    unfold several in Hs. apply existsb_exists in Hs. destruct Hs as (q & Hq & Hne).
    apply negb_true_iff, Z.eqb_neq in Hne.
    destruct (Hcov q Hq) as (b & [<-|[]] & Eq).
    destruct (Hcov active Hactive) as (b' & [<-|[]] & Ea). congruence.
  - assert (Hlen : (1 <? GoInt.len (b1 :: b2 :: rest)) = true).
    { apply Z.ltb_lt. unfold GoInt.len. cbn [List.length]. lia. }
    rewrite Hlen. symmetry.
    inversion Hsorted as [|? ? _ Hlt]; subst. inversion Hlt as [|? ? H12 _]; subst.
    assert (Hex : exists b, In b (b1 :: b2 :: rest) /\ b_pos b <> pane_pos ax active).
    { destruct (Z.eq_dec (b_pos b1) (pane_pos ax active)).
      - exists b2. split; [right; left; reflexivity | lia].
      - exists b1. split; [left; reflexivity | assumption]. }
    destruct Hex as (b & Hb & Hne).
    destruct (Hpane b (conj Hsorted (conj Hcov Hall)) Hb) as (q & Hq & Eq).
    unfold several. apply existsb_exists. exists q. split; [exact Hq|].
    apply negb_true_iff, Z.eqb_neq. congruence.
Qed.

Lemma groups_find_band ax panes bands active :
  groups_by ax panes bands -> In active panes ->
  exists k b first rest,
    find_band (pane_pos ax active) 0 bands = (0 + Z.of_nat k, Some b)
    /\ nth_error bands k = Some b
    /\ b_panes b = filter (fun p => pane_pos ax p =? pane_pos ax active) panes
    /\ b_panes b = first :: rest
    /\ In active (b_panes b).
Proof.
  intros Hgroups Hactive.
  destruct Hgroups as (_ & Hcov & Hall). rewrite Forall_forall in Hall.
  pose proof (find_band_spec (pane_pos ax active) bands 0) as Hf.
  destruct (find_band (pane_pos ax active) 0 bands) as [idx [b|]].
  - destruct Hf as (k & -> & Hk & Hb).
    assert (Hin : In b bands) by (eapply nth_error_In; exact Hk).
    destruct (Hall b Hin) as (Hp & Hne & _). rewrite Hb in Hp.
    assert (Hact : In active (b_panes b)).
    { rewrite Hp. apply filter_In. split; [exact Hactive | apply Z.eqb_refl]. }
    destruct (b_panes b) as [|first rest] eqn:E; [congruence|].
    exists k, b, first, rest. rewrite E. auto.
  - destruct Hf as [_ Hnone]. destruct (Hcov active Hactive) as (b & Hb & E).
    rewrite Forall_forall in Hnone. destruct (Hnone b Hb E).
Qed.

Section YieldsFacts.
Variable World : Type.
Variable perform : World -> Effect -> option gostring * World.
Variable allowed : Effect -> Prop.
Hypothesis Hdebug : allowed DebugLine.
Hypothesis Hresize : forall e, is_resize e = true -> allowed e.
Hypothesis Hquery : forall args, allowed (RunTmux args).

Lemma yields_ret {A} (a : A) (P : A -> list Effect -> Prop) :
  P a [] -> yields allowed (retM World a) P.
Proof.
  intros H w trace. exists a, w, []. rewrite app_nil_r.
  split; [reflexivity|]. split; [constructor | exact H].
Qed.

Lemma yields_bind {A B} (m : M World A) (k : A -> M World B)
      (P : A -> list Effect -> Prop) (Q : B -> list Effect -> Prop) :
  yields allowed m P ->
  (forall a c1, P a c1 -> yields allowed (k a) (fun b c2 => Q b (c1 ++ c2))) ->
  yields allowed (bindM World m k) Q.
Proof.
  intros Hm Hk w trace. destruct (Hm w trace) as (a & w1 & es1 & E1 & F1 & P1).
  destruct (Hk a _ P1 w1 (trace ++ es1)) as (b & w2 & es2 & E2 & F2 & Q2).
  exists b, w2, (es1 ++ es2). unfold bindM. rewrite E1, E2, <- app_assoc.
  split; [reflexivity|]. split; [apply Forall_app; auto|].
  rewrite filter_app. exact Q2.
Qed.

Lemma yields_weaken {A} (m : M World A) (P Q : A -> list Effect -> Prop) :
  yields allowed m P -> (forall a c, P a c -> Q a c) -> yields allowed m Q.
Proof.
  intros Hm HPQ w trace. destruct (Hm w trace) as (a & w1 & es & E & F & Pa).
  exists a, w1, es. auto.
Qed.

Lemma yields_effect e :
  allowed e -> is_resize e = false ->
  yields allowed (effect World perform e) (fun _ c => c = []).
Proof.
  intros Hq Hr w trace. unfold effect. destruct (perform w e) as [r w'].
  exists r, w', [e]. split; [reflexivity|]. split; [constructor; [exact Hq | constructor]|].
  cbn [filter]. rewrite Hr. reflexivity.
Qed.

Lemma yields_debugf : yields allowed (debugf World perform) (fun _ c => c = []).
Proof.
  unfold debugf. eapply yields_bind;
    [apply (yields_effect DebugLine); [exact Hdebug | reflexivity]|].
  intros r c1 ->. apply yields_ret. reflexivity.
Qed.

Lemma yields_debugf_then {B} (k : M World B) (Q : B -> list Effect -> Prop) :
  yields allowed k Q ->
  yields allowed (bindM World (debugf World perform) (fun _ => k)) Q.
Proof.
  intros Hk. eapply yields_bind; [apply yields_debugf|]. intros [] c1 ->. exact Hk.
Qed.

Lemma yields_TmuxCmd args :
  yields allowed (TmuxCmd World perform args) (fun _ c => c = []).
Proof.
  unfold TmuxCmd. eapply yields_bind;
    [apply (yields_effect (RunTmux args)); [apply Hquery | reflexivity]|].
  intros r c1 ->. apply yields_ret. reflexivity.
Qed.

Lemma yields_for_each_debugf {A} (l : list A) :
  yields allowed (for_each World l (fun _ => debugf World perform)) (fun _ c => c = []).
Proof.
  induction l as [|a l IH]; cbn [for_each]; [apply yields_ret; reflexivity|].
  apply yields_debugf_then, IH.
Qed.

Lemma yields_ResizePaneAlong ax paneID size :
  yields allowed (ResizePaneAlong World perform ax paneID size)
         (fun _ c => c = [resize_command ax paneID size]).
Proof.
  unfold ResizePaneAlong. apply yields_debugf_then.
  unfold TmuxCmdNoOutput. intros w trace. unfold bindM, effect, retM.
  fold (resize_command ax paneID size).
  destruct (perform w (resize_command ax paneID size)) as [r w'] eqn:E.
  eexists _, w', [resize_command ax paneID size].
  split; [reflexivity|]. split; [|reflexivity].
  constructor; [apply Hresize; reflexivity | constructor].
Qed.

Lemma yields_resizeBands ax bands idx target b first rest :
  1 < GoInt.len bands -> index_at bands idx = Ok b -> b_panes b = first :: rest ->
  yields allowed (resizeBandsProportionally World perform ax bands idx target)
         (fun _ c => c = [resize_command ax (PaneInfo.ID first) target]).
Proof.
  intros Hlen Hidx Hp. unfold resizeBandsProportionally.
  apply yields_debugf_then, yields_debugf_then.
  destruct (Z.leb_spec (GoInt.len bands) 1); [lia|].
  eapply (yields_bind _ _ (fun a c => a = b /\ c = [])).
  - intros w trace. exists b, w, []. unfold liftZoom. rewrite Hidx, app_nil_r.
    split; [reflexivity|]. split; [constructor | split; reflexivity].
  - intros a c1 [-> ->]. rewrite Hp. apply yields_debugf_then.
    eapply yields_bind; [apply yields_ResizePaneAlong|].
    intros r c1 ->. apply yields_ret. reflexivity.
Qed.

(** The commands of [applyProportionalZoom], by the pane list. *)
Lemma yields_applyProportionalZoom panes active winWidth winHeight zoomPercent :
  In active panes ->
  let column := filter (fun q => PaneInfo.Left q =? PaneInfo.Left active) panes in
  let rows := findRowsInColumn column in
  let row := filter (fun q => PaneInfo.Top q =? PaneInfo.Top active) column in
  let targetWidth := GoInt.div (GoInt.mul winWidth zoomPercent) 100 in
  let colHeight :=
      GoInt.add (fold_left (fun h p => GoInt.add h (PaneInfo.Height p)) column 0)
                (GoInt.sub (GoInt.len rows) 1) in
  let targetHeight := GoInt.div (GoInt.mul colHeight zoomPercent) 100 in
  yields allowed
         (applyProportionalZoom World perform panes active winWidth winHeight zoomPercent)
         (fun _ c =>
            c = (if several AxisWidth panes active
                 then [resize_command AxisWidth (PaneInfo.ID (hd active column)) targetWidth]
                 else [])
                ++ (if several AxisHeight column active
                    then [resize_command AxisHeight (PaneInfo.ID (hd active row)) targetHeight]
                    else [])).
Proof.
  intros Hactive column rows row targetWidth colHeight targetHeight.
  pose proof (find_bands_groups AxisWidth panes) as Hg.
  destruct (groups_find_band AxisWidth panes _ active Hg Hactive)
    as (k & b & first & rest & Hfind & Hnth & Hpanes & Hfirst & Hin).
  pose proof (groups_several AxisWidth panes _ active Hg Hactive) as Hsev.
  change (pane_pos AxisWidth active) with (PaneInfo.Left active) in Hfind.
  change (filter _ panes) with column in Hpanes.
  unfold applyProportionalZoom.
  do 4 apply yields_debugf_then.
  eapply yields_bind; [apply yields_for_each_debugf|]. intros [] c0 ->.
  apply yields_debugf_then. fold (findColumns panes) in Hfind, Hnth, Hsev.
  rewrite Hfind. apply yields_debugf_then.
  eapply (yields_bind _ _
            (fun _ c => c = if several AxisWidth panes active
                            then [resize_command AxisWidth (PaneInfo.ID (hd active column))
                                                 targetWidth]
                            else [])).
  { destruct (Z.leb_spec 0 (0 + Z.of_nat k)); [|lia]. rewrite andb_true_r, Hsev.
    destruct (several AxisWidth panes active) eqn:Hs; [|apply yields_ret; reflexivity].
    eapply yields_weaken.
    - apply (yields_resizeBands AxisWidth _ _ _ b first rest);
        [apply Z.ltb_lt; rewrite Hsev; reflexivity | apply index_at_nth, Hnth | exact Hfirst].
    - intros _ c ->. rewrite <- Hpanes, Hfirst. reflexivity. }
  intros [] c1 ->. cbn [app].
  assert (Hincol : In active column) by (rewrite <- Hpanes; exact Hin).
  destruct (Z.ltb_spec 1 (GoInt.len (b_panes b))) as [Hmany|Hone].
  - rewrite Hpanes.
    pose proof (find_bands_groups AxisHeight column) as Hg2.
    destruct (groups_find_band AxisHeight column _ active Hg2 Hincol)
      as (k2 & b2 & first2 & rest2 & Hfind2 & Hnth2 & Hpanes2 & Hfirst2 & _).
    pose proof (groups_several AxisHeight column _ active Hg2 Hincol) as Hsev2.
    change (pane_pos AxisHeight active) with (PaneInfo.Top active) in Hfind2.
    change (filter _ column) with row in Hpanes2.
    fold (findRowsInColumn column) in Hfind2, Hnth2, Hsev2. fold rows in Hfind2, Hnth2, Hsev2.
    cbv zeta. fold rows. rewrite Hfind2. cbn [fst].
    destruct (Z.leb_spec 0 (0 + Z.of_nat k2)); [|lia]. rewrite andb_true_r, Hsev2.
    destruct (several AxisHeight column active) eqn:Hs2.
    + eapply yields_weaken.
      * apply (yields_resizeBands AxisHeight _ _ _ b2 first2 rest2);
          [apply Z.ltb_lt; rewrite Hsev2; reflexivity | apply index_at_nth, Hnth2 | exact Hfirst2].
      * intros _ c ->. rewrite <- Hpanes2, Hfirst2. reflexivity.
    + apply yields_ret. rewrite app_nil_r. reflexivity.
  - assert (Hs2 : several AxisHeight column active = false).
    { rewrite Hpanes in Hone. unfold GoInt.len in Hone.
      destruct column as [|q [|q' qs]] eqn:Ec; cbn [List.length] in Hone;
        [destruct Hincol | | lia].
      destruct Hincol as [->|[]]. unfold several. cbn [existsb].
      rewrite Z.eqb_refl. reflexivity. }
    rewrite Hs2. apply yields_ret. rewrite app_nil_r. reflexivity.
Qed.

Lemma yields_GetPanes : yields allowed (GetPanes World perform) (fun _ c => c = []).
Proof.
  unfold GetPanes. eapply yields_bind; [apply yields_TmuxCmd|].
  intros r c1 ->. apply yields_ret. reflexivity.
Qed.

Lemma yields_GetWindowSize : yields allowed (GetWindowSize World perform) (fun _ c => c = []).
Proof.
  unfold GetWindowSize. eapply yields_bind; [apply yields_TmuxCmd|].
  intros [w|e] c1 ->; [|apply yields_ret; reflexivity].
  eapply yields_bind; [apply yields_TmuxCmd|].
  intros r c1 ->. apply yields_ret. reflexivity.
Qed.

Lemma yields_GetZoomPercent : yields allowed (GetZoomPercent World perform) (fun _ c => c = []).
Proof.
  unfold GetZoomPercent. eapply yields_bind; [apply yields_TmuxCmd|].
  intros r c1 ->. apply yields_ret. reflexivity.
Qed.

Lemma yields_orReturn {A} (m : M World (outcome A)) (k : A -> M World (option GoError))
      (Q : option GoError -> list Effect -> Prop) :
  yields allowed m (fun _ c => c = []) ->
  (forall e, Q (Some e) []) ->
  (forall a, yields allowed (k a) Q) ->
  yields allowed (orReturn World m k) Q.
Proof.
  intros Hm He Hk. unfold orReturn. eapply yields_bind; [exact Hm|].
  intros [a|e] c1 ->; cbn [app]; [apply Hk | apply yields_ret, He].
Qed.

Lemma yields_applyZoomFallback state activePaneID :
  yields allowed (applyZoomFallback World perform state activePaneID)
         (fun r c => (List.length c <= 2)%nat /\ (r <> None -> c = [])).
Proof.
  unfold applyZoomFallback. apply yields_debugf_then.
  apply yields_orReturn; [apply yields_GetPanes | intros e; split; [cbn; lia | reflexivity] |].
  intros panes.
  apply yields_orReturn; [apply yields_GetWindowSize | intros e; split; [cbn; lia | reflexivity] |].
  intros [winWidth winHeight].
  destruct (find PaneInfo.Active panes) as [active|] eqn:Hfind.
  2:{ apply yields_ret. split; [cbn; lia | reflexivity]. }
  apply find_some in Hfind. destruct Hfind as [Hin _].
  eapply yields_bind; [apply yields_GetZoomPercent|]. intros p c1 ->.
  eapply yields_bind; [apply yields_applyProportionalZoom, Hin|]. intros [] c1 ->.
  apply yields_ret. split; [|congruence].
  rewrite app_nil_r. cbn [app]. destruct (several AxisWidth panes active);
    destruct (several AxisHeight _ active); cbn; lia.
Qed.

End YieldsFacts.

Section ReturnsFacts.
Variable World : Type.
Variable perform : World -> Effect -> option gostring * World.

Lemma returns_ret {A} (a : A) : returns (retM World a).
Proof. intros w trace. exists a, w, []. rewrite app_nil_r. reflexivity. Qed.

Lemma returns_bind {A B} (m : M World A) (k : A -> M World B) :
  returns m -> (forall a, returns (k a)) -> returns (bindM World m k).
Proof.
  intros Hm Hk w trace. destruct (Hm w trace) as (a & w1 & es1 & E1).
  destruct (Hk a w1 (trace ++ es1)) as (b & w2 & es2 & E2).
  exists b, w2, (es1 ++ es2). unfold bindM. rewrite E1, E2, <- app_assoc. reflexivity.
Qed.

Lemma returns_orReturn {A} (m : M World (outcome A)) (k : A -> M World (option GoError)) :
  returns m -> (forall a, returns (k a)) -> returns (orReturn World m k).
Proof.
  intros Hm Hk. unfold orReturn. apply returns_bind; [exact Hm|].
  intros [a|e]; [apply Hk | apply returns_ret].
Qed.

Lemma returns_effect e : returns (effect World perform e).
Proof.
  intros w trace. unfold effect. destruct (perform w e) as [r w'].
  exists r, w', [e]. reflexivity.
Qed.

Lemma returns_parseLayout layout : returns (parseLayout World layout).
Proof.
  intros w trace. unfold parseLayout.
  assert (H : ParseLayout layout <> OutOfFuel).
  { unfold ParseLayout. destruct (strings_Index "," layout) as [idx|]; cbn; [|discriminate].
    pose proof (proj1 (parse_no_fuel_exhaustion (parse_fuel (skipn (idx + 1) layout)))
                      (skipn (idx + 1) layout) (Nat.le_refl _)) as Hn.
    destruct (parseNode _ _) as [[node rest]|e|]; cbn; congruence. }
  destruct (ParseLayout layout) as [t|e|]; [| |congruence];
    eexists _, w, []; rewrite app_nil_r; reflexivity.
Qed.

Lemma returns_zoomTransform t id p : returns (liftZoom World (zoomTransform t id p)).
Proof.
  intros w trace. destruct (zoomTransform_shape t id p) as (z & E & _).
  exists z, w, []. unfold liftZoom. rewrite E, app_nil_r. reflexivity.
Qed.

Lemma yields_returns {A} allowed (m : M World A) P : yields allowed m P -> returns m.
Proof.
  intros H w trace. destruct (H w trace) as (a & w' & es & E & _). eauto.
Qed.

Ltac returns_auto :=
  repeat first
    [ apply returns_ret
    | apply returns_effect
    | apply returns_parseLayout
    | apply returns_zoomTransform
    | apply returns_bind
    | apply returns_orReturn
    | match goal with
      | |- forall _, _ => intro
      | |- returns (match ?x with _ => _ end) => destruct x
      | |- returns (let _ := _ in _) => cbv zeta
      end ].

Lemma ApplyZoom_returns_with (fallback : State -> Z -> M World (option GoError)) :
  (forall state activePaneID, returns (fallback state activePaneID)) ->
  forall state, returns (ApplyZoom World perform fallback state).
Proof.
  intros Hf state.
  unfold ApplyZoom, zoom_and_select, CaptureSnapshot, RestoreSnapshot, SelectLayout,
    DisplayMessage, SaveState, ClearState, GetZoomPercent, GetActivePaneID, GetCurrentPane,
    GetCurrentSession, GetCurrentWindow, GetWindowLayout, GetPaneCount, TmuxCmd,
    TmuxCmdNoOutput, debugf.
  returns_auto; apply Hf.
Qed.

(** X17. What the degraded path asks of tmux.  Given the pane list and
    the active pane in it, [applyProportionalZoom] returns normally; all
    it does is write to the debug log and run at most two [resize-pane]
    commands.  If a pane lies at another left position than the active
    one, it resizes the first pane of the active pane's column to the
    width [winWidth * zoomPercent / 100]; and if in that column a pane
    lies at another top position, it then resizes the first pane of the
    active pane's row of that column to [zoomPercent] hundredths of the
    height of the column, taken as the sum of the heights of its panes
    plus one border cell per gap between rows.  The height of the window
    is not used. *)
Theorem applyProportionalZoom_commands :
  forall (panes : list PaneInfo.t) (active : PaneInfo.t) (winWidth winHeight zoomPercent : Z)
         (w : World) (trace : list Effect),
    In active panes ->
    let column := filter (fun q => PaneInfo.Left q =? PaneInfo.Left active) panes in
    let rows := findRowsInColumn column in
    let row := filter (fun q => PaneInfo.Top q =? PaneInfo.Top active) column in
    let targetWidth := GoInt.div (GoInt.mul winWidth zoomPercent) 100 in
    let colHeight :=
        GoInt.add (fold_left (fun h p => GoInt.add h (PaneInfo.Height p)) column 0)
                  (GoInt.sub (GoInt.len rows) 1) in
    let targetHeight := GoInt.div (GoInt.mul colHeight zoomPercent) 100 in
    exists w' es,
      applyProportionalZoom World perform panes active winWidth winHeight zoomPercent (w, trace)
      = (Ok tt, (w', trace ++ es))
      /\ Forall debug_or_resize es
      /\ filter is_resize es
         = (if several AxisWidth panes active
            then [resize_command AxisWidth (PaneInfo.ID (hd active column)) targetWidth]
            else [])
           ++ (if several AxisHeight column active
               then [resize_command AxisHeight (PaneInfo.ID (hd active row)) targetHeight]
               else []).
Proof.
  intros panes active winWidth winHeight zoomPercent w trace Hin. cbv zeta.
  destruct (yields_applyProportionalZoom World perform debug_or_resize
              (or_introl eq_refl) (fun e H => or_intror H)
              panes active winWidth winHeight zoomPercent Hin w trace)
    as ([] & w' & es & E & F & C).
  exists w', es. auto.
Qed.

(** X18. [applyZoomFallback] returns normally whatever tmux answers.
    The effects it performs are lines in the debug log, commands whose
    output it reads, and [resize-pane] commands, of which there are at
    most two: it selects no layout and does not touch the state file.
    It returns an error only before it has resized anything; a
    [resize-pane] that fails is not reported. *)
Theorem applyZoomFallback_effects :
  forall (state : State) (activePaneID : Z) (w : World) (trace : list Effect),
    exists r w' es,
      applyZoomFallback World perform state activePaneID (w, trace)
      = (Ok r, (w', trace ++ es))
      /\ Forall quiet_or_resize es
      /\ (List.length (filter is_resize es) <= 2)%nat
      /\ (r <> None -> filter is_resize es = []).
Proof.
  intros state id w trace.
  destruct (yields_applyZoomFallback World perform quiet_or_resize
              (or_intror (or_introl eq_refl))
              (fun e H => or_intror (or_intror H))
              (fun args => or_introl (ex_intro _ args eq_refl))
              state id w trace)
    as (r & w' & es & E & F & L & N).
  exists r, w', es. auto.
Qed.

(** X19. [ApplyZoom], with the degraded path behind it, returns normally
    for every state it is given and whatever tmux and the file system
    answer: no index of the zoom is out of range, no recursion runs out,
    and the result is nil or an error. *)
Theorem ApplyZoom_never_panics :
  forall (state : State) (w : World) (trace : list Effect),
    exists r w' es,
      ApplyZoom World perform (applyZoomFallback World perform) state (w, trace)
      = (Ok r, (w', trace ++ es)).
Proof.
  intros state. apply ApplyZoom_returns_with.
  intros s id. eapply yields_returns.
  apply (yields_applyZoomFallback World perform (fun _ => True)); auto.
Qed.

End ReturnsFacts.

(* ================================================================== *)
(** * More on the zoom and on the text of a layout *)

(** ** The shares of the siblings *)

Lemma zoomTransform_child_sizes ax t id p l1 l2 c :
  splitType t = along_split ax ->
  Children t = l1 ++ c :: l2 ->
  find_active 0 (Children t) id = GoInt.len l1 ->
  2 <= GoInt.len (Children t) ->
  0 <= p <= 100 ->
  GoInt.len (Children t) - 1 <= size_of ax t <= 2 ^ 31 ->
  Forall (fun c => 0 <= size_of ax c <= 2 ^ 31) (Children t) ->
  exists zoomed,
    zoomTransform t id p = Ok zoomed
    /\ map (size_of ax) (Children zoomed)
       = map (math_share ax (sum_Z (map (size_of ax) (l1 ++ l2)))
                (size_of ax t - (GoInt.len (Children t) - 1)
                 - (size_of ax t - (GoInt.len (Children t) - 1)) * p / 100)
                (GoInt.len (Children t))) l1
         ++ (size_of ax t - (GoInt.len (Children t) - 1)
             - sum_Z (map (math_share ax (sum_Z (map (size_of ax) (l1 ++ l2)))
                             (size_of ax t - (GoInt.len (Children t) - 1)
                              - (size_of ax t - (GoInt.len (Children t) - 1)) * p / 100)
                             (GoInt.len (Children t))) (l1 ++ l2)))
         :: map (math_share ax (sum_Z (map (size_of ax) (l1 ++ l2)))
                   (size_of ax t - (GoInt.len (Children t) - 1)
                    - (size_of ax t - (GoInt.len (Children t) - 1)) * p / 100)
                   (GoInt.len (Children t))) l2.
Proof.
  intros Hst Hcs Hfind Hn Hp Hsize Hchildren.
  pose proof (applyAxisZoom_sizes ax t p l1 l2 c Hcs Hn Hp Hsize Hchildren) as Hz.
  set (q := math_share ax _ _ _) in *.
  set (ws := map q l1 ++ _ :: map q l2) in *.
  assert (Hlen : List.length ws = List.length (Children t)).
  { unfold ws. rewrite Hcs, !length_app. cbn [List.length]. rewrite !length_map. reflexivity. }
  assert (E1 : ApplyZoomToLayout t id p
               = Ok (set_children t (place_children ax (Children t) ws (pos_of ax t)))).
  { unfold ApplyZoomToLayout. rewrite copyLayoutNode_id, Hfind.
    destruct (Z.eqb_spec (GoInt.len l1) (-1)); [unfold GoInt.len in *; lia|].
    unfold zoom_by_split. rewrite Hst, <- Hz. destruct ax; reflexivity. }
  set (t1 := set_children t _) in E1.
  destruct (applyNestedZoom_rec_shape id p (depth t1) t1 (Nat.le_refl _)) as (t2 & E2 & _).
  destruct (applyNestedZoom_rec_frame id p _ _ _ E2) as [_ Hfr].
  apply (map_frame_sizes ax) in Hfr.
  exists t2. split; [unfold zoomTransform; rewrite E1; exact E2|].
  rewrite Hfr. unfold t1. rewrite Children_set_children.
  apply place_children_sizes. exact Hlen.
Qed.

(** X20. The siblings shrink in proportion.  Under the conditions of a
    window (root split along the axis with two children or more, the
    target in child [k], a percent between 0 and 100, sizes between 0 and
    2^31, the root at least as large as its borders), the zoom transform
    gives every child other than child [k] the size
    [own * remaining / others], rounded down, where [remaining] is what
    the base share of the target leaves of the available size and
    [others] the sum of the sizes of those children before the zoom; if
    that sum is 0, each gets [remaining / (n - 1)].  No such child gets
    more than [remaining], and none a negative size. *)
Theorem zoom_sibling_shares :
  forall (ax : Axis) (t : LayoutNode) (activePaneID zoomPercent : Z) (k : nat)
         (active : LayoutNode),
    splitType t = along_split ax ->
    2 <= GoInt.len (Children t) ->
    find_active 0 (Children t) activePaneID = Z.of_nat k ->
    nth_error (Children t) k = Some active ->
    0 <= zoomPercent <= 100 ->
    GoInt.len (Children t) - 1 <= size_of ax t <= 2 ^ 31 ->
    Forall (fun c => 0 <= size_of ax c <= 2 ^ 31) (Children t) ->
    let n := GoInt.len (Children t) in
    let available := size_of ax t - (n - 1) in
    let remaining := available - available * zoomPercent / 100 in
    let others := sum_Z (map (size_of ax) (Children t)) - size_of ax active in
    exists zoomed,
      zoomTransform t activePaneID zoomPercent = Ok zoomed
      /\ forall (j : nat) (sibling sibling' : LayoutNode),
           j <> k ->
           nth_error (Children t) j = Some sibling ->
           nth_error (Children zoomed) j = Some sibling' ->
           size_of ax sibling'
           = (if 0 <? others then size_of ax sibling * remaining / others
              else remaining / (n - 1))
           /\ 0 <= size_of ax sibling' <= remaining.
Proof.
  intros ax t id p k active Hst Hn Hfind Hnth Hp Hsize Hchildren n available remaining others.
  destruct (split_at_nth _ _ _ Hnth) as (l1 & l2 & Hcs & Hk).
  assert (Hfind' : find_active 0 (Children t) id = GoInt.len l1)
    by (unfold GoInt.len; rewrite Hk; exact Hfind).
  destruct (zoomTransform_child_sizes ax t id p l1 l2 active Hst Hcs Hfind' Hn Hp Hsize Hchildren)
    as (z & Hz & Hsizes).
  pose proof (dist_q_le ax t p l1 l2 active Hcs Hn Hp Hsize Hchildren) as Hqle.
  fold n in Hsizes, Hqle. fold available in Hsizes, Hqle. fold remaining in Hsizes, Hqle.
  assert (HW : sum_Z (map (size_of ax) (l1 ++ l2)) = others).
  { unfold others. rewrite Hcs, !map_app, !sum_Z_app. cbn [map sum_Z fold_right].
    fold (sum_Z (map (size_of ax) l2)). lia. }
  rewrite HW in Hsizes, Hqle.
  set (q := math_share ax others remaining n) in *.
  exists z. split; [exact Hz|].
  intros j s s' Hj Hs Hs'.
  assert (Hq : size_of ax s' = q s /\ In s (l1 ++ l2)).
  { pose proof (map_nth_error (size_of ax) _ _ Hs') as Hm. rewrite Hsizes in Hm.
    rewrite Hcs in Hs.
    destruct (Nat.lt_ge_cases j k) as [Hlt|Hge].
    - rewrite nth_error_app1 in Hm by (rewrite length_map; lia).
      rewrite nth_error_app1 in Hs by lia.
      rewrite (map_nth_error q _ _ Hs) in Hm. injection Hm as Hm.
      split; [congruence|]. apply in_or_app. left. eapply nth_error_In, Hs.
    - rewrite nth_error_app2 in Hm by (rewrite length_map; lia).
      rewrite nth_error_app2 in Hs by lia.
      rewrite length_map in Hm.
      destruct (j - List.length l1)%nat as [|m] eqn:Em; [lia|]. cbn [nth_error] in Hm, Hs.
      rewrite (map_nth_error q _ _ Hs) in Hm. injection Hm as Hm.
      split; [congruence|]. apply in_or_app. right. eapply nth_error_In, Hs. }
  destruct Hq as [Hq Hin]. rewrite Hq. split; [reflexivity | apply Hqle, Hin].
Qed.

(** ** [updateChildWidths] and [updateChildHeights] *)

Lemma updateChildSizes_twice ax t : forall a b,
  updateChildSizes ax (updateChildSizes ax t a) b = updateChildSizes ax t b.
Proof.
  induction t as [w h x y id st cs IH] using LayoutNode_ind'. intros a b.
  assert (E : map (fun c => updateChildSizes ax c b) (map (fun c => updateChildSizes ax c a) cs)
              = map (fun c => updateChildSizes ax c b) cs).
  { rewrite map_map. induction IH as [|c cs Hc _ IHcs]; cbn [map]; [reflexivity|].
    rewrite Hc, IHcs. reflexivity. }
  destruct ax, st; cbn; rewrite ?E; reflexivity.
Qed.

Lemma updateChildSizes_commute t : forall a b,
  updateChildSizes AxisWidth (updateChildSizes AxisHeight t a) b
  = updateChildSizes AxisHeight (updateChildSizes AxisWidth t b) a.
Proof.
  destruct t as [w h x y id st cs]. intros a b. destruct st; reflexivity.
Qed.

(** X21. Handing a size down twice is handing down the second one:
    [updateChildWidths] after [updateChildWidths] is the later call
    alone, and the same for [updateChildHeights].  And a width and a
    height can be handed down in either order, with the same tree as the
    result. *)
Theorem updateChildSizes_compose :
  forall t a b,
    updateChildWidths (updateChildWidths t a) b = updateChildWidths t b
    /\ updateChildHeights (updateChildHeights t a) b = updateChildHeights t b
    /\ updateChildWidths (updateChildHeights t a) b
       = updateChildHeights (updateChildWidths t b) a.
Proof.
  intros t a b. unfold updateChildWidths, updateChildHeights.
  split; [apply updateChildSizes_twice|]. split; [apply updateChildSizes_twice|].
  apply updateChildSizes_commute.
Qed.

(** ** The brackets of the text *)

Lemma brackets_skip s : forall stack rest,
  Forall (fun c => is_bracket c = false) s ->
  brackets_matched_from stack (s ++ rest) = brackets_matched_from stack rest.
Proof.
  induction s as [|c s IH]; intros stack rest H; [reflexivity|].
  inversion H as [|? ? Hc Hs]; subst. cbn [app brackets_matched_from].
  unfold is_bracket in Hc. rewrite !orb_false_iff in Hc.
  destruct Hc as (((H1 & H2) & H3) & H4). rewrite H1, H2, H3, H4. cbn [orb].
  apply IH, Hs.
Qed.

Lemma not_bracket (f : ascii -> bool) c :
  f "{"%char = false -> f "["%char = false -> f "}"%char = false -> f "]"%char = false ->
  f c = true -> is_bracket c = false.
Proof.
  intros H1 H2 H3 H4 Hc. unfold is_bracket.
  destruct (Ascii.eqb_spec c "{"%char); [subst; congruence|].
  destruct (Ascii.eqb_spec c "["%char); [subst; congruence|].
  destruct (Ascii.eqb_spec c "}"%char); [subst; congruence|].
  destruct (Ascii.eqb_spec c "]"%char); [subst; congruence|].
  reflexivity.
Qed.

Lemma itoa_no_bracket z : Forall (fun c => is_bracket c = false) (itoa z).
Proof.
  eapply Forall_impl; [|apply itoa_chars]. cbv beta.
  intros c. apply not_bracket; reflexivity.
Qed.

Lemma brackets_header w h x y stack rest :
  brackets_matched_from stack
    ((itoa w ++ str "x" ++ itoa h ++ str "," ++ itoa x ++ str "," ++ itoa y) ++ rest)
  = brackets_matched_from stack rest.
Proof.
  apply brackets_skip.
  repeat (apply Forall_app; split; [first [apply itoa_no_bracket | repeat constructor]|]).
  apply itoa_no_bracket.
Qed.

Lemma brackets_join cs :
  Forall (fun c => forall stack rest,
            brackets_matched_from stack (buildNodeString c ++ rest)
            = brackets_matched_from stack rest) cs ->
  forall stack rest,
    brackets_matched_from stack (strings_Join (map buildNodeString cs) (str ",") ++ rest)
    = brackets_matched_from stack rest.
Proof.
  induction 1 as [|c cs Hc Hcs IH]; intros stack rest; [reflexivity|].
  destruct cs as [|c' cs].
  - cbn [map strings_Join]. apply Hc.
  - change (strings_Join (map buildNodeString (c :: c' :: cs)) (str ","))
      with (buildNodeString c ++ str "," ++ strings_Join (map buildNodeString (c' :: cs)) (str ",")).
    rewrite <- !app_assoc, Hc. cbn [str list_ascii_of_string app].
    cbn [brackets_matched_from Ascii.eqb Bool.eqb orb]. apply IH.
Qed.

Lemma brackets_buildNodeString t : forall stack rest,
  brackets_matched_from stack (buildNodeString t ++ rest)
  = brackets_matched_from stack rest.
Proof.
  induction t as [w h x y id st cs IH] using LayoutNode_ind'. intros stack rest.
  cbn [buildNodeString]. cbv zeta. destruct st.
  - rewrite <- app_assoc, brackets_header. cbn [str list_ascii_of_string app].
    cbn [brackets_matched_from Ascii.eqb Bool.eqb orb].
    apply brackets_skip, itoa_no_bracket.
  - rewrite <- app_assoc, brackets_header. rewrite <- !app_assoc.
    cbn [str list_ascii_of_string app].
    cbn [brackets_matched_from Ascii.eqb Bool.eqb orb].
    rewrite (brackets_join cs IH). cbn [brackets_matched_from Ascii.eqb Bool.eqb orb andb].
    reflexivity.
  - rewrite <- app_assoc, brackets_header. rewrite <- !app_assoc.
    cbn [str list_ascii_of_string app].
    cbn [brackets_matched_from Ascii.eqb Bool.eqb orb].
    rewrite (brackets_join cs IH). cbn [brackets_matched_from Ascii.eqb Bool.eqb orb andb].
    reflexivity.
Qed.

(** X22. The text [BuildLayout] writes has its brackets matched, for
    every tree: each brace and each square bracket that opens a list of
    children is closed by its own kind, properly nested, and neither the
    checksum nor a number holds a bracket. *)
Theorem BuildLayout_brackets_matched :
  forall node, brackets_matched (BuildLayout node) = true.
Proof.
  intros node. unfold brackets_matched, BuildLayout. cbv zeta.
  rewrite brackets_skip.
  - cbn [str list_ascii_of_string app]. cbn [brackets_matched_from Ascii.eqb Bool.eqb orb].
    rewrite <- (app_nil_r (buildNodeString node)), brackets_buildNodeString. reflexivity.
  - apply fmt_04x_Forall. intros d Hd.
    apply (not_bracket is_lower_hex); try reflexivity. apply digit_char_hex, Hd.
Qed.

(* ================================================================== *)
(** * [ApplyZoom] on its main path *)

Section MainPath.
Variable World : Type.
Variable perform : World -> Effect -> option gostring * World.
Variable fallback : State -> Z -> M World (option GoError).









End MainPath.

(* ================================================================== *)
(** * The statements at concrete inputs *)

Lemma ParseLayout_terminates_witness :
  (parse_fuel (str "10x20,0,0,7") <= 40)%nat
  /\ parseNode 40 (str "10x20,0,0,7") = parseNode (parse_fuel (str "10x20,0,0,7")) (str "10x20,0,0,7")
  /\ parseNode 40 (str "10x20,0,0,7},5x5,0,0,8") = Ok (leaf 10 20 0 0 7, str "},5x5,0,0,8")
  /\ (List.length (str "},5x5,0,0,8") < List.length (str "10x20,0,0,7},5x5,0,0,8"))%nat
  /\ parseNode 9 (str "25x61,0,0,p7}") = Err InvalidPaneID
  /\ parseChildren 10 (str "25x61,0,0,p7}") "}"%char = Err InvalidPaneID.
Proof.
  assert (H1 : (parse_fuel (str "10x20,0,0,7") <= 40)%nat) by (vm_compute; lia).
  assert (H2 : parseNode 40 (str "10x20,0,0,7},5x5,0,0,8") = Ok (leaf 10 20 0 0 7, str "},5x5,0,0,8"))
    by (vm_compute; reflexivity).
  assert (H3 : parseNode 9 (str "25x61,0,0,p7}") = Err InvalidPaneID)
    by (vm_compute; reflexivity).
  destruct ParseLayout_terminates as (_ & T2 & T3 & T4).
  split; [exact H1|].
  split; [exact (proj1 (T2 _ _ H1))|].
  split; [exact H2|].
  split; [exact (T3 _ _ _ _ H2)|].
  split; [exact H3|].
  exact (T4 9%nat "2"%char (str "5x61,0,0,p7}") "}"%char InvalidPaneID eq_refl H3).
Defined.

Lemma ParseLayout_BuildLayout_roundtrip_witness :
  ParseLayout layout_three_columns = Ok tree_three_columns
  /\ ParseLayout (BuildLayout tree_three_columns) = Ok tree_three_columns
  /\ ParseLayout (str "ffff" ++ ","%char :: buildNodeString tree_three_columns)
     = Ok tree_three_columns
  /\ layout_body (BuildLayout tree_three_columns) = layout_body layout_three_columns
  /\ BuildLayout tree_three_columns = layout_three_columns.
Proof.
  assert (H : ParseLayout layout_three_columns = Ok tree_three_columns)
    by (vm_compute; reflexivity).
  destruct (ParseLayout_BuildLayout_roundtrip _ _ H) as (R1 & R2 & _ & R4 & R5 & _).
  split; [exact H|]. split; [exact R1|].
  split; [apply R2; vm_compute; reflexivity|].
  split; [apply R4; vm_compute; reflexivity|].
  apply (R5 tree_three_columns); vm_compute; reflexivity.
Defined.

Lemma ApplyZoomToLayout_absent_target_witness :
  well_formed tree_three_columns = true
  /\ 99 <> -1
  /\ ~ In 99 (leaf_ids tree_three_columns)
  /\ ApplyZoomToLayout tree_three_columns 99 65 = Ok tree_three_columns
  /\ exists new,
       Heap.ApplyZoomToLayout 3 (fst (Heap.write [] tree_three_columns)) 0%nat 99 65
       = Ok (fst (Heap.write [] tree_three_columns) ++ new, 6%nat)
       /\ Heap.repr (fst (Heap.write [] tree_three_columns) ++ new) tree_three_columns 0%nat.
Proof.
  assert (H1 : well_formed tree_three_columns = true) by (vm_compute; reflexivity).
  assert (H2 : 99 <> -1) by lia.
  assert (H3 : ~ In 99 (leaf_ids tree_three_columns)) by (vm_compute; intuition lia).
  assert (H4 : Heap.repr (fst (Heap.write [] tree_three_columns)) tree_three_columns 0%nat).
  { vm_compute. repeat (split || eexists). }
  destruct (ApplyZoomToLayout_absent_target tree_three_columns 99 65 H1 H2 H3) as [T1 T2].
  destruct (T2 _ _ H4) as (new & E & _ & R & _).
  split; [exact H1|]. split; [exact H2|]. split; [exact H3|]. split; [exact T1|].
  exists new. split; [|exact R].
  apply (E 3%nat). vm_compute. lia.
Defined.

Lemma ParseLayout_failures_witness :
  strings_Index ","%char (str "b2d9") = None
  /\ ParseLayout (str "b2d9") = Err NoChecksumSeparator
  /\ parseNode 9 (str "255,61,0,0") = Err NoXInDimensions
  /\ Atoi (str "6l") = None
  /\ (exists e, parseNode 9 (str "25x6l,0,0,7") = Err e)
  /\ parseNode 9 (str "25x61,0,0,p7}") = Err InvalidPaneID
  /\ ParseLayout (str "b2d9,25x61,0,0,p7") = Err InvalidPaneID
  /\ parseChildren 10 (str "25x61,0,0,p7}") "}"%char = Err InvalidPaneID
  /\ parseNode 11 (str "50x61,0,0{25x61,0,0,p7}") = Err InvalidPaneID
  /\ ParseLayout (removelast (BuildLayout tree_three_columns)) = Ok tree_three_columns.
Proof.
  destruct ParseLayout_failures as (F1 & F2 & F3 & F4 & F5 & _ & F7 & F8 & F9 & _ & F11).
  assert (H1 : strings_Index ","%char (str "b2d9") = None) by (vm_compute; reflexivity).
  assert (H2 : Atoi (str "6l") = None).
  { apply (F5 (str "6l") "l"%char); vm_compute; auto. }
  assert (Hfree : forall c s, forallb (fun d => negb (Ascii.eqb d c)) s = true -> free_of c s).
  { intros c s H. apply Forall_forall. intros d Hd. rewrite forallb_forall in H.
    specialize (H d Hd). destruct (Ascii.eqb d c); [discriminate | reflexivity]. }
  assert (Hstop : forall stop s, forallb (fun d => negb (stop d)) s = true -> stop_free stop s).
  { intros stop s H. apply Forall_forall. intros d Hd. rewrite forallb_forall in H.
    specialize (H d Hd). destruct (stop d); [discriminate | reflexivity]. }
  assert (H4 : parseNode 9 (str "25x61,0,0,p7}") = Err InvalidPaneID).
  { apply (F4 8%nat (str "25") (str "61") (str "0") (str "0") (str "p7") (str "}") 25 61 0 0);
      try (apply Hfree; vm_compute; reflexivity);
      try (apply Hstop; vm_compute; reflexivity);
      vm_compute; reflexivity. }
  assert (H8 : parseChildren 10 (str "25x61,0,0,p7}") "}"%char = Err InvalidPaneID).
  { apply (F8 9%nat "2"%char (str "5x61,0,0,p7}") "}"%char); [vm_compute; reflexivity | exact H4]. }
  split; [exact H1|]. split; [exact (F1 _ H1)|].
  split; [apply F2; vm_compute; reflexivity|].
  split; [exact H2|].
  split.
  { apply (F3 8%nat (str "25") (str "6l") (str "0") (str "0") (str ",7"));
      try (apply Hfree; vm_compute; reflexivity);
      try (apply Hstop; vm_compute; reflexivity);
      [vm_compute; reflexivity | right; left; exact H2]. }
  split; [exact H4|].
  split.
  { apply (F7 _ 4%nat); [vm_compute; reflexivity|]. vm_compute. reflexivity. }
  split; [exact H8|].
  split.
  { apply (proj1 (F9 10%nat (str "50") (str "61") (str "0") (str "0") (str "25x61,0,0,p7}")
                     50 61 0 0 InvalidPaneID
                     ltac:(apply Hfree; vm_compute; reflexivity)
                     ltac:(apply Hfree; vm_compute; reflexivity)
                     ltac:(apply Hfree; vm_compute; reflexivity)
                     ltac:(apply Hstop; vm_compute; reflexivity)
                     ltac:(vm_compute; reflexivity) ltac:(vm_compute; reflexivity)
                     ltac:(vm_compute; reflexivity) ltac:(vm_compute; reflexivity))).
    exact H8. }
  apply (F11 layout_three_columns); [vm_compute; reflexivity | vm_compute; discriminate].
Defined.

Lemma zoom_target_share_witness :
  splitType tree_three_columns = along_split AxisWidth
  /\ 2 <= GoInt.len (Children tree_three_columns)
  /\ find_active 0 (Children tree_three_columns) 26 = Z.of_nat 0
  /\ 0 <= 65 <= 100
  /\ GoInt.len (Children tree_three_columns) - 1 <= size_of AxisWidth tree_three_columns <= 2 ^ 31
  /\ Forall (fun c => 0 <= size_of AxisWidth c <= 2 ^ 31) (Children tree_three_columns)
  /\ exists zoomed target adjustment,
       zoomTransform tree_three_columns 26 65 = Ok zoomed
       /\ nth_error (Children zoomed) 0 = Some target
       /\ Width target = (255 - (3 - 1)) * 65 / 100 + adjustment
       /\ 0 <= adjustment <= 3 - 2
       /\ sum_Z (map Width (Children zoomed)) + (3 - 1) = 255
       /\ Forall (fun sibling => Width sibling <= Width target) (Children zoomed).
Proof.
  assert (H1 : splitType tree_three_columns = along_split AxisWidth) by reflexivity.
  assert (H2 : 2 <= GoInt.len (Children tree_three_columns)) by (vm_compute; congruence).
  assert (H3 : find_active 0 (Children tree_three_columns) 26 = Z.of_nat 0) by reflexivity.
  assert (H4 : 0 <= 65 <= 100) by lia.
  assert (H5 : GoInt.len (Children tree_three_columns) - 1
               <= size_of AxisWidth tree_three_columns <= 2 ^ 31)
    by (vm_compute; split; congruence).
  assert (H6 : Forall (fun c => 0 <= size_of AxisWidth c <= 2 ^ 31) (Children tree_three_columns))
    by (repeat constructor; vm_compute; congruence).
  destruct (zoom_target_share AxisWidth tree_three_columns 26 65 0 H1 H2 H3 H4 H5 H6)
    as (zoomed & target & adj & E & N & S1 & A & C & D).
  repeat (split; [assumption|]).
  exists zoomed, target, adj.
  split; [exact E|]. split; [exact N|]. split; [exact S1|]. split; [exact A|]. split; [exact C|].
  apply D. vm_compute. congruence.
Defined.

Lemma ApplyZoom_guards_witness :
  let state := mkState true (str "work") (str "0") layout_three_columns in
  let fallback := fun (_ : State) (_ : Z) => retM unit (A := option GoError) None in
  ApplyZoom unit (fixed_host "1" "work" "0") fallback state (tt, [])
  = (Ok None, (tt, [RunTmux (display_p "#{window_panes}")]))
  /\ exists w' queries,
       ApplyZoom unit (fixed_host "4" "work" "1") fallback state (tt, [])
       = (Ok None, (w', [] ++ queries))
       /\ forallb is_query queries = true
       /\ (1 < 4 -> w' = tt /\ queries = [RunTmux (display_p "#{window_panes}");
                                          RunTmux (display_p "#{session_name}");
                                          RunTmux (display_p "#{window_index}")]).
Proof.
  intros state fallback. split.
  - refine (proj1 (ApplyZoom_guards unit (fixed_host "1" "work" "0") fallback state tt []
                     (str "1") tt 1 _ _) _);
      [reflexivity | reflexivity | lia].
  - refine (proj2 (ApplyZoom_guards unit (fixed_host "4" "work" "1") fallback state tt []
                     (str "4") tt 4 _ _) (str "work") tt (str "1") tt _ _ _);
      [reflexivity | reflexivity | reflexivity | reflexivity |].
    right. vm_compute. congruence.
Defined.

Lemma BuildLayout_decodes_back_witness :
  well_formed tree_nested_columns = true
  /\ ints_in_range tree_nested_columns = true
  /\ ParseLayout (BuildLayout tree_nested_columns) = Ok tree_nested_columns
  /\ (BuildLayout tree_three_columns = BuildLayout tree_nested_columns ->
      tree_three_columns = tree_nested_columns).
Proof.
  assert (H1 : well_formed tree_nested_columns = true) by (vm_compute; reflexivity).
  assert (H2 : ints_in_range tree_nested_columns = true) by (vm_compute; reflexivity).
  destruct (BuildLayout_decodes_back tree_nested_columns H1 H2) as [R1 R2].
  split; [exact H1|]. split; [exact H2|]. split; [exact R1|].
  apply R2; vm_compute; reflexivity.
Defined.

Lemma ParseLayout_returns_well_formed_witness :
  ParseLayout layout_unclosed = Ok tree_unclosed
  /\ well_formed tree_unclosed = true /\ ints_in_range tree_unclosed = true.
Proof.
  assert (H : ParseLayout layout_unclosed = Ok tree_unclosed) by (vm_compute; reflexivity).
  split; [exact H | exact (ParseLayout_returns_well_formed _ _ H)].
Defined.

Lemma ParseLayout_ignores_trailing_text_witness :
  well_formed tree_three_columns = true
  /\ ints_in_range tree_three_columns = true
  /\ ParseLayout (BuildLayout tree_three_columns ++ str " and more") = Ok tree_three_columns
  /\ ParseLayout (BuildLayout (leaf 80 24 0 0 7) ++ str ",x") = Ok (leaf 80 24 0 0 7).
Proof.
  assert (H1 : well_formed tree_three_columns = true) by (vm_compute; reflexivity).
  assert (H2 : ints_in_range tree_three_columns = true) by (vm_compute; reflexivity).
  split; [exact H1|]. split; [exact H2|]. split.
  - apply ParseLayout_ignores_trailing_text; [exact H1 | exact H2 | left; vm_compute; discriminate].
  - apply ParseLayout_ignores_trailing_text;
      [vm_compute; reflexivity | vm_compute; reflexivity | right; vm_compute; reflexivity].
Defined.

Lemma containsPane_iff_leaf_witness :
  well_formed tree_three_columns = true /\ 41 <> -1
  /\ (containsPane tree_three_columns 41 = true <-> In 41 (leaf_ids tree_three_columns)).
Proof.
  assert (H1 : well_formed tree_three_columns = true) by (vm_compute; reflexivity).
  assert (H2 : 41 <> -1) by lia.
  split; [exact H1|]. split; [exact H2|].
  exact (containsPane_iff_leaf tree_three_columns 41 H1 H2).
Defined.

Lemma countPanes_counts_leaves_witness :
  Z.of_nat (List.length (leaf_ids tree_nested_columns)) < 2 ^ 63
  /\ countPanes tree_nested_columns = Z.of_nat (List.length (leaf_ids tree_nested_columns)).
Proof.
  assert (H : Z.of_nat (List.length (leaf_ids tree_nested_columns)) < 2 ^ 63)
    by (vm_compute; reflexivity).
  split; [exact H | exact (countPanes_counts_leaves tree_nested_columns H)].
Defined.

Lemma applyNestedZoom_flat_witness :
  (forall c, In c (Children tree_wide_middle) -> containsPane c 2 = true ->
             GoInt.len (Children c) <= 1)
  /\ applyNestedZoom tree_wide_middle 2 65 = Ok tree_wide_middle
  /\ zoomTransform tree_wide_middle 2 65 = ApplyZoomToLayout tree_wide_middle 2 65.
Proof.
  assert (H : forall c, In c (Children tree_wide_middle) -> containsPane c 2 = true ->
                        GoInt.len (Children c) <= 1).
  { intros c Hc _. cbn in Hc. destruct Hc as [<-|[<-|[<-|[]]]]; vm_compute; discriminate. }
  split; [exact H | exact (applyNestedZoom_flat tree_wide_middle 2 65 H)].
Defined.

Lemma ApplyZoomToLayout_other_axis_witness :
  ApplyZoomToLayout tree_three_columns 26 65
  = Ok (hsplit 255 61 0 0
          [ vsplit 165 61 0 0 [ leaf 165 30 0 0 26; leaf 165 30 0 31 41 ];
            leaf 44 61 166 0 36;
            leaf 44 61 211 0 42 ])
  /\ erase_axis AxisWidth
       (hsplit 255 61 0 0
          [ vsplit 165 61 0 0 [ leaf 165 30 0 0 26; leaf 165 30 0 31 41 ];
            leaf 44 61 166 0 36;
            leaf 44 61 211 0 42 ])
     = erase_axis AxisWidth tree_three_columns.
Proof.
  assert (H : ApplyZoomToLayout tree_three_columns 26 65
              = Ok (hsplit 255 61 0 0
                      [ vsplit 165 61 0 0 [ leaf 165 30 0 0 26; leaf 165 30 0 31 41 ];
                        leaf 44 61 166 0 36;
                        leaf 44 61 211 0 42 ])) by (vm_compute; reflexivity).
  split; [exact H|].
  apply (proj1 (ApplyZoomToLayout_other_axis _ _ _ _ H)). vm_compute. discriminate.
Defined.

Lemma ApplyZoomToLayout_keeps_inner_offsets_witness :
  ApplyZoomToLayout tree_nested_columns 4 65
  = Ok (hsplit 201 61 0 0
          [ vsplit 70 61 0 0
              [ leaf 70 30 0 0 1;
                hsplit 70 30 0 31 [ leaf 50 30 0 31 2; leaf 49 30 51 31 3 ] ];
            leaf 130 61 71 0 4 ])
  /\ map (fun c => map erase_sizes (Children c))
         (Children (hsplit 201 61 0 0
            [ vsplit 70 61 0 0
                [ leaf 70 30 0 0 1;
                  hsplit 70 30 0 31 [ leaf 50 30 0 31 2; leaf 49 30 51 31 3 ] ];
              leaf 130 61 71 0 4 ]))
     = map (fun c => map erase_sizes (Children c)) (Children tree_nested_columns).
Proof.
  assert (H : ApplyZoomToLayout tree_nested_columns 4 65
              = Ok (hsplit 201 61 0 0
                      [ vsplit 70 61 0 0
                          [ leaf 70 30 0 0 1;
                            hsplit 70 30 0 31 [ leaf 50 30 0 31 2; leaf 49 30 51 31 3 ] ];
                        leaf 130 61 71 0 4 ])) by (vm_compute; reflexivity).
  split; [exact H | exact (ApplyZoomToLayout_keeps_inner_offsets _ _ _ _ H)].
Defined.

Lemma zoom_places_children_in_sequence_witness :
  1 < GoInt.len (Children tree_wide_middle)
  /\ applyHorizontalZoom tree_wide_middle 0 50
     = Ok (hsplit 200 50 0 0 [ leaf 100 50 0 0 1; leaf 87 50 101 0 2; leaf 11 50 189 0 3 ])
  /\ contiguous AxisWidth (X tree_wide_middle)
       (Children (hsplit 200 50 0 0
                    [ leaf 100 50 0 0 1; leaf 87 50 101 0 2; leaf 11 50 189 0 3 ])).
Proof.
  assert (Hn : 1 < GoInt.len (Children tree_wide_middle)) by (vm_compute; reflexivity).
  assert (H : applyHorizontalZoom tree_wide_middle 0 50
              = Ok (hsplit 200 50 0 0
                      [ leaf 100 50 0 0 1; leaf 87 50 101 0 2; leaf 11 50 189 0 3 ]))
    by (vm_compute; reflexivity).
  split; [exact Hn|]. split; [exact H|].
  exact (proj1 (zoom_places_children_in_sequence _ _ _ _ Hn) H).
Defined.

Lemma zoomed_layout_decodes_back_witness :
  well_formed tree_nested_columns = true
  /\ ints_in_range tree_nested_columns = true
  /\ exists zoomed,
       zoomTransform tree_nested_columns 3 80 = Ok zoomed
       /\ well_formed zoomed = true
       /\ ints_in_range zoomed = true
       /\ ParseLayout (BuildLayout zoomed) = Ok zoomed.
Proof.
  assert (H1 : well_formed tree_nested_columns = true) by (vm_compute; reflexivity).
  assert (H2 : ints_in_range tree_nested_columns = true) by (vm_compute; reflexivity).
  split; [exact H1|]. split; [exact H2|].
  exact (zoomed_layout_decodes_back tree_nested_columns 3 80 H1 H2).
Defined.

Lemma two_level_zoom_keeps_sizes_witness :
  two_level AxisWidth tree_three_columns = true
  /\ well_formed tree_three_columns = true
  /\ conserved tree_three_columns = true
  /\ sizes_bounded tree_three_columns = true
  /\ 0 <= 65 <= 100
  /\ exists zoomed,
       zoomTransform tree_three_columns 41 65 = Ok zoomed /\ conserved zoomed = true.
Proof.
  assert (H1 : two_level AxisWidth tree_three_columns = true) by (vm_compute; reflexivity).
  assert (H2 : well_formed tree_three_columns = true) by (vm_compute; reflexivity).
  assert (H3 : conserved tree_three_columns = true) by (vm_compute; reflexivity).
  assert (H4 : sizes_bounded tree_three_columns = true) by (vm_compute; reflexivity).
  assert (H5 : 0 <= 65 <= 100) by lia.
  split; [exact H1|]. split; [exact H2|]. split; [exact H3|]. split; [exact H4|].
  split; [exact H5|].
  exact (two_level_zoom_keeps_sizes AxisWidth tree_three_columns 41 65 H1 H2 H3 H4 H5).
Defined.

Lemma findColumns_findRowsInColumn_group_witness :
  Permutation (rev (fold_left (map_add AxisWidth) makeTestPanes []))
              (fold_left (map_add AxisWidth) makeTestPanes [])
  /\ sort_bands (rev (fold_left (map_add AxisWidth) makeTestPanes []))
     = findColumns makeTestPanes.
Proof.
  assert (H : Permutation (rev (fold_left (map_add AxisWidth) makeTestPanes []))
                          (fold_left (map_add AxisWidth) makeTestPanes []))
    by (apply Permutation_sym, Permutation_rev).
  split; [exact H|].
  exact (proj1 (proj2 (proj2 (findColumns_findRowsInColumn_group makeTestPanes))) _ H).
Defined.

Lemma GetPanes_reads_pane_lines_witness :
  Forall (fun p => pane_printable p = true) makeTestPanes
  /\ GetPanes unit
       (table_host (fun _ => Some (strings_Join (map pane_line makeTestPanes) [newline])))
       (tt, [])
     = (Ok (Val makeTestPanes), (tt, [] ++ [RunTmux list_panes_args])).
Proof.
  assert (H : Forall (fun p => pane_printable p = true) makeTestPanes)
    by (repeat (constructor; [vm_compute; reflexivity|]); constructor).
  split; [exact H|].
  exact (proj1 (GetPanes_reads_pane_lines unit
                  (table_host (fun _ => Some (strings_Join (map pane_line makeTestPanes)
                                                           [newline])))
                  tt [] tt makeTestPanes H eq_refl)).
Defined.

Lemma GetActivePaneID_reads_pane_id_witness :
  GoInt.in_range 42 = true
  /\ GetActivePaneID unit (table_host (fun _ => Some ("%"%char :: itoa 42))) (tt, [])
     = (Ok (Val 42), (tt, [] ++ [RunTmux (display_p "#{pane_id}")])).
Proof.
  assert (H : GoInt.in_range 42 = true) by (vm_compute; reflexivity).
  split; [exact H|].
  exact (GetActivePaneID_reads_pane_id unit (table_host (fun _ => Some ("%"%char :: itoa 42)))
           tt [] tt ("%"%char :: itoa 42) 42 H (or_introl eq_refl) eq_refl).
Defined.

Lemma applyProportionalZoom_commands_witness :
  In (PaneInfo.mk (str "%2") 2 84 30 0 31 false) makeTestPanes
  /\ exists w' es,
       applyProportionalZoom unit (table_host (fun _ => Some []))
         makeTestPanes (PaneInfo.mk (str "%2") 2 84 30 0 31 false) 255 61 65 (tt, [])
       = (Ok tt, (w', [] ++ es))
       /\ filter is_resize es
          = [ resize_command AxisWidth (str "%1") 165;
              resize_command AxisHeight (str "%2") 39 ].
Proof.
  assert (H : In (PaneInfo.mk (str "%2") 2 84 30 0 31 false) makeTestPanes)
    by (right; left; reflexivity).
  split; [exact H|].
  destruct (applyProportionalZoom_commands unit (table_host (fun _ => Some []))
              makeTestPanes (PaneInfo.mk (str "%2") 2 84 30 0 31 false) 255 61 65 tt [] H)
    as (w' & es & E & _ & C).
  exists w', es. split; [exact E|]. rewrite C. vm_compute. reflexivity.
Defined.

Lemma zoom_sibling_shares_witness :
  exists zoomed,
    zoomTransform tree_wide_middle 1 34 = Ok zoomed
    /\ forall (j : nat) (sibling sibling' : LayoutNode),
         j <> O ->
         nth_error (Children tree_wide_middle) j = Some sibling ->
         nth_error (Children zoomed) j = Some sibling' ->
         size_of AxisWidth sibling'
         = (if 0 <? sum_Z (map (size_of AxisWidth) (Children tree_wide_middle))
                    - size_of AxisWidth (leaf 20 50 0 0 1)
            then size_of AxisWidth sibling
                 * (size_of AxisWidth tree_wide_middle
                    - (GoInt.len (Children tree_wide_middle) - 1)
                    - (size_of AxisWidth tree_wide_middle
                       - (GoInt.len (Children tree_wide_middle) - 1)) * 34 / 100)
                 / (sum_Z (map (size_of AxisWidth) (Children tree_wide_middle))
                    - size_of AxisWidth (leaf 20 50 0 0 1))
            else (size_of AxisWidth tree_wide_middle
                  - (GoInt.len (Children tree_wide_middle) - 1)
                  - (size_of AxisWidth tree_wide_middle
                     - (GoInt.len (Children tree_wide_middle) - 1)) * 34 / 100)
                 / (GoInt.len (Children tree_wide_middle) - 1))
         /\ 0 <= size_of AxisWidth sibling'
            <= size_of AxisWidth tree_wide_middle
               - (GoInt.len (Children tree_wide_middle) - 1)
               - (size_of AxisWidth tree_wide_middle
                  - (GoInt.len (Children tree_wide_middle) - 1)) * 34 / 100.
Proof.
  apply (zoom_sibling_shares AxisWidth tree_wide_middle 1 34 O (leaf 20 50 0 0 1)).
  - reflexivity.
  - vm_compute. discriminate.
  - vm_compute. reflexivity.
  - reflexivity.
  - lia.
  - vm_compute. split; discriminate.
  - repeat (constructor; [vm_compute; split; discriminate|]). constructor.
Defined.

